(** * mineSweeper.py: a shallow embedding of the region solver

    The Python program keeps a board of [Field] objects (global [playarea]),
    a global counter [mines_left] and an external mine field that is asked
    for the number of mines around a cell.  Regions are sets of still unknown
    fields with a lower and an upper bound on the mines among them.

    The embedding follows the source function by function:
    - a [Field] object is identified with its coordinates [(x, y)];
    - the board maps a field to its [type]; a field whose [type] was never
      assigned reads the class attribute [FieldType.Unknown];
    - global mutable state is threaded through a state-and-exception monad;
    - Python sets are [gset]s, Python lists are lists, Python ints are [Z]. *)

From stdpp Require Import gmap list strings.
From Stdlib Require Import ZArith Lia Ascii DecimalString.

Local Open Scope Z_scope.

(** ** Exceptions and the state monad *)

Inductive exn : Type :=
  | HitMine      (* the swept cell was a mine *)
  | ValueError   (* FieldType(n) for an n that is no member value *)
  | IndexError.  (* list index out of range *)

Inductive result (A : Type) : Type :=
  | Ok (a : A)
  | Raise (e : exn).
Arguments Ok {A} a.
Arguments Raise {A} e.

Definition M (S A : Type) : Type := S → result (A * S).

Definition ret {S A} (a : A) : M S A := λ s, Ok (a, s).

Definition bind {S A B} (m : M S A) (k : A → M S B) : M S B :=
  λ s, match m s with
       | Ok (a, s') => k a s'
       | Raise e => Raise e
       end.

Definition raise {S A} (e : exn) : M S A := λ _, Raise e.
Definition gets {S A} (f : S → A) : M S A := λ s, Ok (f s, s).
Definition modify {S} (f : S → S) : M S unit := λ s, Ok (tt, f s).

Declare Scope py_scope.
Delimit Scope py_scope with py.
Notation "x <- m ;; k" := (bind m (λ x, k))
  (at level 100, m at next level, right associativity) : py_scope.
Notation "m ;;; k" := (bind m (λ _, k))
  (at level 100, right associativity) : py_scope.
Local Open Scope py_scope.

(** [for x in xs: body(x)] with no [break], [continue] or [return]. *)
Fixpoint for_each {S A} (xs : list A) (body : A → M S unit) : M S unit :=
  match xs with
  | [] => ret tt
  | x :: xs' => body x ;;; for_each xs' body
  end.

(** [for x in xs: acc = body(x, acc)]: a loop that carries local variables;
    [continue] is the body returning [acc] unchanged. *)
Fixpoint for_acc {S A L} (xs : list A) (body : A → L → M S L) (acc : L) : M S L :=
  match xs with
  | [] => ret acc
  | x :: xs' => acc' <- body x acc ;; for_acc xs' body acc'
  end.

(** A loop whose body may [return v] from the enclosing function
    ([Some v]) or fall through to the next iteration ([None]). *)
Fixpoint for_return {S A R} (xs : list A) (body : A → M S (option R))
  : M S (option R) :=
  match xs with
  | [] => ret None
  | x :: xs' =>
      r <- body x ;;
      match r with
      | Some v => ret (Some v)
      | None => for_return xs' body
      end
  end.

(** Python's [range(a, b)] over integers. *)
Definition range (a b : Z) : list Z := seqZ a (b - a).

(** ** Data model *)

Inductive FieldType : Type :=
  | Numbered0 | Numbered1 | Numbered2 | Numbered3 | Numbered4
  | Numbered5 | Numbered6 | Numbered7 | Numbered8
  | Mine
  | Unknown.

Global Instance FieldType_eq_dec : EqDecision FieldType.
Proof. solve_decision. Defined.

(** [int(t)] for a member [t] of the [IntEnum]. *)
Definition FieldType_int (t : FieldType) : Z :=
  match t with
  | Numbered0 => 0 | Numbered1 => 1 | Numbered2 => 2 | Numbered3 => 3
  | Numbered4 => 4 | Numbered5 => 5 | Numbered6 => 6 | Numbered7 => 7
  | Numbered8 => 8 | Mine => 9 | Unknown => 10
  end.

(** [FieldType(n)]: the member with value [n]; Python raises [ValueError]
    when there is none. *)
Definition FieldType_of_int (n : Z) : option FieldType :=
  match n with
  | 0 => Some Numbered0 | 1 => Some Numbered1 | 2 => Some Numbered2
  | 3 => Some Numbered3 | 4 => Some Numbered4 | 5 => Some Numbered5
  | 6 => Some Numbered6 | 7 => Some Numbered7 | 8 => Some Numbered8
  | 9 => Some Mine | 10 => Some Unknown
  | _ => None
  end.

(** A [Field] object is determined by the coordinates it was built with;
    [playarea[x][y]] is the field [(x, y)]. *)
Definition Field : Type := Z * Z.

Record Region : Type := mkRegion {
  mines_min : Z;
  mines_max : Z;
  fields : gset Field;
}.

(** [len(s)] of a set, as a Python int. *)
Definition len_set (s : gset Field) : Z := Z.of_nat (size s).

(** The global variables the functions read and write: the [type]
    attribute of every field of [playarea], and [mines_left]. *)
Record state : Type := mkState {
  playarea : gmap Field FieldType;
  mines_left : Z;
}.

(** [field.type]: the instance attribute if it was ever assigned, the class
    attribute [FieldType.Unknown] otherwise. *)
Definition field_type (st : state) (f : Field) : FieldType :=
  default Unknown (playarea st !! f).

(** [field.type = t] *)
Definition set_type (f : Field) (t : FieldType) (st : state) : state :=
  mkState (<[f := t]> (playarea st)) (mines_left st).

(** [mines_left = mines_left - 1] *)
Definition decr_mines_left (st : state) : state :=
  mkState (playarea st) (mines_left st - 1).

(** [MAX_RECURSION_DEPTH = 4] *)
Definition MAX_RECURSION_DEPTH : Z := 4.

(** Modelled from the spec: the mine field of module [mineField], which is
    imported by the program and not part of the sources.  Asked for a cell,
    it answers with the number of mines around it, or tells that the cell
    was a mine; in the latter case the call in [sweep_field] yields no
    count and the reveal ends with an exception. *)
Inductive answer : Type :=
  | Count (n : Z)
  | WasMine.

(** An object of class [MineField], with its method [sweep_cell(x, y)];
    the answer for a cell is taken to depend on the cell only. *)
Record MineField : Type := mkMineField {
  sweep_cell : Z → Z → answer;
}.


(** ** Example boards *)

(** Modelled from the spec: a mine field with the given mines, answering
    [WasMine] on a mine and otherwise the number of mines at most one step
    away in each direction. *)
Definition mine_field (mines : list Field) : MineField :=
  mkMineField (λ x y,
    if bool_decide ((x, y) ∈ mines)
    then WasMine
    else Count (Z.of_nat (length (filter
           (λ m : Field, x - 1 <= m.1 <= x + 1 ∧ y - 1 <= m.2 <= y + 1)
           mines)))).

(** A board given by the fields whose [type] has been assigned. *)
Definition board (assigned : list (Field * FieldType)) (left : Z) : state :=
  mkState (list_to_map assigned) left.

(** The 3 x 3 problem of the header of the source,
<<
      1 ? 2
      ? ? ?
      ? 4 ?
>>
    with the mines it leaves possible. *)
Definition mines_3x3 : list Field := [(1, 1); (2, 1); (0, 2); (2, 2)].
Definition board_3x3 : state :=
  board [((0, 0), Numbered1); ((2, 0), Numbered2); ((1, 2), Numbered4)] 4.
Definition region_1 : Region := mkRegion 1 1 {[ (1, 0); (0, 1); (1, 1) ]}.
Definition region_2 : Region := mkRegion 2 2 {[ (1, 0); (1, 1); (2, 1) ]}.
Definition region_4 : Region :=
  mkRegion 4 4 {[ (0, 1); (1, 1); (2, 1); (0, 2); (2, 2) ]}.

(** A 5 x 2 board on which two regions with two mines each share a
    single field,
<<
      ? ? 2 ? ?
      ? 2 ? 2 ?
>>  *)
Definition mines_5x2 : list Field := [(0, 0); (2, 1); (3, 0)].
Definition board_5x2 : state :=
  board [((2, 0), Numbered2); ((1, 1), Numbered2); ((3, 1), Numbered2)] 3.
Definition region_top : Region := mkRegion 2 2 {[ (1, 0); (3, 0); (2, 1) ]}.
Definition region_left : Region :=
  mkRegion 2 2 {[ (0, 0); (1, 0); (0, 1); (2, 1) ]}.
Definition region_right : Region :=
  mkRegion 2 2 {[ (3, 0); (4, 0); (2, 1); (4, 1) ]}.

(** A 2 x 1 board without mines whose left cell shows 0: [0 ?]. *)
Definition board_2x1 : state := board [((0, 0), Numbered0)] 0.

(** A 3 x 1 board [1 x ?] whose only mine is marked. *)
Definition mines_3x1 : list Field := [(1, 0)].
Definition board_3x1 : state := board [((0, 0), Numbered1); ((1, 0), Mine)] 0.

(** A fresh 2 x 1 board with a mine in its left cell. *)
Definition mines_left_cell : list Field := [(0, 0)].
Definition board_fresh : state := board [] 1.

(** The boards after the moves the examples make. *)
Definition board_3x3_split : state :=
  board [((0, 0), Numbered1); ((2, 0), Numbered2); ((1, 2), Numbered4);
         ((0, 1), Numbered2); ((2, 1), Mine)] 3.
Definition board_2x1_swept : state :=
  board [((0, 0), Numbered0); ((1, 0), Numbered0)] 0.
Definition board_1 : state := board [((0, 0), Numbered1)] 1.

(** [randint] always drawing the lower bound. *)
Definition draw_first : nat → Z → Z → Z := λ _ a _, a.

(** In place of the recursive call of [split_regions]: tells whether the
    region appended last to the working list has an upper bound of 2 on a
    single field, and touches nothing. *)
Definition sees_two_on_one : Z → M (list Region * state) bool :=
  λ _ s,
    Ok (match last s.1 with
        | Some r =>
            bool_decide (mines_max r = 2) && bool_decide (len_set (fields r) = 1)
        | None => false
        end, s).


(** The fresh 3 x 1 board for the mine of [mines_3x1], and the board the
    solver ends with on it: [1 x 1]. *)
Definition board_3x1_fresh : state := board [] 1.
Definition board_3x1_solved : state :=
  board [((0, 0), Numbered1); ((1, 0), Mine); ((2, 0), Numbered1)] 0.

(** Two regions of one field each, two cells apart. *)
Definition two_apart : list Region :=
  [mkRegion 1 1 {[ (0, 0) ]}; mkRegion 1 1 {[ (2, 0) ]}].

(** A region with one mine inside [region_2]. *)
Definition region_inner : Region := mkRegion 1 1 {[ (1, 0); (1, 1) ]}.

(** The region of the cell that shows 1 on the board [1 ? ?]. *)
Definition region_mid : Region := mkRegion 1 1 {[ (1, 0) ]}.

(** Modelled from the spec: a mine field that returns the value [code] as
    its distinguished result for a cell with a mine, and for any other
    cell the number of mines at most one step away. *)
Definition mine_field_returning (code : Z) (mines : list Field) : MineField :=
  mkMineField (λ x y,
    if bool_decide ((x, y) ∈ mines)
    then Count code
    else Count (Z.of_nat (length (filter
           (λ m : Field, x - 1 <= m.1 <= x + 1 ∧ y - 1 <= m.2 <= y + 1)
           mines)))).

(** The 2 x 1 boards after a first guess on the left cell stored 9, and
    after the second guess. *)
Definition board_mine_stored : state := board [((0, 0), Mine)] 1.
Definition board_mine_passed : state :=
  board [((0, 0), Mine); ((1, 0), Numbered1)] 1.

(** A 2 x 2 board without mines whose upper left cell shows 0, and the
    region of that cell: three fields without a mine. *)
Definition board_2x2 : state := board [((0, 0), Numbered0)] 0.
Definition region_three : Region :=
  mkRegion 0 0 {[ (1, 0); (0, 1); (1, 1) ]}.
Definition board_2x2_swept : state :=
  board [((0, 0), Numbered0); ((1, 0), Numbered0); ((0, 1), Numbered0);
         ((1, 1), Numbered0)] 0.

(** A 3 x 1 board [? 2 ?] with a mine at either end, and the region of
    its middle cell: two fields, two mines. *)
Definition mines_ends : list Field := [(0, 0); (2, 0)].
Definition board_ends : state := board [((1, 0), Numbered2)] 2.
Definition region_pair : Region := mkRegion 2 2 {[ (0, 0); (2, 0) ]}.
Definition board_ends_marked : state :=
  board [((1, 0), Numbered2); ((0, 0), Mine); ((2, 0), Mine)] 0.

(** In place of the recursive call of [split_regions]: a call that
    raises. *)
Definition rec_raises : Z → M (list Region * state) bool :=
  λ _ _, Raise IndexError.
(** ** The program *)

Section Program.

Set Default Proof Using "Type".

(** [width] and [height] of [EXPERT_FIELD], and the object [minefield];
    all three come from module [mineField]. *)
Variables width height : Z.
Variable minefield : MineField.

(** [sweep_field(field)] *)
Definition sweep_field (field : Field) : M state unit :=
  match sweep_cell minefield field.1 field.2 with
  | WasMine => raise HitMine
  | Count adjacent_mines =>
      match FieldType_of_int adjacent_mines with
      | None => raise ValueError
      | Some t => modify (set_type field t)
      end
  end.

(** [find_adjacent_type(x, y, type)]; it only reads the board. *)
Definition find_adjacent_type (x y : Z) (type : FieldType) (st : state)
  : gset Field :=
  foldl (λ adjacent scan_x,
    foldl (λ adjacent scan_y,
      if negb (bool_decide (scan_x = x) && bool_decide (scan_y = y))
         && bool_decide (field_type st (scan_x, scan_y) = type)
      then adjacent ∪ {[ (scan_x, scan_y) ]}
      else adjacent)
      adjacent (range (Z.max (y - 1) 0) (Z.min (y + 2) height)))
    ∅ (range (Z.max (x - 1) 0) (Z.min (x + 2) width)).

(** The body of the marking loop of [check_region]. *)
Definition mark_mine (field : Field) : M state unit :=
  modify (set_type field Mine) ;;;
  modify decr_mines_left.

(** [check_region(region)].  The two loops visit the fields of the set in
    the order of [elements]; the board they leave does not depend on it. *)
Definition check_region (region : Region) : M state bool :=
  if bool_decide (len_set (fields region) = 0)
     || negb (bool_decide (mines_min region = mines_max region))
  then ret false
  else if bool_decide (mines_min region = 0)
  then for_each (elements (fields region)) sweep_field ;;; ret true
  else if bool_decide (mines_min region = len_set (fields region))
  then for_each (elements (fields region)) mark_mine ;;; ret true
  else ret false.

(** The body of the two nested loops of [find_regions]; the local
    variables [playarea_modified] and [regions] are carried along. *)
Definition find_regions_cell (x y : Z) (acc : bool * list Region)
  : M state (bool * list Region) :=
  let '(playarea_modified, regions) := acc in
  t <- gets (λ st, field_type st (x, y)) ;;
  if bool_decide (t = Mine) || bool_decide (t = Unknown)
  then ret acc
  else
    let num_mines := FieldType_int t in
    adjacent_unknown <- gets (find_adjacent_type x y Unknown) ;;
    if bool_decide (len_set adjacent_unknown = 0)
    then ret acc
    else
      adjacent_mines <- gets (λ st, len_set (find_adjacent_type x y Mine st)) ;;
      let mines_remaining := num_mines - adjacent_mines in
      let region := mkRegion mines_remaining mines_remaining adjacent_unknown in
      let duplicate :=
        existsb (λ other_region,
                   bool_decide (fields region = fields other_region)) regions in
      if duplicate
      then ret acc
      else
        modified <- check_region region ;;
        ret (playarea_modified || modified, regions ++ [region]).

(** [find_regions()] *)
Definition find_regions : M state (bool * list Region) :=
  for_acc (range 0 height)
    (λ y acc, for_acc (range 0 width) (λ x acc, find_regions_cell x y acc) acc)
    (false, []).

(** The list object [regions] handed to [split_regions] is shared by all
    its recursive calls and updated in place: there it is part of the
    state, next to the board. *)
Definition split_state : Type := list Region * state.

(** A function that only touches the board, run in [split_regions]. *)
Definition on_board {A} (m : M state A) : M split_state A :=
  λ s, match m s.2 with
       | Ok (a, st') => Ok (a, (s.1, st'))
       | Raise e => Raise e
       end.

(** [len(regions)] *)
Definition regions_len : M split_state nat := gets (λ s, length s.1).

(** [regions[i]] *)
Definition regions_get (i : nat) : M split_state Region :=
  λ s, match s.1 !! i with
       | Some r => Ok (r, s)
       | None => Raise IndexError
       end.

(** [regions[i] = r] *)
Definition regions_set (i : nat) (r : Region) : M split_state unit :=
  λ s, if decide (i < length s.1)%nat
       then Ok (tt, (<[i := r]> s.1, s.2))
       else Raise IndexError.

(** [regions.append(r)] *)
Definition regions_append (r : Region) : M split_state unit :=
  modify (λ s, (s.1 ++ [r], s.2)).

(** [del regions[-1]] *)
Definition regions_del_last : M split_state unit :=
  λ s, match s.1 with
       | [] => Raise IndexError
       | _ :: _ => Ok (tt, (removelast s.1, s.2))
       end.

(** The regions C, D and E that [split_regions] builds from a pair A, B:
    the pure part of the loop body, up to the three [Region(...)] calls. *)
Definition split_bounds (regionA regionB : Region) : Region * Region * Region :=
  let regionC_fields := fields regionA ∩ fields regionB in
  let regionD_fields := fields regionA ∖ fields regionB in
  let regionE_fields := fields regionB ∖ fields regionA in
  let regionC_mines_max := Z.min (mines_max regionA) (mines_max regionB) in
  let regionC_mines_min :=
    Z.max (Z.max (mines_min regionA - len_set regionD_fields)
                 (mines_min regionB - len_set regionE_fields)) 0 in
  let regionD_mines_max := Z.max (mines_max regionA - regionC_mines_min) 0 in
  let regionD_mines_min := Z.max (mines_min regionA - regionC_mines_max) 0 in
  let regionE_mines_max := Z.max (mines_max regionB - regionC_mines_min) 0 in
  let regionE_mines_min := Z.max (mines_min regionB - regionC_mines_max) 0 in
  (mkRegion regionC_mines_min regionC_mines_max regionC_fields,
   mkRegion regionD_mines_min regionD_mines_max regionD_fields,
   mkRegion regionE_mines_min regionE_mines_max regionE_fields).

(** The body of the inner loop of [split_regions]: [None] goes on with the
    next pair, [Some b] is [return b].  [rec] is the recursive call. *)
Definition split_pair (rec : Z → M split_state bool) (depth : Z)
    (regionA_index regionB_index : nat) : M split_state (option bool) :=
  regionA <- regions_get regionA_index ;;
  regionB <- regions_get regionB_index ;;
  let '(regionC, regionD, regionE) := split_bounds regionA regionB in
  if bool_decide (len_set (fields regionC) = 0)
  then ret None
  else if bool_decide (len_set (fields regionD) = 0)
          && bool_decide (len_set (fields regionE) = 0)
  then ret None
  else
    let playarea_modified := false in
    modifiedC <- on_board (check_region regionC) ;;
    let playarea_modified := playarea_modified || modifiedC in
    modifiedD <- on_board (check_region regionD) ;;
    let playarea_modified := playarea_modified || modifiedD in
    modifiedE <- on_board (check_region regionE) ;;
    let playarea_modified := playarea_modified || modifiedE in
    if playarea_modified
    then ret (Some true)
    else
      regions_append regionC ;;;
      regions_set regionA_index regionD ;;;
      regions_set regionB_index regionE ;;;
      playarea_modified <- rec (depth + 1) ;;
      regions_set regionB_index regionB ;;;
      regions_set regionA_index regionA ;;;
      regions_del_last ;;;
      if playarea_modified then ret (Some true) else ret None.

(** The body of [split_regions], with the recursive call abstracted. *)
Definition split_regions_body (rec : Z → M split_state bool) (depth : Z)
  : M split_state bool :=
  if bool_decide (depth >= MAX_RECURSION_DEPTH)
  then ret false
  else
    n <- regions_len ;;
    r <- for_return (seq 0 n) (λ regionA_index,
           n' <- regions_len ;;
           for_return (seq (regionA_index + 1) (n' - (regionA_index + 1)))
             (λ regionB_index,
                split_pair rec depth regionA_index regionB_index)) ;;
    match r with
    | Some b => ret b
    | None => ret false
    end.

(** The recursion of [split_regions] goes from [depth] to [depth + 1] and
    stops at [MAX_RECURSION_DEPTH]; [calls] counts the nested calls that
    remain, and [split_regions] starts it with one more than the distance
    to the bound, so that the last line is never reached. *)
Fixpoint split_regions_calls (calls : nat) (depth : Z) : M split_state bool :=
  match calls with
  | S calls' => split_regions_body (split_regions_calls calls') depth
  | O => ret false
  end.

(** [split_regions(regions, depth)], with [regions] in the state. *)
Definition split_regions (depth : Z) : M split_state bool :=
  split_regions_calls (S (Z.to_nat (MAX_RECURSION_DEPTH - depth))) depth.

(** [find_remaining()] *)
Definition find_remaining (st : state) : list Field :=
  foldl (λ remaining y,
    foldl (λ remaining x,
      if bool_decide (field_type st (x, y) = Unknown)
      then remaining ++ [(x, y)]
      else remaining)
      remaining (range 0 width))
    [] (range 0 height).

(** [l[i]] for a Python int [i]: negative indices count from the end. *)
Definition list_index {A} (l : list A) (i : Z) : option A :=
  if bool_decide (0 <= i) then l !! Z.to_nat i
  else if bool_decide (0 <= Z.of_nat (length l) + i)
  then l !! Z.to_nat (Z.of_nat (length l) + i)
  else None.

(** A call of [split_regions] on the list returned by [find_regions]. *)
Definition with_regions {A} (regions : list Region) (m : M split_state A)
  : M state A :=
  λ st, match m (regions, st) with
        | Ok (a, s') => Ok (a, s'.2)
        | Raise e => Raise e
        end.

Inductive flow : Type :=
  | Continue   (* next iteration of [while True] *)
  | Break.     (* [break] *)

(** One iteration of the main loop; [randint] is the draw made in it.
    [visualize()] only prints and is left out. *)
Definition main_iteration (randint : Z → Z → Z) : M state flow :=
  found <- find_regions ;;
  let '(playarea_modified, regions) := found in
  if playarea_modified
  then ret Continue
  else
    playarea_modified <- with_regions regions (split_regions 0) ;;
    if playarea_modified
    then ret Continue
    else
      remaining <- gets find_remaining ;;
      left <- gets mines_left ;;
      remaining <-
        (if bool_decide (left = 0)
         then for_each remaining sweep_field ;;; ret []
         else ret remaining) ;;
      if bool_decide (length remaining = 0%nat)
      then ret Break
      else
        let guess := randint 0 (Z.of_nat (length remaining) - 1) in
        match list_index remaining guess with
        | None => raise IndexError
        | Some field => sweep_field field ;;; ret Continue
        end.

(** The main loop, cut after [rounds] iterations: [Some tt] when it left
    the loop by [break], [None] when the iterations are used up.
    [draws i] is [randint] at the [i]-th iteration. *)
Fixpoint main_loop (draws : nat → Z → Z → Z) (i rounds : nat)
  : M state (option unit) :=
  match rounds with
  | O => ret None
  | S rounds' =>
      f <- main_iteration (draws i) ;;
      match f with
      | Break => ret (Some tt)
      | Continue => main_loop draws (S i) rounds'
      end
  end.

(** The two loops at module level that build the list [playarea]:
    [width] columns of [height] fields each; [Field(x, y)] is the field
    [(x, y)], and its [type] reads [FieldType.Unknown] until assigned. *)
Definition playarea_columns : list (list Field) :=
  foldl (λ playarea x,
    playarea ++ [foldl (λ column y, column ++ [(x, y)])
                   [] (range 0 height)])
    [] (range 0 width).

(** [playarea[x][y]] on that list, for Python ints [x] and [y]. *)
Definition playarea_at (x y : Z) : option Field :=
  column ← list_index playarea_columns x; list_index column y.

(** [str(n)] for a Python int [n]. *)
Definition str (n : Z) : string := NilZero.string_of_int (Z.to_int n).

(** The string [line] that [visualize] builds for the row [y]. *)
Definition visualize_line (st : state) (y : Z) : string :=
  foldl (λ line x,
    if bool_decide (field_type st (x, y) = Unknown)
    then line +:+ "?"
    else if bool_decide (field_type st (x, y) = Mine)
    then line +:+ "x"
    else line +:+ str (FieldType_int (field_type st (x, y))))
    EmptyString (range 0 width).

(** [visualize()]: it reads the board and prints; the result is the list
    of the lines it prints, the last one by the closing [print()]. *)
Definition visualize (st : state) : list string :=
  foldl (λ printed y, printed ++ [visualize_line st y]) [] (range 0 height)
  ++ [EmptyString].

(** ** Vocabulary of the statements *)

(** What a reveal writes into a field: the member of [FieldType] for the
    count the mine field answers, if it answers one. *)
Definition reveal_type (f : Field) : option FieldType :=
  match sweep_cell minefield f.1 f.2 with
  | Count n => FieldType_of_int n
  | WasMine => None
  end.

(** The mine field answers a count from 0 to 8 for the cell. *)
Definition safe_cell (f : Field) : bool :=
  match sweep_cell minefield f.1 f.2 with
  | Count n => bool_decide (0 <= n <= 8)
  | WasMine => false
  end.

(** A field shows a number, [Revealed(count)] in the spec's words. *)
Definition numbered (t : FieldType) : bool :=
  negb (bool_decide (t = Mine) || bool_decide (t = Unknown)).

(** A mine configuration is the set of cells that hold a mine;
    [mines_among mines s] counts the mines among the fields [s]. *)
Definition mines_among (mines s : gset Field) : Z := len_set (mines ∩ s).

(** The configuration respects the bounds of the region. *)
Definition within_bounds (mines : gset Field) (r : Region) : Prop :=
  mines_min r <= mines_among mines (fields r) <= mines_max r.

(** The bound invariant of the spec. *)
Definition bounds_ok (r : Region) : Prop :=
  0 <= mines_min r ∧ mines_min r <= mines_max r
  ∧ mines_max r <= len_set (fields r).

(** The cell lies on the board. *)
Definition in_grid (f : Field) : Prop :=
  0 <= f.1 < width ∧ 0 <= f.2 < height.

(** [f] is one of the up to eight cells of the board around [(x, y)]. *)
Definition adjacent (x y : Z) (f : Field) : Prop :=
  in_grid f ∧ x - 1 <= f.1 <= x + 1 ∧ y - 1 <= f.2 <= y + 1 ∧ f ≠ (x, y).

(** The region [find_regions] builds for the cell [(x, y)] of a board. *)
Definition region_of (st : state) (x y : Z) : Region :=
  let mines_remaining :=
    FieldType_int (field_type st (x, y))
    - len_set (find_adjacent_type x y Mine st) in
  mkRegion mines_remaining mines_remaining (find_adjacent_type x y Unknown st).

(** [find_regions] stores a region for the cell: it shows a number, has an
    unknown cell next to it, and no region collected so far has the same
    fields. *)
Definition extractable (st : state) (x y : Z) (regions : list Region) : Prop :=
  numbered (field_type st (x, y)) = true
  ∧ find_adjacent_type x y Unknown st ≠ ∅
  ∧ ∀ other, other ∈ regions → fields other ≠ find_adjacent_type x y Unknown st.

(** The cells in the order in which [find_regions] visits them. *)
Definition scan_order : list Field :=
  y ← range 0 height; (λ x, (x, y)) <$> range 0 width.

(** [find_regions] cut short after the cells [cells]. *)
Definition find_regions_upto (cells : list Field) : M state (bool * list Region) :=
  for_acc cells (λ c acc, find_regions_cell c.1 c.2 acc) (false, []).

Global Instance adjacent_dec x y f : Decision (adjacent x y f).
Proof. unfold adjacent, in_grid. apply _. Defined.

(** The cells of the board around [(x, y)], as a set. *)
Definition neighbours (x y : Z) : gset Field :=
  list_to_set
    (filter (adjacent x y)
       (sx ← range (x - 1) (x + 2); (λ sy, (sx, sy)) <$> range (y - 1) (y + 2))).

(** The board agrees with a mine configuration: a field marked [Mine]
    holds a mine, a field that shows a number holds none and the number
    counts the mines around it. *)
Definition consistent (mines : gset Field) (st : state) : Prop :=
  ∀ f, in_grid f →
    (field_type st f = Mine → f ∈ mines)
    ∧ (numbered (field_type st f) = true →
       (f ∉ mines)
       ∧ FieldType_int (field_type st f)
         = mines_among mines (neighbours f.1 f.2)).

(** The mine field answers for a mine configuration: [WasMine] on its
    mines, elsewhere the number of mines around the cell, at most 8. *)
Definition truthful (mines : gset Field) : Prop :=
  ∀ f, in_grid f →
    match sweep_cell minefield f.1 f.2 with
    | WasMine => f ∈ mines
    | Count n =>
        (f ∉ mines) ∧ n = mines_among mines (neighbours f.1 f.2) ∧ n <= 8
    end.

(** What a call leaves behind: the list as it was and, when it returns
    [False], the board as it was. *)
Definition leaves_untouched (s : split_state) (b : bool) (s' : split_state)
  : Prop :=
  s'.1 = s.1 ∧ (b = false → s'.2 = s.2).

(** The cells of the board marked [Mine]. *)
Definition marked (st : state) : gset Field :=
  list_to_set (filter (λ f, field_type st f = Mine) scan_order).

(** What the solver maintains with respect to the mine configuration: the
    board agrees with it, and [mines_left] counts its mines that are not
    marked yet. *)
Definition solver_invariant (mines : gset Field) (st : state) : Prop :=
  consistent mines st
  ∧ mines_left st + len_set (marked st) = len_set mines.

(** A region as the solver holds them: its bounds hold for the mine
    configuration and its fields are unknown cells of the board. *)
Definition sound_region (mines : gset Field) (st : state) (r : Region) : Prop :=
  within_bounds mines r
  ∧ ∀ f, f ∈ fields r → in_grid f ∧ field_type st f = Unknown.

(** ** Vocabulary for the run of the solver *)

(** What a run may end in: a result and a state that satisfy [Q], or an
    exception that satisfies [E]. *)
Definition outcome {S A} (E : exn → Prop) (Q : A → S → Prop)
    (r : result (A * S)) : Prop :=
  match r with
  | Ok (a, s) => Q a s
  | Raise e => E e
  end.

(** On the cells of the board the mine field answers [WasMine] or a count
    from 0 to 8. *)
Definition counts_valid : Prop :=
  ∀ f, in_grid f →
    match sweep_cell minefield f.1 f.2 with
    | Count n => 0 <= n <= 8
    | WasMine => True
    end.

(** [randint(a, b)] is an integer from [a] to [b]. *)
Definition draw_in_range (randint : Z → Z → Z) : Prop :=
  ∀ a b, a <= b → a <= randint a b <= b.

(** The fields of the region are unknown cells of the board. *)
Definition unknown_region (st : state) (r : Region) : Prop :=
  ∀ f, f ∈ fields r → in_grid f ∧ field_type st f = Unknown.

(** From [st] to [st'] only unknown cells of the board were written, and
    [mines_left] did not grow. *)
Definition evolves (st st' : state) : Prop :=
  (∀ f, field_type st f ≠ Unknown → field_type st' f = field_type st f)
  ∧ (∀ f, field_type st' f ≠ field_type st f → in_grid f)
  ∧ mines_left st' <= mines_left st.

(** Some cell of the board that was unknown in [st] is not in [st']. *)
Definition advanced (st st' : state) : Prop :=
  ∃ f, in_grid f ∧ field_type st f = Unknown ∧ field_type st' f ≠ Unknown.

(** [mines_left] plus the number of cells marked [Mine]. *)
Definition mines_total (st : state) : Z := mines_left st + len_set (marked st).

(** What a step of the solver that reports [modified] does to the board. *)
Definition progress (modified : bool) (st st' : state) : Prop :=
  evolves st st'
  ∧ (counts_valid →
     mines_total st' = mines_total st
     ∧ (modified = true → advanced st st')).

(** The exceptions a step may end in: with valid counts, [HitMine] only. *)
Definition hit_only (e : exn) : Prop := counts_valid → e = HitMine.

(** The exception [e] is the one [sweep_field] raises on a cell of the
    board that is unknown in [st]. *)
Definition sweep_raises (st : state) (e : exn) : Prop :=
  ∃ f, in_grid f ∧ field_type st f = Unknown
       ∧ ∀ s, sweep_field f s = Raise e.

(** The exceptions a step started on the board [st] may end in. *)
Definition raised (st : state) (e : exn) : Prop :=
  hit_only e ∧ sweep_raises st e.

(** The iteration ends in [continue]. *)
Definition continues (f : flow) : bool :=
  match f with
  | Continue => true
  | Break => false
  end.

(** The exceptions an iteration of the main loop may end in. *)
Definition hit_or_draw (randint : Z → Z → Z) (e : exn) : Prop :=
  counts_valid → draw_in_range randint → e = HitMine.

(** Where the exception of an iteration started on the board [st] comes
    from: it is the [IndexError] of a draw outside its bounds, or what
    [sweep_field] raises on an unknown cell of the board. *)
Definition draw_or_sweep (randint : Z → Z → Z) (st : state) (e : exn)
  : Prop :=
  (e = IndexError ∧ ¬ draw_in_range randint) ∨ sweep_raises st e.

(** The exceptions that come out of [sweep_field]. *)
Definition from_sweep (e : exn) : Prop := e = HitMine ∨ e = ValueError.

(** What every region stored by [find_regions] looks like. *)
Definition extracted_shape (r : Region) : Prop :=
  fields r ≠ ∅ ∧ mines_min r = mines_max r ∧ len_set (fields r) <= 8
  ∧ ∀ f, f ∈ fields r → in_grid f.

(** No pair of the list makes [split_regions] split: the field sets of
    an earlier and a later region are disjoint or the same. *)
Definition nothing_to_split (regions : list Region) : Prop :=
  ∀ i j A B, (i < j)%nat → regions !! i = Some A → regions !! j = Some B →
    fields A ∩ fields B = ∅ ∨ fields A = fields B.

(** The character that stands for a field in the output of [visualize]. *)
Definition cell_char (t : FieldType) : ascii :=
  match t with
  | Numbered0 => "0" | Numbered1 => "1" | Numbered2 => "2"
  | Numbered3 => "3" | Numbered4 => "4" | Numbered5 => "5"
  | Numbered6 => "6" | Numbered7 => "7" | Numbered8 => "8"
  | Mine => "x"
  | Unknown => "?"
  end%char.

(** ** The monad and the loops *)

Lemma bind_Ok {S A B} (m : M S A) (k : A → M S B) s b s' :
  bind m k s = Ok (b, s') ↔ ∃ a s1, m s = Ok (a, s1) ∧ k a s1 = Ok (b, s').
Proof.
  unfold bind. split.
  - destruct (m s) as [[a s1]|e]; [eauto | discriminate].
  - intros (a & s1 & -> & Hk). exact Hk.
Qed.

Lemma bind_Raise {S A B} (m : M S A) (k : A → M S B) s e :
  bind m k s = Raise e ↔
  m s = Raise e ∨ ∃ a s1, m s = Ok (a, s1) ∧ k a s1 = Raise e.
Proof.
  unfold bind. split.
  - destruct (m s) as [[a s1]|e']; [eauto | intros [= ->]; by left].
  - intros [-> | (a & s1 & -> & Hk)]; done.
Qed.

(** A loop establishes at its end what every iteration preserves. *)
Lemma for_each_inv {S A} (I : S → Prop) (xs : list A) (body : A → M S unit) :
  (∀ x s s', x ∈ xs → I s → body x s = Ok (tt, s') → I s') →
  ∀ s s', I s → for_each xs body s = Ok (tt, s') → I s'.
Proof.
  induction xs as [|x xs IH]; intros Hbody s s' Hs; simpl.
  - by intros [= <-].
  - intros (u & s1 & Hx & Hrest)%bind_Ok. destruct u.
    eapply IH; [| |exact Hrest].
    + intros y t t' Hy. apply Hbody. by right.
    + eapply Hbody; [by left|exact Hs|exact Hx].
Qed.

Lemma for_acc_inv {S A L} (I : L → S → Prop) (xs : list A)
    (body : A → L → M S L) :
  (∀ x l s l' s', x ∈ xs → I l s → body x l s = Ok (l', s') → I l' s') →
  ∀ l s l' s', I l s → for_acc xs body l s = Ok (l', s') → I l' s'.
Proof.
  induction xs as [|x xs IH]; intros Hbody l s l' s' Hs; simpl.
  - by intros [= <- <-].
  - intros (l1 & s1 & Hx & Hrest)%bind_Ok.
    eapply IH; [| |exact Hrest].
    + intros y t u t' u' Hy. apply Hbody. by right.
    + eapply Hbody; [by left|exact Hs|exact Hx].
Qed.

(** For a loop with [return]: [I] holds between iterations, [Q v] when
    the loop is left by [return v]. *)
Lemma for_return_inv {S A R} (I : S → Prop) (Q : R → S → Prop)
    (xs : list A) (body : A → M S (option R)) :
  (∀ x s r s', x ∈ xs → I s → body x s = Ok (r, s') →
     match r with Some v => Q v s' | None => I s' end) →
  ∀ s r s', I s → for_return xs body s = Ok (r, s') →
     match r with Some v => Q v s' | None => I s' end.
Proof.
  induction xs as [|x xs IH]; intros Hbody s r s' Hs; simpl.
  - by intros [= <- <-].
  - intros ([v|] & s1 & Hx & Hrest)%bind_Ok.
    + injection Hrest as <- <-.
      exact (Hbody x s (Some v) s1 ltac:(by left) Hs Hx).
    + eapply IH; [| |exact Hrest].
      * intros y t u t' Hy. apply Hbody. by right.
      * exact (Hbody x s None s1 ltac:(by left) Hs Hx).
Qed.

Lemma for_acc_app {S A L} (xs ys : list A) (body : A → L → M S L) l :
  ∀ s, for_acc (xs ++ ys) body l s
       = bind (for_acc xs body l) (for_acc ys body) s.
Proof.
  revert l. induction xs as [|x xs IH]; intros l s; simpl.
  - done.
  - unfold bind in *. destruct (body x l s) as [[l1 s1]|e]; [|done].
    apply IH.
Qed.

Lemma bind_ext {S A B} (m : M S A) (k1 k2 : A → M S B) s :
  (∀ a s1, k1 a s1 = k2 a s1) → bind m k1 s = bind m k2 s.
Proof. intros H. unfold bind. by destruct (m s) as [[a s1]|e]. Qed.

Lemma for_return_ext {S A R} (xs : list A) (body1 body2 : A → M S (option R)) :
  (∀ x s, body1 x s = body2 x s) →
  ∀ s, for_return xs body1 s = for_return xs body2 s.
Proof.
  intros H. induction xs as [|x xs IH]; intros s; simpl; [done|].
  unfold bind. rewrite H. destruct (body2 x s) as [[[v|] s1]|e]; auto.
Qed.

Lemma for_acc_fmap {S A B L} (g : A → B) (xs : list A) (body : B → L → M S L) l :
  ∀ s, for_acc (g <$> xs) body l s = for_acc xs (λ x, body (g x)) l s.
Proof.
  revert l. induction xs as [|x xs IH]; intros l s; simpl; [done|].
  by apply bind_ext.
Qed.

Lemma for_acc_singleton {S A L} (x : A) (body : A → L → M S L) l s :
  for_acc [x] body l s = body x l s.
Proof. simpl. unfold bind, ret. by destruct (body x l s) as [[l1 s1]|e]. Qed.

Lemma for_each_Raise {S A} (xs : list A) (body : A → M S unit) s e :
  for_each xs body s = Raise e → ∃ x s1, x ∈ xs ∧ body x s1 = Raise e.
Proof.
  revert s. induction xs as [|x xs IH]; intros s; simpl; [done|].
  intros [Hx|(u & s1 & _ & Hrest)]%bind_Raise.
  - exists x, s. split; [by left|done].
  - destruct (IH _ Hrest) as (x' & s2 & Hin & Hraise).
    exists x', s2. split; [by right|done].
Qed.

Lemma for_acc_Raise {S A L} (xs : list A) (body : A → L → M S L) l s e :
  for_acc xs body l s = Raise e →
  ∃ x l1 s1, x ∈ xs ∧ body x l1 s1 = Raise e.
Proof.
  revert l s. induction xs as [|x xs IH]; intros l s; simpl; [done|].
  intros [Hx|(l1 & s1 & _ & Hrest)]%bind_Raise.
  - exists x, l, s. split; [by left|done].
  - destruct (IH _ _ Hrest) as (x' & l2 & s2 & Hin & Hraise).
    exists x', l2, s2. split; [by right|done].
Qed.

Lemma for_return_Raise {S A R} (xs : list A) (body : A → M S (option R)) s e :
  for_return xs body s = Raise e → ∃ x s1, x ∈ xs ∧ body x s1 = Raise e.
Proof.
  revert s. induction xs as [|x xs IH]; intros s; simpl; [done|].
  intros [Hx|([v|] & s1 & _ & Hrest)]%bind_Raise.
  - exists x, s. split; [by left|done].
  - done.
  - destruct (IH _ Hrest) as (x' & s2 & Hin & Hraise).
    exists x', s2. split; [by right|done].
Qed.

Lemma for_acc_returns {S A L} (I : L → S → Prop) (xs : list A)
    (body : A → L → M S L) :
  (∀ x l s, x ∈ xs → I l s → ∃ l' s', body x l s = Ok (l', s') ∧ I l' s') →
  ∀ l s, I l s → ∃ l' s', for_acc xs body l s = Ok (l', s') ∧ I l' s'.
Proof.
  induction xs as [|x xs IH]; intros Hbody l s Hs; simpl.
  - by exists l, s.
  - destruct (Hbody x l s) as (l1 & s1 & Hx & Hs1); [by left|done|].
    destruct (IH (λ y t u Hy, Hbody y t u ltac:(by right)) l1 s1 Hs1)
      as (l' & s' & Hrest & Hs').
    exists l', s'. split; [|done]. unfold bind. by rewrite Hx.
Qed.

Lemma for_return_returns {S A R} (I : S → Prop) (Q : R → S → Prop)
    (xs : list A) (body : A → M S (option R)) :
  (∀ x s, x ∈ xs → I s →
     ∃ r s', body x s = Ok (r, s')
             ∧ match r with Some v => Q v s' | None => I s' end) →
  ∀ s, I s →
    ∃ r s', for_return xs body s = Ok (r, s')
            ∧ match r with Some v => Q v s' | None => I s' end.
Proof.
  induction xs as [|x xs IH]; intros Hbody s Hs; simpl.
  - by exists None, s.
  - destruct (Hbody x s) as (r1 & s1 & Hx & Hr1); [by left|done|].
    destruct r1 as [v|].
    + exists (Some v), s1. split; [|done]. unfold bind. by rewrite Hx.
    + destruct (IH (λ y t Hy, Hbody y t ltac:(by right)) s1 Hr1)
        as (r' & s' & Hrest & Hr').
      exists r', s'. split; [|done]. unfold bind. by rewrite Hx.
Qed.

Lemma bind_step {S A B} (m : M S A) (k : A → M S B) s a s1 :
  m s = Ok (a, s1) → bind m k s = k a s1.
Proof. intros H. unfold bind. by rewrite H. Qed.

(** ** [sweep_field] and [check_region] *)

Lemma sweep_field_eq f st :
  sweep_field f st =
  match sweep_cell minefield f.1 f.2 with
  | WasMine => Raise HitMine
  | Count n =>
      match FieldType_of_int n with
      | Some t => Ok (tt, set_type f t st)
      | None => Raise ValueError
      end
  end.
Proof.
  unfold sweep_field. destruct (sweep_cell minefield _ _) as [n|]; [|done].
  by destruct (FieldType_of_int n).
Qed.

Lemma sweep_field_Ok f st u st' :
  sweep_field f st = Ok (u, st') ↔
  ∃ t, reveal_type f = Some t ∧ st' = set_type f t st.
Proof.
  rewrite sweep_field_eq. unfold reveal_type.
  destruct (sweep_cell minefield _ _) as [n|].
  - destruct (FieldType_of_int n) as [t|]; split.
    + intros [= <- <-]. eauto.
    + intros (t' & [= <-] & ->). by destruct u.
    + done.
    + by intros (? & ? & _).
  - split; [done | by intros (? & ? & _)].
Qed.

Lemma field_type_set_type f g t st :
  field_type (set_type f t st) g = if decide (f = g) then t else field_type st g.
Proof.
  unfold field_type, set_type; simpl. rewrite lookup_insert.
  by destruct (decide (f = g)).
Qed.

(** [FieldType(n)] for a count from 0 to 8 shows that number. *)
Lemma FieldType_of_int_numbered n t :
  0 <= n <= 8 → FieldType_of_int n = Some t →
  FieldType_int t = n ∧ numbered t = true.
Proof.
  intros Hn.
  assert (n = 0 ∨ n = 1 ∨ n = 2 ∨ n = 3 ∨ n = 4 ∨ n = 5 ∨ n = 6 ∨ n = 7 ∨ n = 8)
    as Hcase by lia.
  clear Hn.
  repeat (destruct Hcase as [Hcase|Hcase]); subst n; by intros [= <-].
Qed.

Lemma FieldType_of_int_total n : 0 <= n <= 8 → is_Some (FieldType_of_int n).
Proof.
  intros Hn.
  assert (n = 0 ∨ n = 1 ∨ n = 2 ∨ n = 3 ∨ n = 4 ∨ n = 5 ∨ n = 6 ∨ n = 7 ∨ n = 8)
    as Hcase by lia.
  clear Hn. repeat (destruct Hcase as [Hcase|Hcase]); subst n; by eexists.
Qed.

Lemma safe_cell_reveal f :
  safe_cell f = true →
  ∃ t, reveal_type f = Some t ∧ numbered t = true
       ∧ sweep_cell minefield f.1 f.2 = Count (FieldType_int t).
Proof.
  unfold safe_cell, reveal_type. destruct (sweep_cell minefield _ _) as [n|]; [|done].
  intros Hn%bool_decide_eq_true.
  destruct (FieldType_of_int_total n Hn) as [t Ht]. exists t.
  destruct (FieldType_of_int_numbered n t Hn Ht) as [-> ?]. done.
Qed.

(** The sweeping loop of [check_region]: if it ends, every field of the
    list carries the type the mine field answered for it, the other
    fields and [mines_left] are as before. *)
Lemma for_each_sweep xs st st' :
  for_each xs sweep_field st = Ok (tt, st') →
  mines_left st' = mines_left st
  ∧ (∀ f, f ∈ xs → reveal_type f = Some (field_type st' f))
  ∧ (∀ f, f ∉ xs → field_type st' f = field_type st f).
Proof.
  revert st. induction xs as [|x xs IH]; intros st; simpl.
  - intros [= <-]. split; [done|]. split; [|done]. by intros f ?%elem_of_nil.
  - intros ([] & s1 & Hx & Hrest)%bind_Ok.
    apply sweep_field_Ok in Hx as (t & Ht & ->).
    destruct (IH _ Hrest) as (Hm & Hin & Hout).
    split; [by rewrite Hm|]. split.
    + intros f Hf. destruct (decide (f ∈ xs)) as [Hfx|Hfx]; [by apply Hin|].
      apply elem_of_cons in Hf as [->|]; [|done].
      rewrite Hout by done. rewrite field_type_set_type.
      by rewrite decide_True.
    + intros f Hf. apply not_elem_of_cons in Hf as [Hne Hf].
      rewrite Hout by done. rewrite field_type_set_type.
      by rewrite decide_False.
Qed.

Lemma for_each_sweep_total xs st :
  (∀ f, f ∈ xs → is_Some (reveal_type f)) →
  ∃ st', for_each xs sweep_field st = Ok (tt, st').
Proof.
  revert st. induction xs as [|x xs IH]; intros st Hall; simpl.
  - by eexists.
  - destruct (Hall x) as [t Ht]; [by left|].
    destruct (IH (set_type x t st)) as [st' Hst'].
    { intros f Hf. apply Hall. by right. }
    exists st'. apply bind_Ok. exists tt, (set_type x t st). split; [|done].
    apply sweep_field_Ok. eauto.
Qed.

(** The marking loop of [check_region] always ends, with one decrement of
    [mines_left] for each field. *)
Lemma for_each_mark xs st :
  ∃ st', for_each xs mark_mine st = Ok (tt, st')
  ∧ mines_left st' = mines_left st - Z.of_nat (length xs)
  ∧ (∀ f, f ∈ xs → field_type st' f = Mine)
  ∧ (∀ f, f ∉ xs → field_type st' f = field_type st f).
Proof.
  revert st. induction xs as [|x xs IH]; intros st.
  - exists st. simpl. split; [done|]. split; [lia|].
    split; [by intros f ?%elem_of_nil | done].
  - destruct (IH (decr_mines_left (set_type x Mine st)))
      as (st' & Hrun & Hm & Hin & Hout).
    exists st'. split; [exact Hrun|]. split.
    + rewrite Hm. simpl. lia.
    + split.
      * intros f Hf. destruct (decide (f ∈ xs)) as [Hfx|Hfx]; [by apply Hin|].
        apply elem_of_cons in Hf as [->|]; [|done].
        rewrite Hout by done. unfold decr_mines_left, field_type; simpl.
        by rewrite lookup_insert_eq.
      * intros f Hf. apply not_elem_of_cons in Hf as [Hne Hf].
        rewrite Hout by done. unfold decr_mines_left, field_type; simpl.
        by rewrite lookup_insert_ne.
Qed.

Lemma len_set_0 (s : gset Field) : len_set s = 0 ↔ s = ∅.
Proof.
  unfold len_set. split.
  - intros H. apply leibniz_equiv, size_empty_iff. lia.
  - intros ->. by rewrite size_empty.
Qed.

Lemma len_set_elements (s : gset Field) :
  len_set s = Z.of_nat (length (elements s)).
Proof. reflexivity. Qed.

(** The four cases of [check_region], in the order of the source. *)
Lemma check_region_eq region :
  check_region region =
  if decide (fields region = ∅ ∨ mines_min region ≠ mines_max region)
  then ret false
  else if decide (mines_min region = 0)
  then bind (for_each (elements (fields region)) sweep_field) (λ _, ret true)
  else if decide (mines_min region = len_set (fields region))
  then bind (for_each (elements (fields region)) mark_mine) (λ _, ret true)
  else ret false.
Proof.
  unfold check_region.
  destruct (decide (fields region = ∅)) as [He|He].
  - rewrite decide_True by auto.
    rewrite bool_decide_eq_true_2; [done | by apply len_set_0].
  - rewrite (bool_decide_eq_false_2 (len_set _ = 0)) by (by rewrite len_set_0).
    destruct (decide (mines_min region = mines_max region)) as [Hc|Hc].
    + rewrite decide_False by naive_solver. rewrite (bool_decide_eq_true_2 _ Hc).
      simpl. repeat case_bool_decide; repeat case_decide; done.
    + rewrite decide_True by auto. by rewrite (bool_decide_eq_false_2 _ Hc).
Qed.

Lemma check_region_noop region st :
  fields region = ∅ ∨ mines_min region ≠ mines_max region
  ∨ (mines_min region ≠ 0 ∧ mines_min region ≠ len_set (fields region)) →
  check_region region st = Ok (false, st).
Proof.
  intros H. rewrite check_region_eq. repeat case_decide; try done.
  all: exfalso; destruct H as [?|[?|[? ?]]]; naive_solver.
Qed.

(** Whatever [check_region] does besides returning [False] on an untouched
    board, it does on a collapsed, non-empty region whose bound is 0 or
    the number of fields. *)
Lemma check_region_acts region st res :
  check_region region st = res → res ≠ Ok (false, st) →
  fields region ≠ ∅ ∧ mines_min region = mines_max region
  ∧ (mines_min region = 0 ∨ mines_min region = len_set (fields region)).
Proof.
  intros <- Hres.
  destruct (decide (fields region = ∅)) as [He|He].
  { exfalso. apply Hres, check_region_noop. by left. }
  destruct (decide (mines_min region = mines_max region)) as [Hc|Hc].
  2:{ exfalso. apply Hres, check_region_noop. right. by left. }
  destruct (decide (mines_min region = 0)) as [H0|H0]; [by auto|].
  destruct (decide (mines_min region = len_set (fields region))) as [Hn|Hn];
    [by auto|].
  exfalso. apply Hres, check_region_noop. right. by right.
Qed.

Lemma check_region_false region st st' :
  check_region region st = Ok (false, st') → st' = st.
Proof.
  rewrite check_region_eq. repeat case_decide.
  - by intros [= <-].
  - intros (? & ? & _ & [=])%bind_Ok.
  - intros (? & ? & _ & [=])%bind_Ok.
  - by intros [= <-].
Qed.

(** [check_region] writes to fields of its region only. *)
Lemma check_region_frame region st b st' f :
  check_region region st = Ok (b, st') → f ∉ fields region →
  field_type st' f = field_type st f.
Proof.
  rewrite check_region_eq. intros Hrun Hf.
  assert (f ∉ elements (fields region)) as Hf' by by rewrite elem_of_elements.
  repeat case_decide.
  - by injection Hrun as <- <-.
  - apply bind_Ok in Hrun as ([] & s1 & Hloop & [= <- <-]).
    by apply for_each_sweep in Hloop as (_ & _ & ->).
  - apply bind_Ok in Hrun as ([] & s1 & Hloop & [= <- <-]).
    destruct (for_each_mark (elements (fields region)) st)
      as (st2 & Hrun2 & _ & _ & Hout).
    rewrite Hrun2 in Hloop. injection Hloop as <-. by apply Hout.
  - by injection Hrun as <- <-.
Qed.

Lemma check_region_sweep region st b st' :
  fields region ≠ ∅ → mines_min region = mines_max region →
  mines_min region = 0 →
  check_region region st = Ok (b, st') →
  b = true ∧ mines_left st' = mines_left st
  ∧ (∀ f, f ∈ fields region → reveal_type f = Some (field_type st' f)).
Proof.
  intros He Hc H0. rewrite check_region_eq.
  rewrite decide_False by naive_solver. rewrite decide_True by done.
  intros ([] & s1 & Hloop & [= <- <-])%bind_Ok.
  apply for_each_sweep in Hloop as (Hm & Hin & _).
  split; [done|]. split; [done|].
  intros f Hf. apply Hin. by apply elem_of_elements.
Qed.

Lemma check_region_sweep_total region st :
  fields region ≠ ∅ → mines_min region = mines_max region →
  mines_min region = 0 →
  (∀ f, f ∈ fields region → is_Some (reveal_type f)) →
  ∃ st', check_region region st = Ok (true, st').
Proof.
  intros He Hc H0 Hall. rewrite check_region_eq.
  rewrite decide_False by naive_solver. rewrite decide_True by done.
  destruct (for_each_sweep_total (elements (fields region)) st) as [st' Hst'].
  { intros f Hf. apply Hall. by apply elem_of_elements. }
  exists st'. unfold bind. by rewrite Hst'.
Qed.

Lemma check_region_mark region st :
  fields region ≠ ∅ → mines_min region = mines_max region →
  mines_min region = len_set (fields region) →
  ∃ st', check_region region st = Ok (true, st')
  ∧ mines_left st' = mines_left st - len_set (fields region)
  ∧ (∀ f, f ∈ fields region → field_type st' f = Mine)
  ∧ (∀ f, f ∉ fields region → field_type st' f = field_type st f).
Proof.
  intros He Hc Hn. rewrite check_region_eq.
  rewrite decide_False by naive_solver.
  assert (mines_min region ≠ 0) as H0.
  { rewrite Hn. by rewrite len_set_0. }
  rewrite decide_False by done. rewrite decide_True by done.
  destruct (for_each_mark (elements (fields region)) st)
    as (st' & Hrun & Hm & Hin & Hout).
  exists st'. unfold bind. rewrite Hrun. split; [done|].
  split; [by rewrite len_set_elements|]. split.
  - intros f Hf. apply Hin. by apply elem_of_elements.
  - intros f Hf. apply Hout. by rewrite elem_of_elements.
Qed.

(** ** The working list of [split_regions] *)

Lemma on_board_Ok {A} (m : M state A) s a s' :
  on_board m s = Ok (a, s') ↔ ∃ st', m s.2 = Ok (a, st') ∧ s' = (s.1, st').
Proof.
  unfold on_board. destruct (m s.2) as [[a' st']|e]; split.
  - intros [= <- <-]. eauto.
  - by intros (st2 & [= <- <-] & ->).
  - done.
  - by intros (? & ? & _).
Qed.

Lemma regions_get_Ok i s r s' :
  regions_get i s = Ok (r, s') ↔ s.1 !! i = Some r ∧ s' = s.
Proof.
  unfold regions_get. destruct (s.1 !! i) as [r'|]; split.
  - by intros [= <- <-].
  - by intros [[= <-] ->].
  - done.
  - by intros [? _].
Qed.

Lemma regions_set_Ok i r s u s' :
  regions_set i r s = Ok (u, s') ↔
  (i < length s.1)%nat ∧ s' = (<[i := r]> s.1, s.2).
Proof.
  unfold regions_set. destruct u. case_decide; split.
  - by intros [= <-].
  - by intros [_ ->].
  - done.
  - by intros [? _].
Qed.

Lemma regions_del_last_Ok s u s' :
  regions_del_last s = Ok (u, s') ↔ s.1 ≠ [] ∧ s' = (removelast s.1, s.2).
Proof.
  unfold regions_del_last. destruct u. destruct s.1 as [|r l] eqn:Hl; split.
  - done.
  - by intros [? _].
  - by intros [= <-].
  - by intros [_ ->].
Qed.

(** Writing D and E over A and B after appending C, then writing B and A
    back and deleting the last element, gives the list one started with. *)
Lemma restore_regions (l : list Region) ia ib A B C D E :
  l !! ia = Some A → l !! ib = Some B →
  removelast (<[ia := A]> (<[ib := B]> (<[ib := E]> (<[ia := D]> (l ++ [C])))))
  = l.
Proof.
  intros HA HB.
  assert (ia < length l)%nat as Hia by by eapply lookup_lt_Some.
  assert (ib < length l)%nat as Hib by by eapply lookup_lt_Some.
  rewrite list_insert_insert_eq.
  assert (<[ia := A]> (<[ib := B]> (<[ia := D]> (l ++ [C]))) = l ++ [C])
    as ->; [|apply removelast_last].
  destruct (decide (ia = ib)) as [->|Hne].
  - rewrite !list_insert_insert_eq.
    rewrite insert_app_l by done. by rewrite list_insert_id.
  - rewrite (list_insert_insert_ne _ ib ia) by done.
    rewrite list_insert_insert_eq.
    rewrite !insert_app_l by (by rewrite ?length_insert).
    by rewrite (list_insert_id l ib B), (list_insert_id l ia A).
Qed.

Lemma split_pair_untouched (rec : Z → M split_state bool) depth ia ib :
  (∀ s b s', rec (depth + 1) s = Ok (b, s') → leaves_untouched s b s') →
  ∀ s r s', split_pair rec depth ia ib s = Ok (r, s') →
    match r with
    | Some b => leaves_untouched s b s'
    | None => s' = s
    end.
Proof.
  intros Hrec s r s'. unfold split_pair.
  intros (A & s1 & [HA ->]%regions_get_Ok & H)%bind_Ok.
  apply bind_Ok in H as (B & s1 & [HB ->]%regions_get_Ok & H).
  destruct (split_bounds A B) as [[C D] E].
  case_bool_decide; [by injection H as <- <-|].
  destruct (_ && _); [by injection H as <- <-|].
  apply bind_Ok in H as (mC & s1 & (st1 & HC & ->)%on_board_Ok & H).
  apply bind_Ok in H as (mD & s2 & (st2 & HD & ->)%on_board_Ok & H).
  apply bind_Ok in H as (mE & s3 & (st3 & HE & ->)%on_board_Ok & H).
  simpl in *.
  destruct mC; [injection H as <- <-; by split|].
  destruct mD; [injection H as <- <-; by split|].
  destruct mE; [injection H as <- <-; by split|].
  apply check_region_false in HC as ->.
  apply check_region_false in HD as ->.
  apply check_region_false in HE as ->.
  simpl in H.
  apply bind_Ok in H as ([] & s1 & [= <-] & H).
  apply bind_Ok in H as ([] & s2 & [HlenA ->]%regions_set_Ok & H).
  apply bind_Ok in H as ([] & s3 & [HlenB ->]%regions_set_Ok & H).
  apply bind_Ok in H as (b & s4 & Hcall & H).
  apply Hrec in Hcall as [Hlist Hboard]. simpl in *.
  apply bind_Ok in H as ([] & s5 & [_ ->]%regions_set_Ok & H).
  apply bind_Ok in H as ([] & s6 & [_ ->]%regions_set_Ok & H).
  apply bind_Ok in H as ([] & s7 & [_ ->]%regions_del_last_Ok & H).
  simpl in *. rewrite Hlist in H.
  rewrite (restore_regions s.1 ia ib A B C D E HA HB) in H.
  destruct b; injection H as <- <-.
  - by split.
  - rewrite Hboard by done. by destruct s.
Qed.

Lemma split_regions_body_untouched (rec : Z → M split_state bool) depth :
  (∀ s b s', rec (depth + 1) s = Ok (b, s') → leaves_untouched s b s') →
  ∀ s b s', split_regions_body rec depth s = Ok (b, s') →
    leaves_untouched s b s'.
Proof.
  intros Hrec s b s'. unfold split_regions_body.
  case_bool_decide as Hd; [by intros [= <- <-]|].
  intros (n & s1 & [= <- <-] & H)%bind_Ok.
  apply bind_Ok in H as (r & s1 & Hloop & H).
  assert (match r with
          | Some v => leaves_untouched s v s1
          | None => s1 = s
          end) as Hr.
  { revert Hloop. apply (for_return_inv (λ t, t = s)); [|done].
    intros ia t r' t' _ -> (n' & s2 & [= <- <-] & Hinner)%bind_Ok.
    revert Hinner. apply (for_return_inv (λ t, t = s)); [|done].
    intros ib t r'' t'' _ -> Hpair.
    by apply (split_pair_untouched rec depth ia ib Hrec). }
  destruct r as [v|]; injection H as <- <-; [done|]. by subst s1.
Qed.

Lemma split_regions_calls_untouched calls depth s b s' :
  split_regions_calls calls depth s = Ok (b, s') → leaves_untouched s b s'.
Proof.
  revert depth s b s'. induction calls as [|calls IH]; intros depth s b s'.
  - by intros [= <- <-].
  - simpl. apply split_regions_body_untouched. intros t c t'. apply IH.
Qed.

(** ** The recursion of [split_regions] *)

(** The body calls [rec] at [depth + 1] and nowhere else. *)
Lemma split_pair_ext (rec1 rec2 : Z → M split_state bool) depth ia ib :
  (∀ s, rec1 (depth + 1) s = rec2 (depth + 1) s) →
  ∀ s, split_pair rec1 depth ia ib s = split_pair rec2 depth ia ib s.
Proof.
  intros Hrec s. unfold split_pair.
  apply bind_ext; intros A s1. apply bind_ext; intros B s2.
  destruct (split_bounds A B) as [[C D] E].
  case_bool_decide; [done|]. destruct (_ && _); [done|].
  apply bind_ext; intros mC s3. apply bind_ext; intros mD s4.
  apply bind_ext; intros mE s5.
  destruct (_ || _); [done|].
  apply bind_ext; intros [] s6. apply bind_ext; intros [] s7.
  apply bind_ext; intros [] s8.
  unfold bind at 1 5. by rewrite Hrec.
Qed.

Lemma split_regions_body_ext (rec1 rec2 : Z → M split_state bool) depth :
  (∀ s, rec1 (depth + 1) s = rec2 (depth + 1) s) →
  ∀ s, split_regions_body rec1 depth s = split_regions_body rec2 depth s.
Proof.
  intros Hrec s. unfold split_regions_body. case_bool_decide; [done|].
  apply bind_ext; intros n s1. unfold bind at 1 3.
  rewrite (for_return_ext _ _
    (λ regionA_index,
       bind regions_len (λ n',
         for_return (seq (regionA_index + 1) (n' - (regionA_index + 1)))
           (λ regionB_index,
              split_pair rec2 depth regionA_index regionB_index)))); [done|].
  intros ia s2. apply bind_ext; intros n' s3.
  apply for_return_ext. intros ib s4. by apply split_pair_ext.
Qed.

Lemma split_regions_at_bound rec depth s :
  MAX_RECURSION_DEPTH <= depth → split_regions_body rec depth s = Ok (false, s).
Proof.
  intros H. unfold split_regions_body.
  by rewrite bool_decide_eq_true_2 by lia.
Qed.

(** Any number of calls beyond the distance to the bound gives the same
    result: the recursion ends by the test on [depth]. *)
Lemma split_regions_calls_enough calls depth s :
  (Z.to_nat (MAX_RECURSION_DEPTH - depth) < calls)%nat →
  split_regions_calls calls depth s = split_regions depth s.
Proof.
  revert depth s. induction calls as [|calls IH]; intros depth s Hcalls;
    [lia|].
  unfold split_regions. simpl.
  destruct (decide (MAX_RECURSION_DEPTH <= depth)) as [Hd|Hd].
  { by rewrite !split_regions_at_bound. }
  apply split_regions_body_ext. intros t.
  rewrite IH by lia.
  replace (Z.to_nat (MAX_RECURSION_DEPTH - depth))
    with (S (Z.to_nat (MAX_RECURSION_DEPTH - (depth + 1)))) by lia.
  done.
Qed.

(** [split_regions] satisfies the recursive equation of the source. *)
Lemma split_regions_unfold depth s :
  split_regions depth s = split_regions_body split_regions depth s.
Proof.
  unfold split_regions at 1. simpl.
  destruct (decide (MAX_RECURSION_DEPTH <= depth)) as [Hd|Hd].
  { by rewrite !split_regions_at_bound. }
  apply split_regions_body_ext. intros t.
  apply split_regions_calls_enough. lia.
Qed.

(** ** The bounds of a split *)

Lemma mines_among_split (mines a b : gset Field) :
  mines_among mines a
  = mines_among mines (a ∩ b) + mines_among mines (a ∖ b).
Proof.
  unfold mines_among, len_set. rewrite <- Nat2Z.inj_add. f_equal.
  rewrite <- size_union by set_solver. f_equal.
  apply set_eq. intros x. destruct (decide (x ∈ b)); set_solver.
Qed.

Lemma mines_among_le (mines s : gset Field) :
  0 <= mines_among mines s <= len_set s.
Proof.
  unfold mines_among, len_set. split; [lia|].
  apply inj_le, subseteq_size. set_solver.
Qed.

Lemma inter_comm_fields (a b : gset Field) : a ∩ b = b ∩ a.
Proof. set_solver. Qed.

(** The bounds of C, D and E hold for every configuration for which those
    of A and B hold. *)
Lemma split_bounds_within (mines : gset Field) (A B : Region) :
  within_bounds mines A → within_bounds mines B →
  within_bounds mines (split_bounds A B).1.1
  ∧ within_bounds mines (split_bounds A B).1.2
  ∧ within_bounds mines (split_bounds A B).2.
Proof.
  unfold within_bounds, split_bounds; simpl. intros HA HB.
  pose proof (mines_among_split mines (fields A) (fields B)) as HsA.
  pose proof (mines_among_split mines (fields B) (fields A)) as HsB.
  rewrite (inter_comm_fields (fields B) (fields A)) in HsB.
  pose proof (mines_among_le mines (fields A ∩ fields B)) as HC.
  pose proof (mines_among_le mines (fields A ∖ fields B)) as HD.
  pose proof (mines_among_le mines (fields B ∖ fields A)) as HE.
  lia.
Qed.

(** The lower bounds of C, D and E are never negative. *)
Lemma split_bounds_min_nonneg (A B : Region) :
  0 <= mines_min (split_bounds A B).1.1
  ∧ 0 <= mines_min (split_bounds A B).1.2
  ∧ 0 <= mines_min (split_bounds A B).2.
Proof. unfold split_bounds; simpl. lia. Qed.

(** A region whose bounds hold for some configuration and whose lower
    bound is not negative has ordered bounds, the lower one at most the
    number of fields. *)
Lemma within_bounds_ordered (mines : gset Field) (r : Region) :
  within_bounds mines r → 0 <= mines_min r →
  0 <= mines_min r ∧ mines_min r <= mines_max r
  ∧ mines_min r <= len_set (fields r).
Proof.
  unfold within_bounds. intros H H0.
  pose proof (mines_among_le mines (fields r)). lia.
Qed.

(** ** [find_adjacent_type] *)

Lemma elem_of_range a b x : x ∈ range a b ↔ a <= x < b.
Proof. unfold range. rewrite elem_of_seqZ. lia. Qed.

Lemma elem_of_foldl_add {A} (l : list A) (test : A → bool) (g : A → Field)
    (acc : gset Field) (f : Field) :
  f ∈ foldl (λ acc a, if test a then acc ∪ {[ g a ]} else acc) acc l
  ↔ f ∈ acc ∨ ∃ a, a ∈ l ∧ test a = true ∧ f = g a.
Proof.
  revert acc. induction l as [|a l IH]; intros acc; simpl.
  - split; [by left|]. intros [?|(a & ?%elem_of_nil & _)]; done.
  - rewrite IH. split.
    + intros [Hacc|(a' & Ha' & Ht & ->)].
      * destruct (test a) eqn:Ht; [|by left].
        apply elem_of_union in Hacc as [?|Hf]; [by left|].
        apply elem_of_singleton in Hf as ->.
        right. exists a. split; [by left|done].
      * right. exists a'. split; [by right|done].
    + intros [Hacc|(a' & Ha' & Ht & ->)].
      * left. destruct (test a); [|done]. apply elem_of_union. by left.
      * apply elem_of_cons in Ha' as [->|Ha'].
        -- left. rewrite Ht. apply elem_of_union. right.
           by apply elem_of_singleton.
        -- right. by exists a'.
Qed.

Lemma elem_of_foldl_foldl_add (xs ys : list Z) (test : Z → Z → bool)
    (acc : gset Field) (f : Field) :
  f ∈ foldl (λ acc sx,
         foldl (λ acc sy, if test sx sy then acc ∪ {[ (sx, sy) ]} else acc)
               acc ys) acc xs
  ↔ f ∈ acc ∨ (f.1 ∈ xs ∧ f.2 ∈ ys ∧ test f.1 f.2 = true).
Proof.
  revert acc. induction xs as [|sx xs IH]; intros acc; simpl.
  - split; [by left|]. intros [?|[?%elem_of_nil _]]; done.
  - rewrite IH. rewrite (elem_of_foldl_add ys (test sx) (λ sy, (sx, sy))).
    destruct f as [fx fy]; simpl. split.
    + intros [[?|(sy & Hsy & Ht & [= -> ->])]|(Hx & Hy & Ht)].
      * by left.
      * right. split; [by left|done].
      * right. split; [by right|done].
    + intros [?|(Hx & Hy & Ht)]; [by left; left|].
      apply elem_of_cons in Hx as [->|Hx].
      * left. right. by exists fy.
      * right. done.
Qed.

(** [find_adjacent_type] returns the adjacent cells of the given type. *)
Lemma elem_of_find_adjacent_type x y t st f :
  f ∈ find_adjacent_type x y t st ↔ adjacent x y f ∧ field_type st f = t.
Proof.
  unfold find_adjacent_type.
  rewrite (elem_of_foldl_foldl_add _ _
    (λ scan_x scan_y,
       negb (bool_decide (scan_x = x) && bool_decide (scan_y = y))
       && bool_decide (field_type st (scan_x, scan_y) = t))).
  rewrite !elem_of_range. unfold adjacent, in_grid.
  destruct f as [fx fy]; simpl.
  rewrite andb_true_iff, negb_true_iff, andb_false_iff.
  rewrite !bool_decide_eq_false, bool_decide_eq_true.
  split.
  - intros [?%elem_of_empty|(Hx & Hy & Hne & Ht)]; [done|].
    split; [|done]. repeat split; try lia.
    intros [= -> ->]. by destruct Hne.
  - intros [(Hg & Hx & Hy & Hne) Ht]. right.
    repeat split; try lia; [|done].
    destruct (decide (fx = x)) as [->|]; [|by left].
    right. intros ->. done.
Qed.


(** ** [find_regions] *)

(** The two nested loops visit the cells in [scan_order]. *)
Lemma find_regions_scan s : find_regions s = find_regions_upto scan_order s.
Proof.
  unfold find_regions, find_regions_upto, scan_order.
  generalize (false, @nil Region) as acc. revert s.
  induction (range 0 height) as [|y ys IH]; intros s acc; simpl; [done|].
  rewrite for_acc_app. apply eq_sym.
  unfold bind at 1 2. rewrite for_acc_fmap. simpl.
  destruct (for_acc (range 0 width) _ acc s) as [[acc1 s1]|e]; [|done].
  apply eq_sym, IH.
Qed.

Lemma existsb_fields_false (regions : list Region) (s : gset Field) :
  existsb (λ other, bool_decide (s = fields other)) regions = false
  ↔ ∀ other, other ∈ regions → fields other ≠ s.
Proof.
  induction regions as [|r regions IH]; simpl.
  - split; [|done]. by intros _ other ?%elem_of_nil.
  - rewrite orb_false_iff, IH, bool_decide_eq_false. split.
    + intros [Hr Hall] other [->|?]%elem_of_cons; [congruence | by apply Hall].
    + intros Hall. split.
      * intros ->. by apply (Hall r); [left|].
      * intros other ?. apply Hall. by right.
Qed.

(** What [find_regions] does at one cell: nothing, or it builds the
    region of the cell, runs [check_region] on it and stores it. *)
Lemma find_regions_cell_cases x y b regions st :
  (¬ extractable st x y regions
   ∧ find_regions_cell x y (b, regions) st = Ok ((b, regions), st))
  ∨ (extractable st x y regions
     ∧ find_regions_cell x y (b, regions) st
       = bind (check_region (region_of st x y))
           (λ modified, ret (b || modified, regions ++ [region_of st x y])) st).
Proof.
  unfold extractable, numbered.
  destruct (bool_decide (field_type st (x, y) = Mine)
            || bool_decide (field_type st (x, y) = Unknown)) eqn:Ht.
  { left. split; [by intros [? _]|].
    unfold find_regions_cell. unfold bind at 1. unfold gets at 1.
    cbv beta iota. by rewrite Ht. }
  destruct (bool_decide (len_set (find_adjacent_type x y Unknown st) = 0))
    eqn:HU.
  { apply bool_decide_eq_true in HU. left. split.
    - intros (_ & HU' & _). by apply len_set_0 in HU.
    - unfold find_regions_cell. unfold bind at 1. unfold gets at 1.
      cbv beta iota. rewrite Ht. unfold bind at 1. unfold gets at 1.
      cbv beta iota. by rewrite bool_decide_eq_true_2. }
  apply bool_decide_eq_false in HU.
  destruct (existsb (λ other_region,
              bool_decide (find_adjacent_type x y Unknown st
                           = fields other_region)) regions) eqn:Hdup.
  { left. split.
    - intros (_ & _ & Hall). apply existsb_fields_false in Hall. congruence.
    - unfold find_regions_cell. unfold bind at 1. unfold gets at 1.
      cbv beta iota. rewrite Ht. unfold bind at 1. unfold gets at 1.
      cbv beta iota. rewrite bool_decide_eq_false_2 by done.
      unfold bind at 1. unfold gets at 1. cbv beta iota zeta.
      change (existsb _ regions)
        with (existsb (λ other_region,
                bool_decide (find_adjacent_type x y Unknown st
                             = fields other_region)) regions).
      by rewrite Hdup. }
  right. split.
  - split; [done|]. split; [by rewrite <- len_set_0|].
    by apply existsb_fields_false.
  - unfold find_regions_cell. unfold bind at 1. unfold gets at 1.
    cbv beta iota. rewrite Ht. unfold bind at 1. unfold gets at 1.
    cbv beta iota. rewrite bool_decide_eq_false_2 by done.
    unfold bind at 1. unfold gets at 1. cbv beta iota zeta.
    change (existsb _ regions)
      with (existsb (λ other_region,
              bool_decide (find_adjacent_type x y Unknown st
                           = fields other_region)) regions).
    by rewrite Hdup.
Qed.

Lemma find_regions_cell_Ok x y b regions st b' regions' st' :
  find_regions_cell x y (b, regions) st = Ok ((b', regions'), st') →
  (¬ extractable st x y regions ∧ b' = b ∧ regions' = regions ∧ st' = st)
  ∨ (extractable st x y regions
     ∧ regions' = regions ++ [region_of st x y]
     ∧ ∃ modified, check_region (region_of st x y) st = Ok (modified, st')
                   ∧ b' = b || modified).
Proof.
  destruct (find_regions_cell_cases x y b regions st) as [[Hnot ->]|[Hex ->]].
  - intros Heq. simplify_eq. by left.
  - intros (modified & s1 & Hcheck & Heq)%bind_Ok. unfold ret in Heq.
    simplify_eq. right. split; [done|]. split; [done|]. by exists modified.
Qed.

Lemma find_regions_upto_snoc cells x y st b' regions' st' :
  find_regions_upto (cells ++ [(x, y)]) st = Ok ((b', regions'), st') ↔
  ∃ b regions s1,
    find_regions_upto cells st = Ok ((b, regions), s1)
    ∧ find_regions_cell x y (b, regions) s1 = Ok ((b', regions'), st').
Proof.
  unfold find_regions_upto. rewrite for_acc_app, bind_Ok. split.
  - intros ([b regions] & s1 & Hcells & Hcell).
    rewrite for_acc_singleton in Hcell. by exists b, regions, s1.
  - intros (b & regions & s1 & Hcells & Hcell).
    exists (b, regions), s1. by rewrite for_acc_singleton.
Qed.

(** The regions collected over a stretch of cells are those of the cells
    that were extractable when the scan reached them. *)
Lemma find_regions_upto_extracts cells st b regions st' :
  find_regions_upto cells st = Ok ((b, regions), st') →
  ∀ r, r ∈ regions ↔
    ∃ before x y after b1 regions1 st1,
      cells = before ++ (x, y) :: after
      ∧ find_regions_upto before st = Ok ((b1, regions1), st1)
      ∧ extractable st1 x y regions1
      ∧ r = region_of st1 x y.
Proof.
  revert b regions st'.
  induction cells as [|[x y] cells IH] using rev_ind; intros b regions st'.
  - intros Heq r. unfold find_regions_upto in Heq. simpl in Heq.
    unfold ret in Heq. simplify_eq.
    split; [by intros ?%elem_of_nil|].
    intros (before & x & y & after & _ & _ & _ & Habs & _).
    by destruct before.
  - intros (b0 & regions0 & s0 & Hcells & Hcell)%find_regions_upto_snoc r.
    specialize (IH _ _ _ Hcells).
    assert (∀ r, r ∈ regions0 → r ∈ regions) as Hmono.
    { intros r0 Hr0.
      apply find_regions_cell_Ok in Hcell as [(_ & _ & -> & _)|(_ & -> & _)];
        [done|]. apply elem_of_app. by left. }
    split.
    + intros Hr.
      assert (r ∈ regions0 ∨ (extractable s0 x y regions0
                              ∧ r = region_of s0 x y)) as [Hold|[Hex ->]].
      { apply find_regions_cell_Ok in Hcell
          as [(_ & _ & -> & _)|(Hex & -> & _)]; [by left|].
        apply elem_of_app in Hr as [?|Hr%list_elem_of_singleton]; [by left|].
        subst r. by right. }
      * apply IH in Hold
          as (before & x' & y' & after & b1 & regions1 & st1 & -> & Hrun & Hex & ->).
        exists before, x', y', (after ++ [(x, y)]), b1, regions1, st1.
        split; [by rewrite <- app_assoc|done].
      * exists cells, x, y, [], b0, regions0, s0. done.
    + intros (before & x' & y' & after & b1 & regions1 & st1
              & Hsplit & Hrun & Hex & ->).
      destruct after as [|c after _] using rev_ind.
      * apply app_inj_tail in Hsplit as [<- [= <- <-]].
        rewrite Hcells in Hrun. simplify_eq.
        apply find_regions_cell_Ok in Hcell
          as [(Hnot & _)|(_ & -> & _)]; [done|].
        apply elem_of_app. right. by apply list_elem_of_singleton.
      * rewrite app_comm_cons, app_assoc in Hsplit.
        apply app_inj_tail in Hsplit as [-> _].
        apply Hmono, IH.
        by exists before, x', y', after, b1, regions1, st1.
Qed.

(** ** Boards that agree with a mine configuration *)

Lemma elem_of_neighbours x y f : f ∈ neighbours x y ↔ adjacent x y f.
Proof.
  unfold neighbours. rewrite elem_of_list_to_set, list_elem_of_filter.
  split; [by intros [? _]|]. intros Hadj. split; [done|].
  destruct f as [fx fy]. apply list_elem_of_bind. exists fx.
  destruct Hadj as (_ & Hx & Hy & _); simpl in *.
  split; [|by apply elem_of_range; lia].
  apply list_elem_of_fmap. exists fy. split; [done|].
  apply elem_of_range. lia.
Qed.

Lemma numbered_cases t :
  numbered t = true ↔ t ≠ Mine ∧ t ≠ Unknown.
Proof. by destruct t; unfold numbered; simpl; split; try done; intros []. Qed.

(** Among the cells around a numbered cell of a consistent board, the
    mines not yet marked are among the unknown ones. *)
Lemma region_of_within mines st x y :
  consistent mines st → in_grid (x, y) →
  numbered (field_type st (x, y)) = true →
  mines_min (region_of st x y)
  = mines_among mines (fields (region_of st x y)).
Proof.
  intros Hcons Hgrid Hnum. unfold region_of; simpl.
  destruct (Hcons (x, y) Hgrid) as [_ Hcount].
  destruct (Hcount Hnum) as [_ ->]. simpl.
  set (N := neighbours x y).
  set (U := find_adjacent_type x y Unknown st).
  set (Mi := find_adjacent_type x y Mine st).
  rewrite (mines_among_split mines N U).
  assert (N ∩ U = U) as ->.
  { apply set_eq. intros f. rewrite elem_of_intersection.
    unfold N, U. rewrite elem_of_neighbours, elem_of_find_adjacent_type.
    naive_solver. }
  rewrite (mines_among_split mines (N ∖ U) Mi).
  assert (mines ∩ ((N ∖ U) ∩ Mi) = Mi) as HMi.
  { apply set_eq. intros f.
    rewrite !elem_of_intersection, elem_of_difference.
    unfold N, U, Mi. rewrite elem_of_neighbours, !elem_of_find_adjacent_type.
    split; [naive_solver|]. intros [Hadj Ht].
    split; [by apply (Hcons f); [apply Hadj|]|].
    split; [|done]. split; [done|]. intros [_ Ht']. congruence. }
  assert (mines ∩ ((N ∖ U) ∖ Mi) = ∅) as HRest.
  { apply set_eq. intros f.
    rewrite elem_of_intersection, !elem_of_difference.
    unfold N, U, Mi. rewrite elem_of_neighbours, !elem_of_find_adjacent_type.
    split; [|by intros ?%elem_of_empty].
    intros (Hm & [Hadj HU] & HM). exfalso.
    destruct (Hcons f) as [_ Hnumf]; [apply Hadj|].
    destruct Hnumf as [Hnot _]; [|done].
    apply numbered_cases. split; intros Ht; [apply HM|apply HU]; done. }
  unfold mines_among at 2 3. rewrite HMi, HRest.
  assert (len_set ∅ = 0) as -> by done. lia.
Qed.

(** On a consistent board the region of a numbered cell satisfies the
    bound invariant, and its bounds hold for the configuration. *)
Lemma region_of_bounds mines st x y :
  consistent mines st → in_grid (x, y) →
  numbered (field_type st (x, y)) = true →
  bounds_ok (region_of st x y) ∧ within_bounds mines (region_of st x y).
Proof.
  intros Hcons Hgrid Hnum.
  pose proof (region_of_within mines st x y Hcons Hgrid Hnum) as Hmin.
  pose proof (mines_among_le mines (fields (region_of st x y))) as Hle.
  unfold bounds_ok, within_bounds.
  assert (mines_max (region_of st x y) = mines_min (region_of st x y))
    as -> by done.
  lia.
Qed.

Lemma consistent_set_type mines st f t :
  consistent mines st →
  (in_grid f → t = Mine → f ∈ mines) →
  (in_grid f → numbered t = true →
     (f ∉ mines) ∧ FieldType_int t = mines_among mines (neighbours f.1 f.2)) →
  consistent mines (set_type f t st).
Proof.
  intros Hcons HM HN g Hg. rewrite field_type_set_type.
  destruct (decide (f = g)) as [->|Hne]; [|by apply Hcons].
  split; auto.
Qed.

Lemma sweep_field_consistent mines f st st' :
  truthful mines → consistent mines st →
  sweep_field f st = Ok (tt, st') → in_grid f → consistent mines st'.
Proof.
  intros Htruth Hcons (t & Ht & ->)%sweep_field_Ok Hgrid.
  specialize (Htruth f Hgrid). unfold reveal_type in Ht.
  destruct (sweep_cell minefield f.1 f.2) as [n|]; [|done].
  destruct Htruth as (Hnot & Hn & Hn8).
  pose proof (mines_among_le mines (neighbours f.1 f.2)) as [Hn0 _].
  apply consistent_set_type; [done| |].
  - intros _ ->.
    destruct (FieldType_of_int_numbered n Mine) as [_ ?]; [lia|done|done].
  - intros _ _. split; [done|]. rewrite <- Hn.
    apply (FieldType_of_int_numbered n t); [lia|done].
Qed.

Lemma mark_mine_consistent mines f st st' :
  consistent mines st → mark_mine f st = Ok (tt, st') → f ∈ mines →
  consistent mines st'.
Proof.
  intros Hcons [= <-] Hf g Hg.
  change (field_type (decr_mines_left (set_type f Mine st)) g)
    with (field_type (set_type f Mine st) g).
  by apply consistent_set_type.
Qed.

(** [check_region] keeps the board consistent when the bounds of the
    region hold for the configuration. *)
Lemma check_region_consistent mines region st b st' :
  truthful mines → consistent mines st →
  within_bounds mines region →
  (∀ f, f ∈ fields region → in_grid f) →
  check_region region st = Ok (b, st') → consistent mines st'.
Proof.
  intros Htruth Hcons Hwithin Hgrid. rewrite check_region_eq.
  repeat case_decide.
  - by intros [= _ <-].
  - intros ([] & s1 & Hloop & [= _ <-])%bind_Ok. revert Hloop.
    apply (for_each_inv (consistent mines)); [|done].
    intros f s s' Hf Hs Hsweep.
    apply (sweep_field_consistent mines f s s'); try done.
    by apply Hgrid, elem_of_elements.
  - intros ([] & s1 & Hloop & [= _ <-])%bind_Ok. revert Hloop.
    apply (for_each_inv (consistent mines)); [|done].
    intros f s s' Hf Hs Hmark.
    apply (mark_mine_consistent mines f s s'); try done.
    assert (mines ∩ fields region = fields region) as Hall.
    { apply set_subseteq_size_eq; [set_solver|].
      destruct (decide (mines_min region = mines_max region)); [|naive_solver].
      unfold within_bounds, mines_among, len_set in *. lia. }
    apply elem_of_elements in Hf. set_solver.
  - by intros [= _ <-].
Qed.

Lemma elem_of_scan_order c : c ∈ scan_order ↔ in_grid c.
Proof.
  unfold scan_order, in_grid. rewrite list_elem_of_bind. split.
  - intros (y & (x & -> & Hx)%list_elem_of_fmap & Hy).
    apply elem_of_range in Hx, Hy. simpl. lia.
  - intros [Hx Hy]. exists c.2. split; [|apply elem_of_range; lia].
    apply list_elem_of_fmap. exists c.1. split; [by destruct c|].
    apply elem_of_range. lia.
Qed.

(** On a consistent board with a truthful mine field, [find_regions]
    collects regions that satisfy the bound invariant and hold for the
    configuration, and leaves a consistent board. *)
Lemma find_regions_upto_sound mines cells st b regions st' :
  truthful mines → consistent mines st →
  (∀ c, c ∈ cells → in_grid c) →
  find_regions_upto cells st = Ok ((b, regions), st') →
  consistent mines st'
  ∧ ∀ r, r ∈ regions →
      bounds_ok r ∧ mines_min r = mines_max r ∧ within_bounds mines r.
Proof.
  intros Htruth Hcons Hcells Hrun.
  pose (I := λ (acc : bool * list Region) (s : state),
          consistent mines s
          ∧ ∀ r, r ∈ acc.2 →
              bounds_ok r ∧ mines_min r = mines_max r ∧ within_bounds mines r).
  change (I (b, regions) st').
  revert Hrun. unfold find_regions_upto. apply (for_acc_inv I).
  - intros [x y] [b0 regions0] s [b1 regions1] s1 Hc [Hs Hregs] Hcell.
    simpl in Hcell.
    apply find_regions_cell_Ok in Hcell
      as [(_ & -> & -> & ->)|(Hex & -> & modified & Hcheck & ->)]; [done|].
    destruct Hex as (Hnum & _ & _).
    destruct (region_of_bounds mines s x y Hs (Hcells _ Hc) Hnum)
      as [Hbounds Hwithin].
    split.
    + apply (check_region_consistent mines (region_of s x y) s modified s1);
        try done.
      intros f [Hadj _]%elem_of_find_adjacent_type. apply Hadj.
    + intros r [Hr|Hr%list_elem_of_singleton]%elem_of_app; [by apply Hregs|].
      by subst r.
  - split; [done|]. by intros r ?%elem_of_nil.
Qed.

(** A pass of [find_regions] that reports no modification has made none. *)
Lemma find_regions_upto_unmodified cells st regions st' :
  find_regions_upto cells st = Ok ((false, regions), st') → st' = st.
Proof.
  intros Hrun.
  pose (I := λ (acc : bool * list Region) (s : state),
          acc.1 = false → s = st).
  assert (I (false, regions) st') as HI; [|by apply HI].
  revert Hrun. unfold find_regions_upto. apply (for_acc_inv I); [|done].
  intros [x y] [b0 regions0] s [b1 regions1] s1 _ Hs Hcell. simpl in Hcell.
  apply find_regions_cell_Ok in Hcell
    as [(_ & -> & -> & ->)|(_ & -> & modified & Hcheck & ->)]; [done|].
  unfold I; simpl. intros [-> ->]%orb_false_iff.
  apply check_region_false in Hcheck as ->. by apply Hs.
Qed.

Lemma find_regions_unmodified st regions st' :
  find_regions st = Ok ((false, regions), st') → st' = st.
Proof. rewrite find_regions_scan. apply find_regions_upto_unmodified. Qed.

(** ** The main loop *)

Lemma elem_of_foldl_app {A} (l : list A) (test : A → bool) (g : A → Field)
    (acc : list Field) (f : Field) :
  f ∈ foldl (λ acc a, if test a then acc ++ [g a] else acc) acc l
  ↔ f ∈ acc ∨ ∃ a, a ∈ l ∧ test a = true ∧ f = g a.
Proof.
  revert acc. induction l as [|a l IH]; intros acc; simpl.
  - split; [by left|]. intros [?|(a & ?%elem_of_nil & _)]; done.
  - rewrite IH. split.
    + intros [Hacc|(a' & Ha' & Ht & ->)].
      * destruct (test a) eqn:Ht; [|by left].
        apply elem_of_app in Hacc as [?|Hf]; [by left|].
        apply list_elem_of_singleton in Hf as ->.
        right. exists a. split; [by left|done].
      * right. exists a'. split; [by right|done].
    + intros [Hacc|(a' & Ha' & Ht & ->)].
      * left. destruct (test a); [|done]. apply elem_of_app. by left.
      * apply elem_of_cons in Ha' as [->|Ha'].
        -- left. rewrite Ht. apply elem_of_app. right.
           by apply list_elem_of_singleton.
        -- right. by exists a'.
Qed.

Lemma elem_of_foldl_foldl_app (ys xs : list Z) (test : Z → Z → bool)
    (acc : list Field) (f : Field) :
  f ∈ foldl (λ acc y,
         foldl (λ acc x, if test x y then acc ++ [(x, y)] else acc) acc xs)
         acc ys
  ↔ f ∈ acc ∨ (f.1 ∈ xs ∧ f.2 ∈ ys ∧ test f.1 f.2 = true).
Proof.
  revert acc. induction ys as [|y ys IH]; intros acc; simpl.
  - split; [by left|]. intros [?|(_ & ?%elem_of_nil & _)]; done.
  - rewrite IH.
    rewrite (elem_of_foldl_app xs (λ x, test x y) (λ x, (x, y))).
    destruct f as [fx fy]; simpl. split.
    + intros [[?|(x & Hx & Ht & [= -> ->])]|(Hx & Hy & Ht)].
      * by left.
      * right. split; [done|]. split; [by left|done].
      * right. split; [done|]. split; [by right|done].
    + intros [?|(Hx & Hy & Ht)]; [by left; left|].
      apply elem_of_cons in Hy as [->|Hy].
      * left. right. by exists fx.
      * right. done.
Qed.

(** [find_remaining] lists the unknown cells of the board. *)
Lemma elem_of_find_remaining st f :
  f ∈ find_remaining st ↔ in_grid f ∧ field_type st f = Unknown.
Proof.
  unfold find_remaining.
  rewrite (elem_of_foldl_foldl_app _ _
    (λ x y, bool_decide (field_type st (x, y) = Unknown))).
  rewrite !elem_of_range, bool_decide_eq_true. unfold in_grid.
  destruct f as [fx fy]; simpl. split.
  - intros [?%elem_of_nil|(Hx & Hy & Ht)]; [done|]. split; [lia|done].
  - intros [[Hx Hy] Ht]. right. split; [lia|]. split; [lia|done].
Qed.

Lemma with_regions_Ok {A} regions (m : M split_state A) st a st' :
  with_regions regions m st = Ok (a, st') ↔
  ∃ regions', m (regions, st) = Ok (a, (regions', st')).
Proof.
  unfold with_regions. destruct (m (regions, st)) as [[a' [l' s']]|e]; split.
  - intros [= <- <-]. by exists l'.
  - by intros (l2 & [= <- <- <-]).
  - done.
  - by intros (? & ?).
Qed.

(** The part of an iteration after [find_regions] and [split_regions]
    reported no modification. *)
Lemma main_iteration_stable randint st regions st1 s2 :
  find_regions st = Ok ((false, regions), st1) →
  split_regions 0 (regions, st1) = Ok (false, s2) →
  s2 = (regions, st)
  ∧ main_iteration randint st =
    bind (gets find_remaining) (λ remaining,
      bind (gets mines_left) (λ left,
        bind (if bool_decide (left = 0)
              then bind (for_each remaining sweep_field) (λ _, ret [])
              else ret remaining) (λ remaining,
          if bool_decide (length remaining = 0%nat)
          then ret Break
          else
            match list_index remaining
                    (randint 0 (Z.of_nat (length remaining) - 1)) with
            | None => raise IndexError
            | Some field => bind (sweep_field field) (λ _, ret Continue)
            end))) st.
Proof.
  intros Hfind Hsplit.
  pose proof (find_regions_unmodified _ _ _ Hfind) as ->.
  destruct s2 as [regions2 st2].
  destruct (split_regions_calls_untouched _ _ _ _ _ Hsplit) as [Hl Hb].
  simpl in Hl, Hb. subst regions2. rewrite Hb by done. split; [done|].
  unfold main_iteration. unfold bind at 1. rewrite Hfind.
  unfold bind at 1. unfold with_regions. rewrite Hsplit. simpl.
  by rewrite Hb.
Qed.

(** ** Where an exception comes from *)

(** [sweep_field] raises [HitMine] on the cells for which the
    mine field answers [WasMine], and on no other. *)
Lemma sweep_field_explodes f st :
  sweep_field f st = Raise HitMine ↔ sweep_cell minefield f.1 f.2 = WasMine.
Proof.
  rewrite sweep_field_eq. destruct (sweep_cell minefield _ _) as [n|]; [|done].
  by destruct (FieldType_of_int n).
Qed.

(** ** The deductions are sound *)

Lemma elem_of_marked st f :
  f ∈ marked st ↔ in_grid f ∧ field_type st f = Mine.
Proof.
  unfold marked.
  rewrite elem_of_list_to_set, list_elem_of_filter, elem_of_scan_order.
  naive_solver.
Qed.

(** A truthful mine field reports the cells without a mine safe. *)
Lemma truthful_safe mines f :
  truthful mines → in_grid f → f ∉ mines →
  safe_cell f = true.
Proof.
  intros Htruth Hgrid Hf. specialize (Htruth f Hgrid). unfold safe_cell.
  destruct (sweep_cell minefield f.1 f.2) as [n|]; [|done].
  destruct Htruth as (_ & Hn & Hn8).
  pose proof (mines_among_le mines (neighbours f.1 f.2)).
  apply bool_decide_eq_true. lia.
Qed.

Lemma truthful_mine mines f :
  truthful mines → in_grid f → f ∈ mines →
  sweep_cell minefield f.1 f.2 = WasMine.
Proof.
  intros Htruth Hgrid Hf. specialize (Htruth f Hgrid).
  destruct (sweep_cell minefield f.1 f.2) as [n|]; [|done].
  by destruct Htruth as (Hnot & _).
Qed.

(** With bounds that hold for the configuration of a truthful mine field,
    [check_region] does not raise: the cells it reveals hold no mine. *)
Lemma check_region_returns mines region st :
  truthful mines → within_bounds mines region →
  (∀ f, f ∈ fields region → in_grid f) →
  ∃ b st', check_region region st = Ok (b, st').
Proof.
  intros Htruth Hwithin Hgrid.
  destruct (decide (fields region = ∅ ∨ mines_min region ≠ mines_max region
                    ∨ (mines_min region ≠ 0
                       ∧ mines_min region ≠ len_set (fields region))))
    as [Hnoop|Hact].
  { exists false, st. by apply check_region_noop. }
  assert (fields region ≠ ∅) as He by naive_solver.
  assert (mines_min region = mines_max region) as Hc.
  { destruct (decide (mines_min region = mines_max region)); naive_solver. }
  destruct (decide (mines_min region = 0)) as [H0|H0].
  - destruct (check_region_sweep_total region st He Hc H0) as [st' Hrun];
      [|by exists true, st'].
    intros f Hf.
    assert (f ∉ mines) as Hsafe.
    { intros Hm. unfold within_bounds, mines_among in Hwithin.
      assert (mines ∩ fields region = ∅) as Hempty.
      { apply len_set_0. pose proof (mines_among_le mines (fields region)).
        unfold mines_among in *. lia. }
      set_solver. }
    destruct (safe_cell_reveal f (truthful_safe mines f Htruth (Hgrid f Hf) Hsafe))
      as (t & -> & _).
    by eexists.
  - destruct (check_region_mark region st He Hc) as (st' & Hrun & _).
    { destruct (decide (mines_min region = len_set (fields region)));
        naive_solver. }
    by exists true, st'.
Qed.

Lemma marked_unchanged st st' :
  (∀ f, in_grid f → field_type st' f = Mine ↔ field_type st f = Mine) →
  marked st' = marked st.
Proof.
  intros H. apply set_eq. intros f. rewrite !elem_of_marked. naive_solver.
Qed.

(** [check_region] maintains the solver's invariant, and changes unknown
    cells only. *)
Lemma check_region_invariant mines region st b st' :
  truthful mines → solver_invariant mines st → sound_region mines st region →
  check_region region st = Ok (b, st') →
  solver_invariant mines st'.
Proof.
  intros Htruth [Hcons Hleft] [Hwithin Hunknown] Hrun.
  split.
  { apply (check_region_consistent mines region st b st'); try done.
    intros f Hf. by apply Hunknown. }
  destruct (decide (fields region = ∅ ∨ mines_min region ≠ mines_max region
                    ∨ (mines_min region ≠ 0
                       ∧ mines_min region ≠ len_set (fields region))))
    as [Hnoop|Hact].
  { rewrite (check_region_noop region st Hnoop) in Hrun.
    by injection Hrun as <- <-. }
  assert (fields region ≠ ∅) as He by naive_solver.
  assert (mines_min region = mines_max region) as Hc.
  { destruct (decide (mines_min region = mines_max region)); naive_solver. }
  destruct (decide (mines_min region = 0)) as [H0|H0].
  2: assert (mines_min region = len_set (fields region)) as Hn.
  2: { destruct (decide (mines_min region = len_set (fields region)));
         naive_solver. }
  - destruct (check_region_sweep region st b st' He Hc H0 Hrun)
      as (_ & Hm & Hin).
    rewrite Hm, (marked_unchanged st st'); [done|].
    intros f Hgrid.
    destruct (decide (f ∈ fields region)) as [Hf|Hf].
    + destruct (Hunknown f Hf) as [_ HU]. rewrite HU.
      specialize (Hin f Hf). specialize (Htruth f Hgrid).
      unfold reveal_type in Hin.
      destruct (sweep_cell minefield f.1 f.2) as [n|]; [|done].
      destruct Htruth as (_ & Hn & Hn8).
      pose proof (mines_among_le mines (neighbours f.1 f.2)).
      destruct (FieldType_of_int_numbered n _ ltac:(lia) Hin) as [_ Hnum].
      apply numbered_cases in Hnum. naive_solver.
    + by rewrite (check_region_frame region st b st' f Hrun Hf).
  - destruct (check_region_mark region st He Hc Hn)
      as (st2 & Hrun2 & Hm & Hin & Hout).
    rewrite Hrun in Hrun2. injection Hrun2 as _ <-.
    assert (marked st' = marked st ∪ fields region) as ->.
    { apply set_eq. intros f.
      rewrite elem_of_union, !elem_of_marked.
      destruct (decide (f ∈ fields region)) as [Hf|Hf].
      - rewrite (Hin f Hf). destruct (Hunknown f Hf). naive_solver.
      - rewrite (Hout f Hf). naive_solver. }
    unfold len_set in *. rewrite size_union.
    + rewrite Hm. lia.
    + intros f [_ HM]%elem_of_marked Hf.
      destruct (Hunknown f Hf) as [_ HU]. congruence.
Qed.

Lemma region_of_sound mines st x y :
  consistent mines st → in_grid (x, y) →
  numbered (field_type st (x, y)) = true →
  sound_region mines st (region_of st x y).
Proof.
  intros Hcons Hgrid Hnum. split.
  - by apply region_of_bounds.
  - intros f [Hadj Ht]%elem_of_find_adjacent_type. split; [apply Hadj|done].
Qed.

(** On a board that satisfies the solver's invariant, [find_regions] does
    not raise and maintains the invariant; when it reports no modification
    its regions are sound for the board, which is unchanged. *)
Lemma find_regions_sound mines st :
  truthful mines → solver_invariant mines st →
  ∃ modified regions st',
    find_regions st = Ok ((modified, regions), st')
    ∧ solver_invariant mines st'
    ∧ (modified = false →
       st' = st ∧ ∀ r, r ∈ regions → sound_region mines st r).
Proof.
  intros Htruth Hinv.
  pose (I := λ (acc : bool * list Region) (s : state),
          solver_invariant mines s
          ∧ (acc.1 = false →
             s = st ∧ ∀ r, r ∈ acc.2 → sound_region mines st r)).
  destruct (for_acc_returns I scan_order
              (λ c acc, find_regions_cell c.1 c.2 acc)) with (l := (false, @nil Region)) (s := st)
    as ([modified regions] & st' & Hrun & Hinv' & Hstable).
  - intros [x y] [b regions] s Hc [Hs Hb].
    change (∃ l' s', find_regions_cell x y (b, regions) s = Ok (l', s')
                     ∧ I l' s').
    apply elem_of_scan_order in Hc.
    destruct (find_regions_cell_cases x y b regions s)
      as [[_ ->]|[(Hnum & _ & _) ->]].
    { by exists (b, regions), s. }
    pose proof (region_of_sound mines s x y (proj1 Hs) Hc Hnum) as Hsound.
    destruct (check_region_returns mines (region_of s x y) s Htruth)
      as (modified & s1 & Hcheck).
    { apply Hsound. }
    { intros f Hf. by apply Hsound. }
    exists (b || modified, regions ++ [region_of s x y]), s1.
    split; [unfold bind; by rewrite Hcheck|]. split.
    + by apply (check_region_invariant mines (region_of s x y) s modified s1).
    + simpl. intros [-> ->]%orb_false_iff.
      apply check_region_false in Hcheck as ->.
      destruct Hb as [-> Hregions]; [done|]. split; [done|].
      intros r [Hr|Hr%list_elem_of_singleton]%elem_of_app;
        [by apply Hregions | by subst r].
  - split; [done|]. intros _. split; [done|]. by intros r ?%elem_of_nil.
  - exists modified, regions, st'. rewrite find_regions_scan. done.
Qed.

Lemma sound_region_frame mines st st' r :
  sound_region mines st r →
  (∀ f, f ∈ fields r → field_type st' f = field_type st f) →
  sound_region mines st' r.
Proof.
  intros [Hwithin Hunknown] Hframe. split; [done|].
  intros f Hf. destruct (Hunknown f Hf) as [Hgrid HU].
  split; [done|]. by rewrite Hframe.
Qed.

(** One pair of [split_regions] on sound regions: no exception, the list
    is restored, the invariant is maintained, and the board is unchanged
    when the loop goes on with the next pair. *)
Lemma split_pair_sound mines (rec : Z → M split_state bool) depth ia ib
    regions st :
  truthful mines → solver_invariant mines st →
  Forall (sound_region mines st) regions →
  (ia < length regions)%nat → (ib < length regions)%nat →
  (∀ regions2,
     Forall (sound_region mines st) regions2 →
     ∃ b st', rec (depth + 1) (regions2, st) = Ok (b, (regions2, st'))
              ∧ solver_invariant mines st' ∧ (b = false → st' = st)) →
  ∃ r st',
    split_pair rec depth ia ib (regions, st) = Ok (r, (regions, st'))
    ∧ solver_invariant mines st'
    ∧ (r = Some true ∨ (r = None ∧ st' = st)).
Proof.
  intros Htruth Hinv Hregions Hia Hib Hrec.
  destruct (lookup_lt_is_Some_2 regions ia Hia) as [A HA].
  destruct (lookup_lt_is_Some_2 regions ib Hib) as [B HB].
  pose proof (proj1 (Forall_lookup _ _) Hregions ia A HA) as [HwA HuA].
  pose proof (proj1 (Forall_lookup _ _) Hregions ib B HB) as [HwB HuB].
  destruct (split_bounds_within mines A B HwA HwB) as (HwC & HwD & HwE).
  assert (fields (split_bounds A B).1.1 = fields A ∩ fields B) as HfC by done.
  assert (fields (split_bounds A B).1.2 = fields A ∖ fields B) as HfD by done.
  assert (fields (split_bounds A B).2 = fields B ∖ fields A) as HfE by done.
  unfold split_pair.
  rewrite (bind_step _ _ _ A (regions, st)) by (by apply regions_get_Ok).
  rewrite (bind_step _ _ _ B (regions, st)) by (by apply regions_get_Ok).
  destruct (split_bounds A B) as [[C D] E]. simpl in HwC, HwD, HwE, HfC, HfD, HfE.
  destruct (bool_decide (len_set (fields C) = 0)).
  { exists None, st. split; [done|]. split; [done|]. by right. }
  destruct (bool_decide _ && bool_decide _).
  { exists None, st. split; [done|]. split; [done|]. by right. }
  assert (sound_region mines st C) as HsC.
  { split; [done|]. intros f Hf. apply HuA. set_solver. }
  assert (sound_region mines st D) as HsD.
  { split; [done|]. intros f Hf. apply HuA. set_solver. }
  assert (sound_region mines st E) as HsE.
  { split; [done|]. intros f Hf. apply HuB. set_solver. }
  destruct (check_region_returns mines C st Htruth HwC) as (mC & st1 & HrunC).
  { intros f Hf. by apply HsC. }
  pose proof (check_region_invariant mines C st mC st1 Htruth Hinv HsC HrunC)
    as Hinv1.
  assert (sound_region mines st1 D) as HsD1.
  { apply (sound_region_frame mines st); [done|]. intros f Hf.
    apply (check_region_frame C st mC st1 f HrunC). set_solver. }
  assert (sound_region mines st1 E) as HsE1.
  { apply (sound_region_frame mines st); [done|]. intros f Hf.
    apply (check_region_frame C st mC st1 f HrunC). set_solver. }
  destruct (check_region_returns mines D st1 Htruth HwD) as (mD & st2 & HrunD).
  { intros f Hf. by apply HsD1. }
  pose proof (check_region_invariant mines D st1 mD st2 Htruth Hinv1 HsD1 HrunD)
    as Hinv2.
  assert (sound_region mines st2 E) as HsE2.
  { apply (sound_region_frame mines st1); [done|]. intros f Hf.
    apply (check_region_frame D st1 mD st2 f HrunD). set_solver. }
  destruct (check_region_returns mines E st2 Htruth HwE) as (mE & st3 & HrunE).
  { intros f Hf. by apply HsE2. }
  pose proof (check_region_invariant mines E st2 mE st3 Htruth Hinv2 HsE2 HrunE)
    as Hinv3.
  rewrite (bind_step _ _ _ mC (regions, st1))
    by (apply on_board_Ok; by exists st1).
  rewrite (bind_step _ _ _ mD (regions, st2))
    by (apply on_board_Ok; by exists st2).
  rewrite (bind_step _ _ _ mE (regions, st3))
    by (apply on_board_Ok; by exists st3).
  destruct (false || mC || mD || mE) eqn:Hmod.
  { exists (Some true), st3. split; [done|]. split; [done|]. by left. }
  apply orb_false_iff in Hmod as [[[_ ->]%orb_false_iff ->]%orb_false_iff ->].
  apply check_region_false in HrunC as ->.
  apply check_region_false in HrunD as ->.
  apply check_region_false in HrunE as ->.
  rewrite (bind_step _ _ _ tt (regions ++ [C], st)) by done.
  rewrite (bind_step _ _ _ tt (<[ia := D]> (regions ++ [C]), st)).
  2:{ apply regions_set_Ok. simpl. rewrite length_app. split; [lia|done]. }
  rewrite (bind_step _ _ _ tt
             (<[ib := E]> (<[ia := D]> (regions ++ [C])), st)).
  2:{ apply regions_set_Ok. simpl. rewrite length_insert, length_app.
      split; [lia|done]. }
  destruct (Hrec (<[ib := E]> (<[ia := D]> (regions ++ [C]))))
    as (b & st' & Hcall & Hinv' & Hsame).
  { apply Forall_insert; [|done]. apply Forall_insert; [|done].
    apply Forall_app. split; [done|]. by apply Forall_singleton. }
  rewrite (bind_step _ _ _ b _ Hcall).
  rewrite (bind_step _ _ _ tt
             (<[ib := B]> (<[ib := E]> (<[ia := D]> (regions ++ [C]))), st')).
  2:{ apply regions_set_Ok. simpl. rewrite !length_insert, length_app.
      split; [lia|done]. }
  rewrite (bind_step _ _ _ tt
             (<[ia := A]> (<[ib := B]> (<[ib := E]>
                (<[ia := D]> (regions ++ [C])))), st')).
  2:{ apply regions_set_Ok. simpl. rewrite !length_insert, length_app.
      split; [lia|done]. }
  rewrite (bind_step _ _ _ tt (regions, st')).
  2:{ apply regions_del_last_Ok. simpl. split.
      - intros Hnil. apply (f_equal length) in Hnil.
        rewrite !length_insert, length_app in Hnil. simpl in Hnil. lia.
      - by rewrite (restore_regions regions ia ib A B C D E HA HB). }
  destruct b.
  - exists (Some true), st'. split; [done|]. split; [done|]. by left.
  - exists None, st'. split; [done|]. split; [done|]. right.
    split; [done|]. by apply Hsame.
Qed.

Lemma split_regions_calls_sound mines calls depth regions st :
  truthful mines → solver_invariant mines st →
  Forall (sound_region mines st) regions →
  ∃ b st',
    split_regions_calls calls depth (regions, st) = Ok (b, (regions, st'))
    ∧ solver_invariant mines st' ∧ (b = false → st' = st).
Proof.
  intros Htruth Hinv. revert depth regions.
  induction calls as [|calls IH]; intros depth regions Hregions.
  { by exists false, st. }
  simpl. unfold split_regions_body.
  destruct (bool_decide (depth >= MAX_RECURSION_DEPTH)).
  { by exists false, st. }
  rewrite (bind_step _ _ _ (length regions) (regions, st)) by done.
  pose (I := λ s : split_state, s = (regions, st)).
  pose (Q := λ (b : bool) (s : split_state),
          b = true ∧ s.1 = regions ∧ solver_invariant mines s.2).
  destruct (for_return_returns I Q (seq 0 (length regions))
              (λ regionA_index,
                 bind regions_len (λ n',
                   for_return
                     (seq (regionA_index + 1) (n' - (regionA_index + 1)))
                     (λ regionB_index,
                        split_pair (split_regions_calls calls) depth
                          regionA_index regionB_index))))
    with (s := (regions, st)) as (r & s' & Hloop & Hr); [|done|].
  - intros ia s Hia ->.
    rewrite (bind_step _ _ _ (length regions) (regions, st)) by done.
    apply (for_return_returns I Q); [|done].
    intros ib s Hib ->.
    apply elem_of_seq in Hia, Hib.
    destruct (split_pair_sound mines (split_regions_calls calls) depth ia ib
                regions st Htruth Hinv Hregions)
      as (r & st' & Hpair & Hinv' & Hr); [lia|lia| |].
    { intros regions2 Hregions2. by apply IH. }
    exists r, (regions, st'). split; [done|].
    destruct Hr as [->|[-> ->]]; [by split|done].
  - rewrite (bind_step _ _ _ r s' Hloop).
    destruct r as [b|].
    + destruct s' as [regions' st']. destruct Hr as (-> & Hl & Hinv').
      simpl in *. subst regions'. exists true, st'. by split.
    + unfold I in Hr. subst s'. by exists false, st.
Qed.

Lemma split_regions_sound mines depth regions st :
  truthful mines → solver_invariant mines st →
  Forall (sound_region mines st) regions →
  ∃ b st',
    split_regions depth (regions, st) = Ok (b, (regions, st'))
    ∧ solver_invariant mines st' ∧ (b = false → st' = st).
Proof. apply split_regions_calls_sound. Qed.

(** Once [mines_left] is 0 every mine is marked, and the mine field
    reports the remaining unknown cells safe. *)
Lemma remaining_safe mines st :
  truthful mines → (∀ f, f ∈ mines → in_grid f) →
  solver_invariant mines st → mines_left st = 0 →
  ∀ f, f ∈ find_remaining st → safe_cell f = true.
Proof.
  intros Htruth Hmines [Hcons Hleft] H0 f [Hgrid HU]%elem_of_find_remaining.
  apply (truthful_safe mines); [done|done|].
  assert (marked st = mines) as Hall.
  { apply set_subseteq_size_eq.
    - intros g [Hg HM]%elem_of_marked. by apply (Hcons g).
    - unfold len_set in Hleft. lia. }
  rewrite <- Hall. intros [_ HM]%elem_of_marked. congruence.
Qed.

(** A reveal of a safe cell maintains the invariant. *)
Lemma sweep_field_invariant mines f st st' :
  truthful mines → solver_invariant mines st → in_grid f →
  field_type st f ≠ Mine →
  sweep_field f st = Ok (tt, st') →
  solver_invariant mines st'
  ∧ numbered (field_type st' f) = true
  ∧ ∀ g, g ≠ f → field_type st' g = field_type st g.
Proof.
  intros Htruth [Hcons Hleft] Hgrid Hold Hsweep.
  pose proof (sweep_field_consistent mines f st st' Htruth Hcons Hsweep Hgrid)
    as Hcons'.
  apply sweep_field_Ok in Hsweep as (t & Ht & ->).
  assert (numbered t = true) as Hnum.
  { specialize (Htruth f Hgrid). unfold reveal_type in Ht.
    destruct (sweep_cell minefield f.1 f.2) as [n|]; [|done].
    destruct Htruth as (_ & Hn & Hn8).
    pose proof (mines_among_le mines (neighbours f.1 f.2)).
    by destruct (FieldType_of_int_numbered n t ltac:(lia) Ht). }
  split; [|split].
  - split; [done|]. simpl.
    rewrite (marked_unchanged st (set_type f t st)); [done|].
    intros g Hg. rewrite field_type_set_type.
    destruct (decide (f = g)) as [->|]; [|done].
    apply numbered_cases in Hnum. naive_solver.
  - rewrite field_type_set_type. by rewrite decide_True.
  - intros g Hg. rewrite field_type_set_type. by rewrite decide_False.
Qed.

Lemma for_each_sweep_invariant mines xs st st' :
  truthful mines → solver_invariant mines st →
  (∀ f, f ∈ xs → in_grid f ∧ field_type st f = Unknown) →
  for_each xs sweep_field st = Ok (tt, st') →
  solver_invariant mines st'.
Proof.
  intros Htruth Hinv Hxs Hrun.
  pose (J := λ s : state,
          solver_invariant mines s ∧ ∀ f, f ∈ xs → field_type s f ≠ Mine).
  assert (J st') as [? _]; [|done].
  revert Hrun. apply (for_each_inv J).
  - intros f s s' Hf [Hs Hnot] Hsweep.
    destruct (sweep_field_invariant mines f s s' Htruth Hs)
      as (Hs' & Hnum & Hframe); try done.
    { by apply Hxs. }
    { by apply Hnot. }
    split; [done|]. intros g Hg.
    destruct (decide (g = f)) as [->|Hne].
    + apply numbered_cases in Hnum. naive_solver.
    + rewrite (Hframe g Hne). by apply Hnot.
  - split; [done|]. intros f Hf. destruct (Hxs f Hf) as [_ ->]. done.
Qed.

Lemma list_index_elem_of {A} (l : list A) (i : Z) (x : A) :
  list_index l i = Some x → x ∈ l.
Proof.
  unfold list_index. repeat case_bool_decide; try done.
  all: intros Hx; apply list_elem_of_lookup; eauto.
Qed.

Lemma sweep_remaining_done st st' :
  for_each (find_remaining st) sweep_field st = Ok (tt, st') →
  (∀ f, f ∈ find_remaining st → safe_cell f = true) →
  find_remaining st' = [].
Proof.
  intros Hsweep Hsafe.
  destruct (for_each_sweep _ _ _ Hsweep) as (_ & Hin & Hout).
  destruct (find_remaining st') as [|f l] eqn:Hrem; [done|]. exfalso.
  assert (f ∈ find_remaining st') as Hf by (rewrite Hrem; by left).
  apply elem_of_find_remaining in Hf as [Hgrid Hunknown].
  destruct (decide (f ∈ find_remaining st)) as [Hold|Hold].
  - destruct (safe_cell_reveal f (Hsafe f Hold)) as (t & Ht & Hnum & _).
    rewrite (Hin f Hold) in Ht. injection Ht as <-.
    by rewrite Hunknown in Hnum.
  - apply Hold, elem_of_find_remaining. split; [done|].
    by rewrite <- (Hout f Hold).
Qed.

(** One iteration of the main loop on a board that satisfies the solver's
    invariant: it maintains the invariant, and it can fail in one way
    only, by the random guess. *)
Lemma main_iteration_sound mines randint st :
  truthful mines → (∀ f, f ∈ mines → in_grid f) →
  solver_invariant mines st →
  (∃ flow st',
     main_iteration randint st = Ok (flow, st')
     ∧ solver_invariant mines st'
     ∧ (flow = Break → find_remaining st' = []))
  ∨ (∃ e regions,
       main_iteration randint st = Raise e
       ∧ find_regions st = Ok ((false, regions), st)
       ∧ split_regions 0 (regions, st) = Ok (false, (regions, st))
       ∧ mines_left st ≠ 0
       ∧ match list_index (find_remaining st)
                 (randint 0 (Z.of_nat (length (find_remaining st)) - 1)) with
         | Some field => e = HitMine ∧ field ∈ mines
         | None => e = IndexError
         end).
Proof.
  intros Htruth Hmines Hinv.
  destruct (find_regions_sound mines st Htruth Hinv)
    as (modified & regions & st1 & Hfind & Hinv1 & Hstable).
  destruct modified.
  { left. exists Continue, st1. split; [|by split].
    unfold main_iteration. by rewrite (bind_step _ _ _ _ _ Hfind). }
  destruct Hstable as [-> Hregions]; [done|].
  destruct (split_regions_sound mines 0 regions st Htruth Hinv)
    as (modified & st2 & Hsplit & Hinv2 & Hstable).
  { by apply Forall_forall. }
  destruct modified.
  { left. exists Continue, st2. split; [|by split].
    unfold main_iteration. rewrite (bind_step _ _ _ _ _ Hfind).
    rewrite (bind_step _ _ _ true st2); [done|].
    apply with_regions_Ok. by exists regions. }
  rewrite Hstable in Hsplit by done. clear st2 Hinv2 Hstable.
  destruct (main_iteration_stable randint st regions st (regions, st)
              Hfind Hsplit) as [_ ->].
  rewrite (bind_step _ _ _ (find_remaining st) st) by done.
  rewrite (bind_step _ _ _ (mines_left st) st) by done.
  destruct (decide (mines_left st = 0)) as [Hleft|Hleft].
  - rewrite (bool_decide_eq_true_2 _ Hleft).
    pose proof (remaining_safe mines st Htruth Hmines Hinv Hleft) as Hsafe.
    destruct (for_each_sweep_total (find_remaining st) st) as [st' Hsweep].
    { intros f Hf. destruct (safe_cell_reveal f (Hsafe f Hf)) as (t & -> & _).
      by eexists. }
    left. exists Break, st'. split; [|split].
    + rewrite (bind_step _ _ _ [] st'); [done|].
      by rewrite (bind_step _ _ _ tt st').
    + apply (for_each_sweep_invariant mines (find_remaining st) st st');
        try done.
      intros f Hf. by apply elem_of_find_remaining.
    + intros _. by apply (sweep_remaining_done st st').
  - rewrite (bool_decide_eq_false_2 _ Hleft).
    rewrite (bind_step _ _ _ (find_remaining st) st) by done.
    destruct (decide (find_remaining st = [])) as [Hnil|Hrem].
    { left. exists Break, st. rewrite Hnil. split; [done|]. by split. }
    rewrite bool_decide_eq_false_2 by (by destruct (find_remaining st)).
    destruct (list_index (find_remaining st) _) as [field|] eqn:Hidx.
    2:{ right. by exists IndexError, regions. }
    pose proof (list_index_elem_of _ _ _ Hidx)
      as [Hgrid HU]%elem_of_find_remaining.
    destruct (decide (field ∈ mines)) as [Hmine|Hsafe].
    + right. exists HitMine, regions. split; [|done].
      unfold bind.
      by rewrite (proj2 (sweep_field_explodes field st)
                    (truthful_mine mines field Htruth Hgrid Hmine)).
    + destruct (safe_cell_reveal field
                  (truthful_safe mines field Htruth Hgrid Hsafe))
        as (t & Ht & _).
      assert (sweep_field field st = Ok (tt, set_type field t st)) as Hsweep.
      { apply sweep_field_Ok. by exists t. }
      left. exists Continue, (set_type field t st). split; [|split; [|done]].
      * by rewrite (bind_step _ _ _ tt _ Hsweep).
      * apply (sweep_field_invariant mines field st); try done.
        by rewrite HU.
Qed.

(** The main loop on a board that satisfies the solver's invariant: it
    maintains the invariant, leaves by [break] only when no unknown cell is
    left, and fails only by a random guess (on a mine, or out of range). *)
Lemma main_loop_sound mines draws i rounds st :
  truthful mines → (∀ f, f ∈ mines → in_grid f) →
  solver_invariant mines st →
  match main_loop draws i rounds st with
  | Ok (r, st') =>
      solver_invariant mines st' ∧ (r = Some tt → find_remaining st' = [])
  | Raise e => e = HitMine ∨ e = IndexError
  end.
Proof.
  intros Htruth Hmines. revert i st.
  induction rounds as [|rounds IH]; intros i st Hinv; simpl; [done|].
  destruct (main_iteration_sound mines (draws i) st Htruth Hmines Hinv)
    as [(flow & st' & Hiter & Hinv' & Hbreak)|(e & regions & Hiter & _ & _ & _ & He)].
  - rewrite (bind_step _ _ _ flow st' Hiter). destruct flow.
    + by apply IH.
    + split; [done|]. intros _. by apply Hbreak.
  - unfold bind. rewrite Hiter.
    destruct (list_index _ _); [left; apply He | by right].
Qed.

(** The board the program starts with, all cells unknown and [mines_left]
    the number of mines, satisfies the invariant. *)
Lemma initial_invariant mines :
  solver_invariant mines (mkState ∅ (len_set mines)).
Proof.
  assert (∀ f, field_type (mkState ∅ (len_set mines)) f = Unknown) as HU.
  { intros f. unfold field_type. simpl. by rewrite lookup_empty. }
  split.
  - intros f _. by rewrite HU.
  - assert (marked (mkState ∅ (len_set mines)) = ∅) as ->.
    { apply set_eq. intros f. rewrite elem_of_marked, HU. set_solver. }
    simpl. assert (len_set ∅ = 0) as -> by done. lia.
Qed.

(** ** Outcomes of runs *)

Lemma outcome_bind {S A B} (E : exn → Prop) (Q : B → S → Prop)
    (m : M S A) (k : A → M S B) s :
  outcome E (λ a s1, outcome E Q (k a s1)) (m s) → outcome E Q (bind m k s).
Proof. unfold bind. by destruct (m s) as [[a s1]|e]. Qed.

Lemma outcome_mono {S A} (E E' : exn → Prop) (Q Q' : A → S → Prop) r :
  outcome E Q r → (∀ e, E e → E' e) → (∀ a s, Q a s → Q' a s) →
  outcome E' Q' r.
Proof. destruct r as [[a s]|e]; simpl; auto. Qed.

Lemma outcome_Ok {S A} (E : exn → Prop) (Q : A → S → Prop) r a s :
  outcome E Q r → r = Ok (a, s) → Q a s.
Proof. by intros H ->. Qed.

Lemma outcome_Raise {S A} (E : exn → Prop) (Q : A → S → Prop)
    (r : result (A * S)) e :
  outcome E Q r → r = Raise e → E e.
Proof. by intros H ->. Qed.

Lemma outcome_for_each {S A} (E : exn → Prop) (I : S → Prop) (xs : list A)
    (body : A → M S unit) :
  (∀ x s, x ∈ xs → I s → outcome E (λ _ s', I s') (body x s)) →
  ∀ s, I s → outcome E (λ _ s', I s') (for_each xs body s).
Proof.
  induction xs as [|x xs IH]; intros Hbody s Hs; [done|].
  simpl. apply outcome_bind.
  apply (outcome_mono E E (λ _ s', I s')); [|done|].
  - apply Hbody; [by left|done].
  - intros _ s1 Hs1. apply IH; [|done].
    intros y t Hy. apply Hbody. by right.
Qed.

Lemma outcome_for_acc {S A L} (E : exn → Prop) (I : L → S → Prop)
    (xs : list A) (body : A → L → M S L) :
  (∀ x l s, x ∈ xs → I l s → outcome E I (body x l s)) →
  ∀ l s, I l s → outcome E I (for_acc xs body l s).
Proof.
  induction xs as [|x xs IH]; intros Hbody l s Hs; [done|].
  simpl. apply outcome_bind.
  apply (outcome_mono E E I); [|done|].
  - apply Hbody; [by left|done].
  - intros l1 s1 Hs1. apply IH; [|done].
    intros y l2 t Hy. apply Hbody. by right.
Qed.

Lemma outcome_for_return {S A R} (E : exn → Prop) (I : S → Prop)
    (Q : R → S → Prop) (xs : list A) (body : A → M S (option R)) :
  (∀ x s, x ∈ xs → I s →
     outcome E (λ r s', match r with Some v => Q v s' | None => I s' end)
       (body x s)) →
  ∀ s, I s →
    outcome E (λ r s', match r with Some v => Q v s' | None => I s' end)
      (for_return xs body s).
Proof.
  induction xs as [|x xs IH]; intros Hbody s Hs; [done|].
  simpl. apply outcome_bind.
  apply (outcome_mono E E
           (λ r s', match r with Some v => Q v s' | None => I s' end));
    [|done|].
  - apply Hbody; [by left|done].
  - intros [v|] s1 Hs1; [done|]. apply IH; [|done].
    intros y t Hy. apply Hbody. by right.
Qed.

(** ** Progress of the solver *)

Lemma evolves_refl st : evolves st st.
Proof. split; [done|]. split; [done|lia]. Qed.

Lemma evolves_trans st1 st2 st3 :
  evolves st1 st2 → evolves st2 st3 → evolves st1 st3.
Proof.
  intros (Hk1 & Hg1 & Hm1) (Hk2 & Hg2 & Hm2). split; [|split; [|lia]].
  - intros f Hf. rewrite (Hk2 f), (Hk1 f Hf); [done|].
    by rewrite (Hk1 f Hf).
  - intros f Hf.
    destruct (decide (field_type st2 f = field_type st1 f)) as [Heq|Hne].
    + apply Hg2. congruence.
    + by apply Hg1.
Qed.

Lemma advanced_then st1 st2 st3 :
  advanced st1 st2 → evolves st2 st3 → advanced st1 st3.
Proof.
  intros (f & Hg & HU & Hn) (Hk & _ & _). exists f.
  split; [done|]. split; [done|]. by rewrite (Hk f Hn).
Qed.

Lemma then_advanced st1 st2 st3 :
  evolves st1 st2 → advanced st2 st3 → advanced st1 st3.
Proof.
  intros (Hk & _ & _) (f & Hg & HU & Hn). exists f.
  split; [done|]. split; [|done].
  destruct (decide (field_type st1 f = Unknown)) as [|Hne]; [done|].
  specialize (Hk f Hne). congruence.
Qed.

Lemma progress_refl st : progress false st st.
Proof. split; [apply evolves_refl|]. by intros _. Qed.

Lemma progress_trans b1 b2 st1 st2 st3 :
  progress b1 st1 st2 → progress b2 st2 st3 → progress (b1 || b2) st1 st3.
Proof.
  intros [He1 Hc1] [He2 Hc2]. split; [by apply (evolves_trans st1 st2)|].
  intros Hv. destruct (Hc1 Hv) as [Ht1 Ha1]. destruct (Hc2 Hv) as [Ht2 Ha2].
  split; [congruence|].
  intros [->| ->]%orb_true_iff.
  - apply (advanced_then st1 st2); auto.
  - apply (then_advanced st1 st2); auto.
Qed.

Lemma progress_weaken b st st' : progress b st st' → progress false st st'.
Proof.
  intros [He Hc]. split; [done|]. intros Hv. by destruct (Hc Hv) as [-> _].
Qed.

Lemma counts_valid_numbered f t :
  counts_valid → in_grid f → reveal_type f = Some t → numbered t = true.
Proof.
  intros Hv Hg. specialize (Hv f Hg). unfold reveal_type.
  destruct (sweep_cell minefield f.1 f.2) as [n|]; [|done].
  intros Ht. by destruct (FieldType_of_int_numbered n t Hv Ht).
Qed.

(** An exception of [sweep_field] is [HitMine] or [ValueError], and with
    valid counts it is [HitMine]. *)
Lemma sweep_field_Raise f st e :
  sweep_field f st = Raise e →
  (e = HitMine ∧ sweep_cell minefield f.1 f.2 = WasMine)
  ∨ (e = ValueError
     ∧ ∃ n, sweep_cell minefield f.1 f.2 = Count n ∧ ¬ 0 <= n <= 10).
Proof.
  rewrite sweep_field_eq.
  destruct (sweep_cell minefield f.1 f.2) as [n|]; [|intros [= <-]; by left].
  destruct (FieldType_of_int n) as [t|] eqn:Ht; [done|].
  intros [= <-]. right. split; [done|]. exists n. split; [done|].
  intros Hn.
  assert (n = 0 ∨ n = 1 ∨ n = 2 ∨ n = 3 ∨ n = 4 ∨ n = 5 ∨ n = 6 ∨ n = 7
          ∨ n = 8 ∨ n = 9 ∨ n = 10) as Hcases by lia.
  clear Hn. by repeat destruct Hcases as [->|Hcases]; [..|subst n].
Qed.

Lemma sweep_field_hit_only f st e :
  in_grid f → sweep_field f st = Raise e → hit_only e.
Proof.
  intros Hg [[-> _]|(-> & n & Hn & Hout)]%sweep_field_Raise Hv; [done|].
  specialize (Hv f Hg). rewrite Hn in Hv. lia.
Qed.

(** Whether and what [sweep_field] raises depends on the cell only. *)
Lemma sweep_field_Raise_any f st e :
  sweep_field f st = Raise e → ∀ s, sweep_field f s = Raise e.
Proof.
  rewrite sweep_field_eq. intros Hraise s. rewrite sweep_field_eq.
  destruct (sweep_cell minefield f.1 f.2) as [n|]; [|done].
  by destruct (FieldType_of_int n).
Qed.

Lemma sweep_raises_evolves st s e :
  evolves st s → sweep_raises s e → sweep_raises st e.
Proof.
  intros (Hk & _ & _) (f & Hg & HU & Hraise). exists f.
  split; [done|]. split; [|done].
  destruct (decide (field_type st f = Unknown)) as [|Hne]; [done|].
  specialize (Hk f Hne). congruence.
Qed.

Lemma raised_evolves st s e : evolves st s → raised s e → raised st e.
Proof.
  intros He [Hhit Hsweep]. split; [done|].
  by apply (sweep_raises_evolves st s).
Qed.

Lemma raised_progress b st s e : progress b st s → raised s e → raised st e.
Proof. intros [He _]. by apply raised_evolves. Qed.

Lemma check_region_Raise region st e :
  check_region region st = Raise e →
  ∃ f s1, f ∈ fields region ∧ sweep_field f s1 = Raise e.
Proof.
  rewrite check_region_eq. repeat case_decide; try done.
  - intros [Hloop|(? & ? & _ & [=])]%bind_Raise.
    apply for_each_Raise in Hloop as (f & s1 & Hf & Hsweep).
    exists f, s1. split; [by apply elem_of_elements|done].
  - intros [Hloop|(? & ? & _ & [=])]%bind_Raise.
    destruct (for_each_mark (elements (fields region)) st) as (st' & Hrun & _).
    congruence.
Qed.

(** What a board is after the unknown cells [xs] were revealed. *)
Lemma swept_progress (xs : list Field) st st' :
  (∀ f, f ∈ xs → in_grid f ∧ field_type st f = Unknown) →
  mines_left st' = mines_left st →
  (∀ f, f ∈ xs → reveal_type f = Some (field_type st' f)) →
  (∀ f, f ∉ xs → field_type st' f = field_type st f) →
  progress (bool_decide (xs ≠ [])) st st'
  ∧ (counts_valid → ∀ f, f ∈ xs → numbered (field_type st' f) = true).
Proof.
  intros Hunk Hm Hin Hout.
  assert (counts_valid → ∀ f, f ∈ xs → numbered (field_type st' f) = true)
    as Hnum.
  { intros Hv f Hf. apply (counts_valid_numbered f); [done| |by apply Hin].
    by apply Hunk. }
  split; [|done]. split; [split; [|split; [|lia]]|].
  - intros f Hf. apply Hout. intros Hxs. by destruct (Hunk f Hxs).
  - intros f Hf. destruct (decide (f ∈ xs)) as [Hxs|Hxs]; [by apply Hunk|].
    by rewrite (Hout f Hxs) in Hf.
  - intros Hv. split.
    + unfold mines_total. rewrite Hm, (marked_unchanged st st'); [done|].
      intros f Hg. destruct (decide (f ∈ xs)) as [Hxs|Hxs].
      * destruct (Hunk f Hxs) as [_ HU]. rewrite HU.
        pose proof (Hnum Hv f Hxs) as Hn%numbered_cases. naive_solver.
      * by rewrite (Hout f Hxs).
    + intros Hne%bool_decide_eq_true. destruct xs as [|f xs']; [done|].
      exists f. destruct (Hunk f) as [Hg HU]; [by left|].
      split; [done|]. split; [done|].
      pose proof (Hnum Hv f ltac:(by left)) as Hn%numbered_cases.
      naive_solver.
Qed.

(** What a board is after the unknown cells [s] were marked. *)
Lemma marked_progress (s : gset Field) st st' :
  s ≠ ∅ →
  (∀ f, f ∈ s → in_grid f ∧ field_type st f = Unknown) →
  mines_left st' = mines_left st - len_set s →
  (∀ f, f ∈ s → field_type st' f = Mine) →
  (∀ f, f ∉ s → field_type st' f = field_type st f) →
  progress true st st'.
Proof.
  intros Hne Hunk Hm Hin Hout.
  split; [split; [|split]|].
  - intros f Hf. apply Hout. intros Hs. by destruct (Hunk f Hs).
  - intros f Hf. destruct (decide (f ∈ s)) as [Hs|Hs]; [by apply Hunk|].
    by rewrite (Hout f Hs) in Hf.
  - unfold len_set in Hm. lia.
  - intros _. split.
    + unfold mines_total.
      assert (marked st' = marked st ∪ s) as ->.
      { apply set_eq. intros f. rewrite elem_of_union, !elem_of_marked.
        destruct (decide (f ∈ s)) as [Hf|Hf].
        - rewrite (Hin f Hf). destruct (Hunk f Hf). naive_solver.
        - rewrite (Hout f Hf). naive_solver. }
      unfold len_set in *. rewrite size_union; [lia|].
      intros f [_ HM]%elem_of_marked Hf.
      destruct (Hunk f Hf) as [_ HU]. congruence.
    + intros _. apply set_choose_L in Hne as [f Hf]. exists f.
      destruct (Hunk f Hf) as [Hg HU]. split; [done|]. split; [done|].
      by rewrite (Hin f Hf).
Qed.

(** [check_region] on a region of unknown cells. *)
Lemma check_region_progress region st :
  unknown_region st region →
  outcome (raised st)
    (λ b st', progress b st st' ∧ (b = false → st' = st)
              ∧ ∀ f, f ∉ fields region → field_type st' f = field_type st f)
    (check_region region st).
Proof.
  intros Hunk.
  destruct (check_region region st) as [[b st']|e] eqn:Hrun; simpl.
  2:{ apply check_region_Raise in Hrun as (f & s1 & Hf & Hsweep).
      destruct (Hunk f Hf) as [Hg HU]. split.
      - by apply (sweep_field_hit_only f s1).
      - exists f. split; [done|]. split; [done|].
        by apply (sweep_field_Raise_any f s1). }
  split; [|split].
  3:{ intros f. by apply (check_region_frame region st b st'). }
  2:{ intros ->. by apply (check_region_false region st). }
  destruct (decide (fields region = ∅ ∨ mines_min region ≠ mines_max region
                    ∨ (mines_min region ≠ 0
                       ∧ mines_min region ≠ len_set (fields region))))
    as [Hnoop|Hact].
  { rewrite (check_region_noop region st Hnoop) in Hrun.
    injection Hrun as <- <-. apply progress_refl. }
  assert (fields region ≠ ∅) as He by naive_solver.
  assert (mines_min region = mines_max region) as Hc.
  { destruct (decide (mines_min region = mines_max region)); naive_solver. }
  destruct (decide (mines_min region = 0)) as [H0|H0].
  2: assert (mines_min region = len_set (fields region)) as Hn.
  2: { destruct (decide (mines_min region = len_set (fields region)));
         naive_solver. }
  - destruct (check_region_sweep region st b st' He Hc H0 Hrun)
      as (-> & Hm & Hin).
    destruct (swept_progress (elements (fields region)) st st') as [Hp _].
    + intros f Hf%elem_of_elements. by apply Hunk.
    + done.
    + intros f Hf%elem_of_elements. by apply Hin.
    + intros f Hf. apply (check_region_frame region st true st' f Hrun).
      by rewrite <- elem_of_elements.
    + rewrite bool_decide_eq_true_2 in Hp; [done|].
      intros Hnil. apply He. apply elements_empty_inv in Hnil.
      by apply leibniz_equiv.
  - destruct (check_region_mark region st He Hc Hn)
      as (st2 & Hrun2 & Hm & Hin & Hout).
    rewrite Hrun in Hrun2. injection Hrun2 as -> <-.
    by apply (marked_progress (fields region)).
Qed.

Lemma region_of_unknown st x y : unknown_region st (region_of st x y).
Proof.
  intros f [Hadj Ht]%elem_of_find_adjacent_type. split; [apply Hadj|done].
Qed.

(** [find_regions] writes unknown cells only; its flag is [False] on an
    untouched board, and then the regions hold unknown cells. *)
Lemma find_regions_upto_progress cells st :
  outcome (raised st)
    (λ acc st', progress acc.1 st st'
                ∧ (acc.1 = false →
                   st' = st ∧ Forall (unknown_region st) acc.2))
    (find_regions_upto cells st).
Proof.
  unfold find_regions_upto.
  apply (outcome_for_acc (raised st)
           (λ acc s, progress acc.1 st s
                     ∧ (acc.1 = false →
                        s = st ∧ Forall (unknown_region st) acc.2))).
  - intros [x y] [b regions] s _ [Hp Hb]. simpl in Hp, Hb.
    change (outcome (raised st)
              (λ acc s', progress acc.1 st s'
                         ∧ (acc.1 = false →
                            s' = st ∧ Forall (unknown_region st) acc.2))
              (find_regions_cell x y (b, regions) s)).
    destruct (find_regions_cell_cases x y b regions s) as [[_ ->]|[_ ->]];
      [done|].
    apply outcome_bind.
    apply (outcome_mono _ _ _ _ _
             (check_region_progress (region_of s x y) s
                (region_of_unknown s x y)));
      [intros e; by apply (raised_progress b)|].
    intros m s1 (Hp1 & Hfalse & _). simpl. split.
    + by apply (progress_trans b m st s).
    + intros [-> ->]%orb_false_iff. rewrite (Hfalse eq_refl).
      destruct Hb as [-> Hall]; [done|]. split; [done|].
      apply Forall_app. split; [done|]. apply Forall_singleton.
      apply region_of_unknown.
  - simpl. split; [apply progress_refl|]. done.
Qed.

Lemma outcome_on_board {A} (E : exn → Prop) (Q : A → split_state → Prop)
    (m : M state A) s :
  outcome E (λ a st', Q a (s.1, st')) (m s.2) → outcome E Q (on_board m s).
Proof. unfold on_board. by destruct (m s.2) as [[a st']|e]. Qed.

Lemma outcome_with_regions {A} (E : exn → Prop) (Q : A → state → Prop)
    regions (m : M split_state A) st :
  outcome E (λ a s', Q a s'.2) (m (regions, st)) →
  outcome E Q (with_regions regions m st).
Proof. unfold with_regions. by destruct (m (regions, st)) as [[a s']|e]. Qed.

Lemma unknown_region_frame st st' r :
  unknown_region st r →
  (∀ f, f ∈ fields r → field_type st' f = field_type st f) →
  unknown_region st' r.
Proof.
  intros Hunk Hframe f Hf. destruct (Hunk f Hf) as [Hg HU].
  split; [done|]. by rewrite Hframe.
Qed.

(** One pair of [split_regions] on regions of unknown cells. *)
Lemma split_pair_progress (rec : Z → M split_state bool) depth ia ib
    regions st :
  Forall (unknown_region st) regions →
  (ia < length regions)%nat → (ib < length regions)%nat →
  (∀ regions2,
     Forall (unknown_region st) regions2 →
     outcome (raised st)
       (λ b s', s'.1 = regions2 ∧ progress b st s'.2
                ∧ (b = false → s'.2 = st))
       (rec (depth + 1) (regions2, st))) →
  outcome (raised st)
    (λ r s', match r with
             | Some b => b = true ∧ s'.1 = regions ∧ progress true st s'.2
             | None => s' = (regions, st)
             end)
    (split_pair rec depth ia ib (regions, st)).
Proof.
  intros Hregions Hia Hib Hrec.
  destruct (lookup_lt_is_Some_2 regions ia Hia) as [A HA].
  destruct (lookup_lt_is_Some_2 regions ib Hib) as [B HB].
  pose proof (proj1 (Forall_lookup _ _) Hregions ia A HA) as HuA.
  pose proof (proj1 (Forall_lookup _ _) Hregions ib B HB) as HuB.
  assert (fields (split_bounds A B).1.1 = fields A ∩ fields B) as HfC by done.
  assert (fields (split_bounds A B).1.2 = fields A ∖ fields B) as HfD by done.
  assert (fields (split_bounds A B).2 = fields B ∖ fields A) as HfE by done.
  unfold split_pair.
  rewrite (bind_step _ _ _ A (regions, st)) by (by apply regions_get_Ok).
  rewrite (bind_step _ _ _ B (regions, st)) by (by apply regions_get_Ok).
  destruct (split_bounds A B) as [[C D] E]. simpl in HfC, HfD, HfE.
  destruct (bool_decide (len_set (fields C) = 0)); [done|].
  destruct (bool_decide _ && bool_decide _); [done|].
  assert (unknown_region st C) as HuC.
  { intros f Hf. apply HuA. set_solver. }
  assert (unknown_region st D) as HuD.
  { intros f Hf. apply HuA. set_solver. }
  assert (unknown_region st E) as HuE.
  { intros f Hf. apply HuB. set_solver. }
  apply outcome_bind, outcome_on_board.
  apply (outcome_mono _ _ _ _ _ (check_region_progress C st HuC)); [done|].
  intros mC st1 (HpC & HsC & HoutC). simpl.
  assert (unknown_region st1 D) as HuD1.
  { apply (unknown_region_frame st); [done|]. intros f Hf.
    apply HoutC. set_solver. }
  assert (unknown_region st1 E) as HuE1.
  { apply (unknown_region_frame st); [done|]. intros f Hf.
    apply HoutC. set_solver. }
  apply outcome_bind, outcome_on_board.
  apply (outcome_mono _ _ _ _ _ (check_region_progress D st1 HuD1));
    [intros e; by apply (raised_progress mC)|].
  intros mD st2 (HpD & HsD & HoutD). simpl.
  assert (unknown_region st2 E) as HuE2.
  { apply (unknown_region_frame st1); [done|]. intros f Hf.
    apply HoutD. set_solver. }
  apply outcome_bind, outcome_on_board.
  apply (outcome_mono _ _ _ _ _ (check_region_progress E st2 HuE2));
    [intros e; by apply (raised_progress _ _ _ _
                           (progress_trans _ _ _ _ _ HpC HpD))|].
  intros mE st3 (HpE & HsE & HoutE). simpl.
  pose proof (progress_trans _ _ _ _ _
                (progress_trans _ _ _ _ _ HpC HpD) HpE) as Hp.
  cbn [orb]. destruct (mC || mD || mE) eqn:Hmod.
  { by simpl. }
  apply orb_false_iff in Hmod as [[-> ->]%orb_false_iff ->].
  rewrite (HsC eq_refl) in *. rewrite (HsD eq_refl) in *.
  rewrite (HsE eq_refl) in *. clear HsC HsD HsE.
  cbn [orb].
  rewrite (bind_step _ _ _ tt (regions ++ [C], st)) by done.
  rewrite (bind_step _ _ _ tt (<[ia := D]> (regions ++ [C]), st)).
  2:{ apply regions_set_Ok. simpl. rewrite length_app. split; [lia|done]. }
  rewrite (bind_step _ _ _ tt
             (<[ib := E]> (<[ia := D]> (regions ++ [C])), st)).
  2:{ apply regions_set_Ok. simpl. rewrite length_insert, length_app.
      split; [lia|done]. }
  apply outcome_bind.
  eapply outcome_mono; [apply Hrec| |].
  { apply Forall_insert; [|done]. apply Forall_insert; [|done].
    apply Forall_app. split; [done|]. by apply Forall_singleton. }
  { done. }
  intros b [regions' st'] (Hl & Hp' & Hsame). simpl in Hl, Hp', Hsame.
  subst regions'.
  rewrite (bind_step _ _ _ tt
             (<[ib := B]> (<[ib := E]> (<[ia := D]> (regions ++ [C]))), st')).
  2:{ apply regions_set_Ok. simpl. rewrite !length_insert, length_app.
      split; [lia|done]. }
  rewrite (bind_step _ _ _ tt
             (<[ia := A]> (<[ib := B]> (<[ib := E]>
                (<[ia := D]> (regions ++ [C])))), st')).
  2:{ apply regions_set_Ok. simpl. rewrite !length_insert, length_app.
      split; [lia|done]. }
  rewrite (bind_step _ _ _ tt (regions, st')).
  2:{ apply regions_del_last_Ok. simpl. split.
      - intros Hnil. apply (f_equal length) in Hnil.
        rewrite !length_insert, length_app in Hnil. simpl in Hnil. lia.
      - by rewrite (restore_regions regions ia ib A B C D E HA HB). }
  destruct b; simpl.
  - done.
  - by rewrite Hsame.
Qed.

Lemma split_regions_calls_progress calls depth regions st :
  Forall (unknown_region st) regions →
  outcome (raised st)
    (λ b s', s'.1 = regions ∧ progress b st s'.2 ∧ (b = false → s'.2 = st))
    (split_regions_calls calls depth (regions, st)).
Proof.
  revert depth regions.
  induction calls as [|calls IH]; intros depth regions Hregions.
  { simpl. split; [done|]. split; [apply progress_refl|done]. }
  simpl. unfold split_regions_body.
  destruct (bool_decide (depth >= MAX_RECURSION_DEPTH)).
  { simpl. split; [done|]. split; [apply progress_refl|done]. }
  rewrite (bind_step _ _ _ (length regions) (regions, st)) by done.
  apply outcome_bind.
  pose (I := λ s : split_state, s = (regions, st)).
  pose (Q := λ (b : bool) (s : split_state),
          b = true ∧ s.1 = regions ∧ progress true st s.2).
  eapply outcome_mono; [apply (outcome_for_return (raised st) I Q)| |].
  - intros ia s Hia ->.
    rewrite (bind_step _ _ _ (length regions) (regions, st)) by done.
    apply (outcome_for_return (raised st) I Q); [|done].
    intros ib s Hib ->.
    apply elem_of_seq in Hia, Hib.
    apply split_pair_progress; [done|lia|lia|].
    intros regions2 Hregions2. by apply IH.
  - done.
  - done.
  - intros [b|] s' Hr; simpl.
    + by destruct Hr as (-> & Hl & Hp).
    + unfold I in Hr. subst s'. simpl.
      split; [done|]. split; [apply progress_refl|done].
Qed.

(** ** The unknown cells that remain *)

Lemma foldl_app_filter (P : Field → Prop) `{!∀ f, Decision (P f)} (y : Z)
    (xs : list Z) (acc : list Field) :
  foldl (λ acc x, if bool_decide (P (x, y)) then acc ++ [(x, y)] else acc)
    acc xs
  = acc ++ filter P ((λ x, (x, y)) <$> xs).
Proof.
  revert acc. induction xs as [|x xs IH]; intros acc; simpl.
  - by rewrite app_nil_r.
  - rewrite IH, filter_cons. case_bool_decide as HP.
    + rewrite decide_True by done. by rewrite <- app_assoc.
    + by rewrite decide_False by done.
Qed.

Lemma foldl_foldl_app_filter (P : Field → Prop) `{!∀ f, Decision (P f)}
    (ys xs : list Z) (acc : list Field) :
  foldl (λ acc y,
     foldl (λ acc x, if bool_decide (P (x, y)) then acc ++ [(x, y)] else acc)
       acc xs) acc ys
  = acc ++ filter P (y ← ys; (λ x, (x, y)) <$> xs).
Proof.
  revert acc. induction ys as [|y ys IH]; intros acc; simpl.
  - by rewrite app_nil_r.
  - rewrite IH, foldl_app_filter, filter_app. by rewrite app_assoc.
Qed.

(** [find_remaining] returns the unknown cells in the order of the scan. *)
Lemma find_remaining_filter st :
  find_remaining st = filter (λ f, field_type st f = Unknown) scan_order.
Proof.
  exact (foldl_foldl_app_filter (λ f, field_type st f = Unknown)
           (range 0 height) (range 0 width) []).
Qed.

Lemma NoDup_scan_order : NoDup scan_order.
Proof.
  unfold scan_order, range. apply NoDup_bind.
  - intros y1 y2 f _ _ (x1 & -> & _)%list_elem_of_fmap
      (x2 & [= _ ->] & _)%list_elem_of_fmap. done.
  - intros y _. apply NoDup_fmap_2; [|apply NoDup_seqZ].
    by intros x1 x2 [= ->].
  - apply NoDup_seqZ.
Qed.

Lemma filter_length_le {A} (P Q : A → Prop) `{!∀ x, Decision (P x)}
    `{!∀ x, Decision (Q x)} (l : list A) :
  (∀ x, x ∈ l → P x → Q x) →
  (length (filter P l) <= length (filter Q l))%nat.
Proof.
  induction l as [|a l IH]; intros Himp; [done|].
  rewrite !filter_cons.
  assert (length (filter P l) <= length (filter Q l))%nat as Hl.
  { apply IH. intros x Hx. apply Himp. by right. }
  destruct (decide (P a)) as [HP|HP].
  - rewrite decide_True by (apply Himp; [by left|done]). simpl. lia.
  - destruct (decide (Q a)); simpl; lia.
Qed.

Lemma filter_length_lt {A} (P Q : A → Prop) `{!∀ x, Decision (P x)}
    `{!∀ x, Decision (Q x)} (l : list A) (a : A) :
  (∀ x, x ∈ l → P x → Q x) → a ∈ l → Q a → ¬ P a →
  (length (filter P l) < length (filter Q l))%nat.
Proof.
  induction l as [|b l IH]; intros Himp Ha HQ HP;
    [by apply elem_of_nil in Ha|].
  rewrite !filter_cons.
  assert (length (filter P l) <= length (filter Q l))%nat as Hl.
  { apply filter_length_le. intros x Hx. apply Himp. by right. }
  apply elem_of_cons in Ha as [<-|Ha].
  - rewrite decide_False by done. rewrite decide_True by done. simpl. lia.
  - assert (length (filter P l) < length (filter Q l))%nat as Hlt.
    { apply IH; try done. intros x Hx. apply Himp. by right. }
    destruct (decide (P b)) as [HPb|HPb].
    + rewrite decide_True by (apply Himp; [by left|done]). simpl. lia.
    + destruct (decide (Q b)); simpl; lia.
Qed.

Lemma remaining_le st st' :
  evolves st st' →
  (length (find_remaining st') <= length (find_remaining st))%nat.
Proof.
  intros (Hk & _ & _). rewrite !find_remaining_filter.
  apply filter_length_le. intros f _ HU.
  destruct (decide (field_type st f = Unknown)) as [|Hne]; [done|].
  specialize (Hk f Hne). congruence.
Qed.

Lemma remaining_lt st st' :
  evolves st st' → advanced st st' →
  (length (find_remaining st') < length (find_remaining st))%nat.
Proof.
  intros (Hk & _ & _) (f & Hg & HU & Hn). rewrite !find_remaining_filter.
  apply (filter_length_lt _ _ _ f); try done.
  - intros g _ HU'.
    destruct (decide (field_type st g = Unknown)) as [|Hne]; [done|].
    specialize (Hk g Hne). congruence.
  - by apply elem_of_scan_order.
Qed.

(** ** Progress of the main loop *)

Lemma sweep_field_progress f st :
  in_grid f → field_type st f = Unknown →
  outcome (raised st) (λ _ st', progress true st st') (sweep_field f st).
Proof.
  intros Hg HU.
  destruct (sweep_field f st) as [[[] st']|e] eqn:Hrun; simpl.
  2:{ split; [by apply (sweep_field_hit_only f st)|].
      exists f. split; [done|]. split; [done|].
      by apply (sweep_field_Raise_any f st). }
  apply sweep_field_Ok in Hrun as (t & Ht & ->).
  destruct (swept_progress [f] st (set_type f t st)) as [Hp _]; [| | | |done].
  - by intros g ->%list_elem_of_singleton.
  - done.
  - intros g ->%list_elem_of_singleton.
    by rewrite field_type_set_type, decide_True.
  - intros g Hne. rewrite field_type_set_type, decide_False; [done|].
    intros ->. apply Hne. by apply list_elem_of_singleton.
Qed.

Lemma sweep_remaining_progress st :
  outcome (raised st)
    (λ _ st', progress false st st'
              ∧ (counts_valid → find_remaining st' = []))
    (for_each (find_remaining st) sweep_field st).
Proof.
  destruct (for_each (find_remaining st) sweep_field st) as [[[] st']|e]
    eqn:Hrun; simpl.
  2:{ apply for_each_Raise in Hrun as (f & s1 & Hf & Hsweep).
      apply elem_of_find_remaining in Hf as [Hg HU].
      split; [by apply (sweep_field_hit_only f s1)|].
      exists f. split; [done|]. split; [done|].
      by apply (sweep_field_Raise_any f s1). }
  destruct (for_each_sweep _ _ _ Hrun) as (Hm & Hin & Hout).
  destruct (swept_progress (find_remaining st) st st') as [Hp Hnum];
    try done.
  { intros f Hf. by apply elem_of_find_remaining. }
  split; [by apply (progress_weaken _ _ _ Hp)|].
  intros Hv. destruct (find_remaining st') as [|f l] eqn:Hrem; [done|].
  exfalso.
  assert (f ∈ find_remaining st') as Hf by (rewrite Hrem; by left).
  apply elem_of_find_remaining in Hf as [Hg HU].
  destruct (decide (f ∈ find_remaining st)) as [Hold|Hold].
  - specialize (Hnum Hv f Hold). by rewrite HU in Hnum.
  - apply Hold, elem_of_find_remaining. split; [done|].
    by rewrite <- (Hout f Hold).
Qed.

Lemma list_index_in_range {A} (l : list A) (i : Z) :
  0 <= i < Z.of_nat (length l) → is_Some (list_index l i).
Proof.
  intros Hi. unfold list_index. rewrite bool_decide_eq_true_2 by lia.
  apply lookup_lt_is_Some_2. lia.
Qed.

(** One iteration of the main loop, from any board. *)
Lemma main_iteration_progress randint st :
  outcome (λ e, hit_or_draw randint e ∧ draw_or_sweep randint st e)
    (λ flow st', progress (continues flow) st st'
                 ∧ (counts_valid → flow = Break → find_remaining st' = []))
    (main_iteration randint st).
Proof.
  assert (∀ e, raised st e
               → hit_or_draw randint e ∧ draw_or_sweep randint st e)
    as HE.
  { intros e [He Hs]. split; [|by right]. intros Hv _. by apply He. }
  unfold main_iteration. apply outcome_bind.
  eapply outcome_mono;
    [rewrite find_regions_scan; apply find_regions_upto_progress|done|].
  intros [b regions] st1 [Hp Hb]. simpl in Hp, Hb. destruct b.
  { simpl. split; [done|]. by intros _ [=]. }
  destruct Hb as [-> Hall]; [done|].
  apply outcome_bind, outcome_with_regions.
  eapply outcome_mono; [by apply split_regions_calls_progress|done|].
  intros b [regions' st2] (Hl & Hp2 & Hsame). simpl in Hl, Hp2, Hsame.
  destruct b.
  { simpl. split; [done|]. by intros _ [=]. }
  rewrite (Hsame eq_refl). clear Hsame Hp2 st2.
  rewrite (bind_step _ _ _ (find_remaining st) st) by done.
  rewrite (bind_step _ _ _ (mines_left st) st) by done.
  destruct (decide (mines_left st = 0)) as [Hleft|Hleft].
  - rewrite (bool_decide_eq_true_2 _ Hleft).
    apply outcome_bind, outcome_bind.
    eapply outcome_mono; [apply sweep_remaining_progress|done|].
    intros [] st' [Hp' Hdone]. simpl. split; [done|].
    intros Hv _. by apply Hdone.
  - rewrite (bool_decide_eq_false_2 _ Hleft).
    rewrite (bind_step _ _ _ (find_remaining st) st) by done.
    destruct (decide (find_remaining st = [])) as [Hnil|Hrem].
    { rewrite Hnil. simpl. split; [apply progress_refl|]. by intros. }
    rewrite bool_decide_eq_false_2 by (by destruct (find_remaining st)).
    destruct (list_index (find_remaining st) _) as [field|] eqn:Hidx.
    2:{ assert (¬ draw_in_range randint) as Hout.
        { intros Hdraw.
          destruct (list_index_in_range (find_remaining st)
                      (randint 0 (Z.of_nat (length (find_remaining st)) - 1)))
            as [x Hx]; [|congruence].
          assert (0 < Z.of_nat (length (find_remaining st))).
          { destruct (find_remaining st); [done|]. simpl. lia. }
          specialize (Hdraw 0 (Z.of_nat (length (find_remaining st)) - 1)).
          lia. }
        simpl. split; [by intros _ Hdraw|]. by left. }
    pose proof (list_index_elem_of _ _ _ Hidx)
      as [Hg HU]%elem_of_find_remaining.
    apply outcome_bind.
    eapply outcome_mono; [by apply sweep_field_progress|done|].
    intros [] st' Hp'. simpl. split; [done|]. by intros _ [=].
Qed.

(** The main loop, from any board: with valid counts, every iteration
    that goes on has one unknown cell less to look at. *)
Lemma main_loop_progress draws i rounds st :
  outcome (λ e, (counts_valid → (∀ j, draw_in_range (draws j)) →
                 e = HitMine)
                ∧ ((e = IndexError ∧ ∃ j, ¬ draw_in_range (draws j))
                   ∨ sweep_raises st e))
    (λ r st',
       progress false st st'
       ∧ (counts_valid →
          match r with
          | Some _ => find_remaining st' = []
          | None => (length (find_remaining st') + rounds
                     <= length (find_remaining st))%nat
          end))
    (main_loop draws i rounds st).
Proof.
  revert i st. induction rounds as [|rounds IH]; intros i st.
  { simpl. split; [apply progress_refl|]. intros _. lia. }
  simpl. apply outcome_bind.
  eapply outcome_mono; [apply main_iteration_progress| |].
  { intros e [He Hs]. split; [intros Hv Hdraw; by apply He|].
    destruct Hs as [[-> Hout]|Hs]; [left|by right].
    split; [done|]. by exists i. }
  intros [|] st1 [Hp Hbreak]; simpl in Hp.
  2:{ simpl. split; [done|]. intros Hv. by apply Hbreak. }
  eapply outcome_mono; [apply IH| |].
  { intros e [He [Hidx|Hs]]; (split; [done|]); [by left|right].
    destruct Hp as [Hev _]. by apply (sweep_raises_evolves st st1). }
  intros r st' [Hp' Hr]. split.
  { apply (progress_weaken (true || false)).
    by apply (progress_trans _ _ st st1). }
  intros Hv. specialize (Hr Hv). destruct r as [[]|]; [done|].
  destruct Hp as [He Hc]. destruct (Hc Hv) as [_ Hadv].
  pose proof (remaining_lt st st1 He (Hadv eq_refl)). lia.
Qed.

(** ** The indices of [split_regions] *)

Lemma check_region_from_sweep region st :
  outcome from_sweep (λ _ _, True) (check_region region st).
Proof.
  destruct (check_region region st) as [[b st']|e] eqn:Hrun; [done|]. simpl.
  apply check_region_Raise in Hrun
    as (f & s1 & _ & [[-> _]|[-> _]]%sweep_field_Raise);
    [by left|by right].
Qed.

(** One pair on any list: the indices are in range all along, and the
    list is the same afterwards. *)
Lemma split_pair_from_sweep (rec : Z → M split_state bool) depth ia ib s :
  (ia < length s.1)%nat → (ib < length s.1)%nat →
  (∀ t, outcome from_sweep (λ _ t', t'.1 = t.1) (rec (depth + 1) t)) →
  outcome from_sweep (λ _ s', s'.1 = s.1) (split_pair rec depth ia ib s).
Proof.
  destruct s as [regions st]. simpl. intros Hia Hib Hrec.
  destruct (lookup_lt_is_Some_2 regions ia Hia) as [A HA].
  destruct (lookup_lt_is_Some_2 regions ib Hib) as [B HB].
  unfold split_pair.
  rewrite (bind_step _ _ _ A (regions, st)) by (by apply regions_get_Ok).
  rewrite (bind_step _ _ _ B (regions, st)) by (by apply regions_get_Ok).
  destruct (split_bounds A B) as [[C D] E].
  destruct (bool_decide (len_set (fields C) = 0)); [done|].
  destruct (bool_decide _ && bool_decide _); [done|].
  apply outcome_bind, outcome_on_board.
  apply (outcome_mono _ _ _ _ _ (check_region_from_sweep C st)); [done|].
  intros mC st1 _. simpl.
  apply outcome_bind, outcome_on_board.
  apply (outcome_mono _ _ _ _ _ (check_region_from_sweep D st1)); [done|].
  intros mD st2 _. simpl.
  apply outcome_bind, outcome_on_board.
  apply (outcome_mono _ _ _ _ _ (check_region_from_sweep E st2)); [done|].
  intros mE st3 _. simpl.
  cbn [orb]. destruct (mC || mD || mE); [done|].
  rewrite (bind_step _ _ _ tt (regions ++ [C], st3)) by done.
  rewrite (bind_step _ _ _ tt (<[ia := D]> (regions ++ [C]), st3)).
  2:{ apply regions_set_Ok. simpl. rewrite length_app. split; [lia|done]. }
  rewrite (bind_step _ _ _ tt
             (<[ib := E]> (<[ia := D]> (regions ++ [C])), st3)).
  2:{ apply regions_set_Ok. simpl. rewrite length_insert, length_app.
      split; [lia|done]. }
  apply outcome_bind.
  eapply outcome_mono; [apply Hrec|done|].
  intros b [regions' st'] Hl. simpl in Hl. subst regions'.
  rewrite (bind_step _ _ _ tt
             (<[ib := B]> (<[ib := E]> (<[ia := D]> (regions ++ [C]))), st')).
  2:{ apply regions_set_Ok. simpl. rewrite !length_insert, length_app.
      split; [lia|done]. }
  rewrite (bind_step _ _ _ tt
             (<[ia := A]> (<[ib := B]> (<[ib := E]>
                (<[ia := D]> (regions ++ [C])))), st')).
  2:{ apply regions_set_Ok. simpl. rewrite !length_insert, length_app.
      split; [lia|done]. }
  rewrite (bind_step _ _ _ tt (regions, st')).
  2:{ apply regions_del_last_Ok. simpl. split.
      - intros Hnil. apply (f_equal length) in Hnil.
        rewrite !length_insert, length_app in Hnil. simpl in Hnil. lia.
      - by rewrite (restore_regions regions ia ib A B C D E HA HB). }
  by destruct b.
Qed.

Lemma split_regions_calls_from_sweep calls depth s :
  outcome from_sweep (λ _ s', s'.1 = s.1) (split_regions_calls calls depth s).
Proof.
  revert depth s. induction calls as [|calls IH]; intros depth s; [done|].
  simpl. unfold split_regions_body.
  destruct (bool_decide (depth >= MAX_RECURSION_DEPTH)); [done|].
  rewrite (bind_step _ _ _ (length s.1) s) by done.
  apply outcome_bind.
  pose (I := λ t : split_state, t.1 = s.1).
  eapply outcome_mono;
    [apply (outcome_for_return from_sweep I (λ _, I))|done|].
  - intros ia t Hia Ht.
    rewrite (bind_step _ _ _ (length t.1) t) by done.
    apply (outcome_for_return from_sweep I (λ _, I)); [|done].
    intros ib t' Hib Ht'. unfold I in Ht, Ht'.
    apply elem_of_seq in Hia, Hib.
    eapply outcome_mono; [apply split_pair_from_sweep|done|].
    + rewrite Ht'. lia.
    + rewrite Ht', <- Ht. lia.
    + apply IH.
    + intros [b|] t2 Ht2; unfold I; congruence.
  - done.
  - by intros [b|] s' Hs'.
Qed.

Lemma find_regions_from_sweep st :
  outcome from_sweep (λ _ _, True) (find_regions st).
Proof.
  rewrite find_regions_scan. unfold find_regions_upto.
  apply (outcome_for_acc from_sweep (λ _ _, True)); [|done].
  intros [x y] [b regions] s _ _.
  change (outcome from_sweep (λ _ _, True)
            (find_regions_cell x y (b, regions) s)).
  destruct (find_regions_cell_cases x y b regions s) as [[_ ->]|[_ ->]];
    [done|].
  apply outcome_bind.
  by apply (outcome_mono _ _ _ _ _
              (check_region_from_sweep (region_of s x y) s)).
Qed.

(** ** The neighbours of a cell *)

Lemma neighbours_size x y : len_set (neighbours x y) <= 8.
Proof.
  unfold neighbours, len_set, range.
  replace (x + 2 - (x - 1)) with 3 by lia.
  replace (y + 2 - (y - 1)) with 3 by lia.
  set (cells := sx ← seqZ (x - 1) 3; (λ sy, (sx, sy)) <$> seqZ (y - 1) 3).
  assert (NoDup cells) as Hnd.
  { apply NoDup_bind.
    - intros x1 x2 f _ _ (y1 & -> & _)%list_elem_of_fmap
        (y2 & [= -> _] & _)%list_elem_of_fmap. done.
    - intros sx _. apply NoDup_fmap_2; [|apply NoDup_seqZ].
      by intros y1 y2 [= ->].
    - apply NoDup_seqZ. }
  rewrite size_list_to_set by by apply NoDup_filter.
  apply Z.lt_succ_r. change (Z.succ 8) with (Z.of_nat 9). apply Nat2Z.inj_lt.
  eapply Nat.lt_le_trans.
  - apply (filter_length_lt (adjacent x y) (λ _, True) cells (x, y));
      try done.
    + unfold cells. apply list_elem_of_bind. exists x. split.
      * apply list_elem_of_fmap. exists y. split; [done|].
        apply elem_of_seqZ. lia.
      * apply elem_of_seqZ. lia.
    + by intros (_ & _ & _ & Hne).
  - etrans; [apply length_filter|]. done.
Qed.

Lemma find_adjacent_type_subseteq x y t st :
  find_adjacent_type x y t st ⊆ neighbours x y.
Proof.
  intros f [Hadj _]%elem_of_find_adjacent_type. by apply elem_of_neighbours.
Qed.

Lemma find_adjacent_type_size x y t1 t2 st :
  t1 ≠ t2 →
  len_set (find_adjacent_type x y t1 st)
  + len_set (find_adjacent_type x y t2 st) <= 8.
Proof.
  intros Hne. pose proof (neighbours_size x y) as H8. unfold len_set in *.
  assert (find_adjacent_type x y t1 st ## find_adjacent_type x y t2 st)
    as Hdisj.
  { intros f [_ H1]%elem_of_find_adjacent_type
      [_ H2]%elem_of_find_adjacent_type. congruence. }
  rewrite <- Nat2Z.inj_add, <- size_union by done.
  assert (size (find_adjacent_type x y t1 st ∪ find_adjacent_type x y t2 st)
          <= size (neighbours x y))%nat; [|lia].
  apply subseteq_size. apply union_least; apply find_adjacent_type_subseteq.
Qed.

(** ** The list [find_regions] returns *)

Lemma region_of_shape st x y regions :
  extractable st x y regions → extracted_shape (region_of st x y).
Proof.
  intros (_ & Hne & _). split; [done|]. split; [done|]. split.
  - pose proof (find_adjacent_type_size x y Unknown Mine st ltac:(done)).
    unfold len_set in *. simpl. lia.
  - intros f [Hadj _]%elem_of_find_adjacent_type. apply Hadj.
Qed.

Lemma find_regions_upto_shape cells st b regions st' :
  find_regions_upto cells st = Ok ((b, regions), st') →
  NoDup (fields <$> regions) ∧ Forall extracted_shape regions
  ∧ (length regions <= length cells)%nat.
Proof.
  unfold find_regions_upto.
  assert (∀ acc s acc' s',
            for_acc cells (λ c acc, find_regions_cell c.1 c.2 acc) acc s
            = Ok (acc', s') →
            NoDup (fields <$> acc.2) → Forall extracted_shape acc.2 →
            NoDup (fields <$> acc'.2) ∧ Forall extracted_shape acc'.2
            ∧ (length acc'.2 <= length acc.2 + length cells)%nat) as Hgen.
  { induction cells as [|[x y] cells IH]; intros acc s acc' s'.
    { intros [= <- <-]. split; [done|]. split; [done|]. simpl. lia. }
    simpl. intros ([b1 regions1] & s1 & Hcell & Hrest)%bind_Ok Hnd Hall.
    destruct acc as [b0 regions0]. simpl in Hnd, Hall.
    apply find_regions_cell_Ok in Hcell
      as [(_ & -> & -> & ->)|(Hext & -> & _)].
    - destruct (IH _ _ _ _ Hrest Hnd Hall) as (? & ? & ?).
      split; [done|]. split; [done|]. simpl in *. lia.
    - destruct (IH _ _ _ _ Hrest) as (? & ? & Hlen).
      + simpl. rewrite fmap_app. apply NoDup_app. split; [done|]. split.
        * intros s0 (other & -> & Hother)%list_elem_of_fmap
            Heq%list_elem_of_singleton.
          destruct Hext as (_ & _ & Hnew). by apply (Hnew other).
        * apply NoDup_singleton.
      + simpl. apply Forall_app. split; [done|]. apply Forall_singleton.
        by apply (region_of_shape s x y regions0).
      + split; [done|]. split; [done|]. simpl in *.
        rewrite length_app in Hlen. simpl in Hlen. lia. }
  intros Hrun. apply Hgen in Hrun; [done|apply NoDup_nil_2|done].
Qed.

Lemma length_bind_const {A B} (l : list A) (f : A → list B) (n : nat) :
  (∀ a, length (f a) = n) → length (l ≫= f) = (length l * n)%nat.
Proof.
  intros Hf. induction l as [|a l IH]; [done|].
  change ((a :: l) ≫= f) with (f a ++ (l ≫= f)).
  rewrite length_app, IH, Hf. simpl. lia.
Qed.

Lemma length_scan_order :
  length scan_order = (Z.to_nat height * Z.to_nat width)%nat.
Proof.
  unfold scan_order, range.
  rewrite (length_bind_const _ _ (Z.to_nat width)).
  - rewrite length_seqZ. by rewrite Z.sub_0_r.
  - intros y. rewrite length_fmap, length_seqZ. by rewrite Z.sub_0_r.
Qed.

(** ** Lists on which [split_regions] has nothing to do *)

Lemma for_return_all_None {S A R} (xs : list A) (body : A → M S (option R))
    s :
  (∀ x, x ∈ xs → body x s = Ok (None, s)) →
  for_return xs body s = Ok (None, s).
Proof.
  induction xs as [|x xs IH]; intros Hbody; [done|].
  simpl. rewrite (bind_step _ _ _ None s) by (apply Hbody; by left).
  apply IH. intros y Hy. apply Hbody. by right.
Qed.

Lemma split_pair_skips (rec : Z → M split_state bool) depth ia ib s A B :
  s.1 !! ia = Some A → s.1 !! ib = Some B →
  fields A ∩ fields B = ∅ ∨ fields A = fields B →
  split_pair rec depth ia ib s = Ok (None, s).
Proof.
  intros HA HB Hskip. unfold split_pair.
  rewrite (bind_step _ _ _ A s) by (by apply regions_get_Ok).
  rewrite (bind_step _ _ _ B s) by (by apply regions_get_Ok).
  unfold split_bounds. cbv zeta. cbn [fields].
  destruct Hskip as [Hdisj|Hsame].
  - rewrite bool_decide_eq_true_2; [done|]. by apply len_set_0.
  - case_bool_decide; [done|].
    rewrite !bool_decide_eq_true_2; [done| |].
    + apply len_set_0. set_solver.
    + apply len_set_0. set_solver.
Qed.

Lemma split_regions_body_skips (rec : Z → M split_state bool) depth s :
  nothing_to_split s.1 → split_regions_body rec depth s = Ok (false, s).
Proof.
  intros Hskip. unfold split_regions_body.
  destruct (bool_decide (depth >= MAX_RECURSION_DEPTH)); [done|].
  rewrite (bind_step _ _ _ (length s.1) s) by done.
  rewrite (bind_step _ _ _ None s); [done|].
  apply for_return_all_None. intros ia Hia%elem_of_seq.
  rewrite (bind_step _ _ _ (length s.1) s) by done.
  apply for_return_all_None. intros ib Hib%elem_of_seq.
  destruct (lookup_lt_is_Some_2 s.1 ia) as [A HA]; [lia|].
  destruct (lookup_lt_is_Some_2 s.1 ib) as [B HB]; [lia|].
  apply (split_pair_skips rec depth ia ib s A B HA HB).
  apply (Hskip ia ib); [lia|done|done].
Qed.

(** ** The bounds of a split *)

Lemma split_bounds_swap (A B : Region) :
  split_bounds B A
  = ((split_bounds A B).1.1, (split_bounds A B).2, (split_bounds A B).1.2).
Proof.
  unfold split_bounds. cbv zeta. simpl.
  rewrite (inter_comm_fields (fields B) (fields A)).
  rewrite (Z.min_comm (mines_max B) (mines_max A)).
  rewrite (Z.max_comm (mines_min B - len_set (fields B ∖ fields A))
             (mines_min A - len_set (fields A ∖ fields B))).
  done.
Qed.

Lemma len_set_difference_subseteq (a b : gset Field) :
  a ⊆ b → len_set (b ∖ a) = len_set b - len_set a.
Proof.
  intros Hsub. unfold len_set. rewrite size_difference by done.
  pose proof (subseteq_size a b Hsub). lia.
Qed.

(** A region inside another one, both with a known number of mines: the
    rest of the larger one gets the difference. *)
Lemma split_bounds_subset (A B : Region) :
  fields A ⊆ fields B →
  mines_min A = mines_max A → mines_min B = mines_max B →
  0 <= mines_min A <= mines_min B →
  mines_min B - mines_min A <= len_set (fields B) - len_set (fields A) →
  split_bounds A B
  = (mkRegion (mines_min A) (mines_min A) (fields A),
     mkRegion 0 0 ∅,
     mkRegion (mines_min B - mines_min A) (mines_min B - mines_min A)
       (fields B ∖ fields A)).
Proof.
  intros Hsub HA HB Hle Hroom. unfold split_bounds. cbv zeta.
  assert (fields A ∩ fields B = fields A) as -> by set_solver.
  assert (fields A ∖ fields B = ∅) as -> by set_solver.
  rewrite (len_set_difference_subseteq _ _ Hsub).
  rewrite <- HA, <- HB.
  assert (len_set (∅ : gset Field) = 0) as -> by done.
  f_equal; [f_equal|]; f_equal; lia.
Qed.

(** ** The enumeration *)

Lemma FieldType_of_int_int t : FieldType_of_int (FieldType_int t) = Some t.
Proof. by destruct t. Qed.

Lemma FieldType_int_of_int n t :
  FieldType_of_int n = Some t → FieldType_int t = n.
Proof.
  intros Ht.
  destruct (decide (0 <= n <= 10)) as [Hn|Hn].
  - assert (n = 0 ∨ n = 1 ∨ n = 2 ∨ n = 3 ∨ n = 4 ∨ n = 5 ∨ n = 6 ∨ n = 7
            ∨ n = 8 ∨ n = 9 ∨ n = 10) as Hcases by lia.
    clear Hn.
    repeat destruct Hcases as [->|Hcases]; [..|subst n];
      by injection Ht as <-.
  - exfalso. destruct n as [|p|p]; [lia| |done].
    do 4 (destruct p as [p|p|]; try done; try lia).
Qed.

Lemma FieldType_of_int_None n :
  FieldType_of_int n = None ↔ ¬ 0 <= n <= 10.
Proof.
  split.
  - intros Hnone Hn.
    assert (n = 0 ∨ n = 1 ∨ n = 2 ∨ n = 3 ∨ n = 4 ∨ n = 5 ∨ n = 6 ∨ n = 7
            ∨ n = 8 ∨ n = 9 ∨ n = 10) as Hcases by lia.
    clear Hn. by repeat destruct Hcases as [->|Hcases]; [..|subst n].
  - intros Hn. destruct (FieldType_of_int n) as [t|] eqn:Ht; [|done].
    apply FieldType_int_of_int in Ht. destruct t; simpl in Ht; lia.
Qed.

(** ** The list [playarea] *)

Lemma foldl_snoc_fmap {A B} (g : A → B) (l : list A) (acc : list B) :
  foldl (λ acc a, acc ++ [g a]) acc l = acc ++ (g <$> l).
Proof.
  revert acc. induction l as [|a l IH]; intros acc; simpl.
  - by rewrite app_nil_r.
  - rewrite IH. by rewrite <- app_assoc.
Qed.

Lemma playarea_columns_fmap :
  playarea_columns
  = (λ x, (λ y, (x, y)) <$> range 0 height) <$> range 0 width.
Proof.
  unfold playarea_columns.
  rewrite (foldl_snoc_fmap
             (λ x, foldl (λ column y, column ++ [(x, y)]) [] (range 0 height))).
  simpl. apply list_fmap_ext. intros _ x _.
  by rewrite (foldl_snoc_fmap (λ y, (x, y))).
Qed.

Lemma range_lookup (n i : Z) :
  0 <= i → range 0 n !! Z.to_nat i = if decide (i < n) then Some i else None.
Proof.
  intros Hi. unfold range. rewrite Z.sub_0_r. case_decide.
  - rewrite lookup_seqZ_lt by lia. f_equal. lia.
  - apply lookup_seqZ_ge. lia.
Qed.

Lemma playarea_at_nonneg x y :
  0 <= x → 0 <= y →
  playarea_at x y
  = if decide (x < width) then if decide (y < height) then Some (x, y)
                               else None
    else None.
Proof.
  intros Hx Hy. unfold playarea_at, list_index.
  rewrite playarea_columns_fmap.
  rewrite (bool_decide_eq_true_2 (0 <= x)) by done.
  rewrite list_lookup_fmap, range_lookup by done.
  case_decide; [|done]. simpl.
  rewrite (bool_decide_eq_true_2 (0 <= y)) by done.
  rewrite list_lookup_fmap, range_lookup by done.
  by case_decide.
Qed.

(** ** The output of [visualize] *)

Lemma append_empty_r (acc : string) : acc +:+ EmptyString = acc.
Proof.
  induction acc as [|a acc IH]; [done|].
  change (String a (acc +:+ EmptyString) = String a acc). by rewrite IH.
Qed.

Lemma append_snoc (acc : string) (c : ascii) (rest : string) :
  (acc +:+ String c EmptyString) +:+ rest = acc +:+ String c rest.
Proof.
  induction acc as [|a acc IH]; [done|].
  change (String a ((acc +:+ String c EmptyString) +:+ rest)
          = String a (acc +:+ String c rest)).
  by rewrite IH.
Qed.

Lemma visualize_step_char (line : string) (t : FieldType) :
  (if bool_decide (t = Unknown) then line +:+ "?"
   else if bool_decide (t = Mine) then line +:+ "x"
   else line +:+ str (FieldType_int t))
  = line +:+ String (cell_char t) EmptyString.
Proof. by destruct t. Qed.

Lemma visualize_line_chars st y :
  visualize_line st y
  = String.string_of_list_ascii
      ((λ x, cell_char (field_type st (x, y))) <$> range 0 width).
Proof.
  unfold visualize_line.
  assert (∀ xs acc,
            foldl (λ line x,
               if bool_decide (field_type st (x, y) = Unknown)
               then line +:+ "?"
               else if bool_decide (field_type st (x, y) = Mine)
               then line +:+ "x"
               else line +:+ str (FieldType_int (field_type st (x, y))))
              acc xs
            = acc +:+ String.string_of_list_ascii
                        ((λ x, cell_char (field_type st (x, y))) <$> xs))
    as Hgen.
  { induction xs as [|x xs IH]; intros acc.
    - symmetry. apply append_empty_r.
    - rewrite fmap_cons. cbn [foldl String.string_of_list_ascii].
      rewrite IH, visualize_step_char. apply append_snoc. }
  apply Hgen.
Qed.

Lemma visualize_lines st :
  visualize st = (visualize_line st <$> range 0 height) ++ [EmptyString].
Proof. unfold visualize. by rewrite (foldl_snoc_fmap (visualize_line st)). Qed.

Lemma get_string_of_list_ascii (l : list ascii) (i : nat) :
  String.get i (String.string_of_list_ascii l) = l !! i.
Proof.
  revert i. by induction l as [|a l IH]; intros [|i]; simpl.
Qed.

Lemma length_string_of_list_ascii (l : list ascii) :
  String.length (String.string_of_list_ascii l) = length l.
Proof. induction l as [|a l IH]; simpl; [done|]. by rewrite IH. Qed.

Lemma string_of_list_ascii_inj (l1 l2 : list ascii) :
  String.string_of_list_ascii l1 = String.string_of_list_ascii l2 → l1 = l2.
Proof.
  revert l2. induction l1 as [|a l1 IH]; intros [|b l2]; simpl; try done.
  intros [= -> Hrest]. f_equal. by apply IH.
Qed.

Lemma cell_char_inj t1 t2 : cell_char t1 = cell_char t2 → t1 = t2.
Proof. by destruct t1, t2. Qed.

Lemma fmap_eq_pointwise {A B} (g1 g2 : A → B) (l : list A) :
  g1 <$> l = g2 <$> l ↔ ∀ a, a ∈ l → g1 a = g2 a.
Proof.
  induction l as [|a l IH]; simpl.
  - split; [by intros _ a ?%elem_of_nil|done].
  - split.
    + intros [= Ha Hl] b [->|Hb]%elem_of_cons; [done|]. by apply IH.
    + intros Hall. f_equal; [apply Hall; by left|].
      apply IH. intros b Hb. apply Hall. by right.
Qed.

Lemma visualize_line_eq st1 st2 y :
  visualize_line st1 y = visualize_line st2 y
  ↔ ∀ x, 0 <= x < width → field_type st1 (x, y) = field_type st2 (x, y).
Proof.
  rewrite !visualize_line_chars. split.
  - intros Heq%string_of_list_ascii_inj x Hx.
    apply cell_char_inj.
    apply (proj1 (fmap_eq_pointwise _ _ _) Heq x). by apply elem_of_range.
  - intros Hall. f_equal. apply fmap_eq_pointwise.
    intros x Hx%elem_of_range. by rewrite Hall.
Qed.

Lemma visualize_eq st1 st2 :
  visualize st1 = visualize st2
  ↔ ∀ f, in_grid f → field_type st1 f = field_type st2 f.
Proof.
  rewrite !visualize_lines. split.
  - intros [Heq _]%app_inj_tail [x y] [Hx Hy]. simpl in Hx, Hy.
    apply (proj1 (visualize_line_eq st1 st2 y)); [|done].
    apply (proj1 (fmap_eq_pointwise _ _ _) Heq y). by apply elem_of_range.
  - intros Hall. f_equal. apply fmap_eq_pointwise.
    intros y Hy%elem_of_range. apply visualize_line_eq.
    intros x Hx. by apply Hall.
Qed.

Lemma visualize_cell st x y :
  in_grid (x, y) →
  ∃ line, visualize st !! Z.to_nat y = Some line
          ∧ String.length line = Z.to_nat width
          ∧ String.get (Z.to_nat x) line
            = Some (cell_char (field_type st (x, y))).
Proof.
  intros [Hx Hy]. simpl in Hx, Hy. exists (visualize_line st y).
  rewrite visualize_lines. split; [|split].
  - rewrite lookup_app_l.
    + rewrite list_lookup_fmap, range_lookup by lia.
      by rewrite decide_True by lia.
    + rewrite length_fmap. unfold range. rewrite length_seqZ. lia.
  - rewrite visualize_line_chars, length_string_of_list_ascii, length_fmap.
    unfold range. rewrite length_seqZ. lia.
  - rewrite visualize_line_chars, get_string_of_list_ascii.
    rewrite list_lookup_fmap, range_lookup by lia.
    by rewrite decide_True by lia.
Qed.

Lemma visualize_length st :
  length (visualize st) = S (Z.to_nat height)
  ∧ last (visualize st) = Some EmptyString.
Proof.
  rewrite visualize_lines. split.
  - rewrite length_app, length_fmap. unfold range. rewrite length_seqZ.
    simpl. lia.
  - apply last_snoc.
Qed.

(** ** The board at the end *)

(** A truthful mine field answers valid counts. *)
Lemma truthful_counts_valid mines : truthful mines → counts_valid.
Proof.
  intros Htruth f Hg. specialize (Htruth f Hg).
  destruct (sweep_cell minefield f.1 f.2) as [n|]; [|done].
  destruct Htruth as (_ & -> & Hn8).
  pose proof (mines_among_le mines (neighbours f.1 f.2)). lia.
Qed.

(** With the solver's invariant and no unknown cell left, the board shows
    the mine configuration. *)
Lemma solved_board mines st :
  (∀ f, f ∈ mines → in_grid f) →
  solver_invariant mines st → find_remaining st = [] →
  mines_left st = 0
  ∧ ∀ f, in_grid f →
      (f ∈ mines → field_type st f = Mine)
      ∧ (f ∉ mines →
         numbered (field_type st f) = true
         ∧ FieldType_int (field_type st f)
           = mines_among mines (neighbours f.1 f.2)).
Proof.
  intros Hmines [Hcons Hleft] Hnone.
  assert (∀ f, in_grid f → field_type st f ≠ Unknown) as Hknown.
  { intros f Hg HU.
    assert (f ∈ find_remaining st) as Hf by by apply elem_of_find_remaining.
    rewrite Hnone in Hf. by apply elem_of_nil in Hf. }
  assert (∀ f, in_grid f → f ∈ mines → field_type st f = Mine) as Hmine.
  { intros f Hg Hf.
    destruct (decide (field_type st f = Mine)) as [|Hne]; [done|]. exfalso.
    destruct (Hcons f Hg) as [_ Hnum].
    destruct Hnum as [Hnot _]; [|done].
    apply numbered_cases. split; [done|by apply Hknown]. }
  split.
  - assert (marked st = mines) as Hall.
    { apply set_eq. intros f. rewrite elem_of_marked. split.
      - intros [Hg HM]. by apply (Hcons f Hg).
      - intros Hf. split; [by apply Hmines|]. apply Hmine; [|done].
        by apply Hmines. }
    rewrite Hall in Hleft. lia.
  - intros f Hg. split; [by apply Hmine|]. intros Hf.
    assert (numbered (field_type st f) = true) as Hnum.
    { apply numbered_cases. split; [|by apply Hknown].
      intros HM. apply Hf. by apply (Hcons f Hg). }
    split; [done|]. by apply (Hcons f Hg).
Qed.

(** When [find_regions] reports no modification, [check_region] has
    returned [False] for every region of the list. *)
Lemma find_regions_upto_undecided cells st regions st' :
  find_regions_upto cells st = Ok ((false, regions), st') →
  Forall (λ r, check_region r st = Ok (false, st)) regions.
Proof.
  unfold find_regions_upto. intros Hrun.
  pose (I := λ (acc : bool * list Region) (s : state),
          acc.1 = false →
          s = st ∧ Forall (λ r, check_region r st = Ok (false, st)) acc.2).
  assert (I (false, regions) st') as HI; [|by apply HI].
  revert Hrun. apply (for_acc_inv I).
  - intros [x y] [b regs] s [b' regs'] s' _ Hacc Hcell. simpl in Hcell.
    apply find_regions_cell_Ok in Hcell
      as [(_ & -> & -> & ->)|(_ & -> & m & Hcheck & ->)]; [done|].
    intros [-> ->]%orb_false_iff. destruct Hacc as [-> Hall]; [done|].
    pose proof (check_region_false _ _ _ Hcheck) as ->.
    split; [done|]. apply Forall_app. split; [done|].
    by apply Forall_singleton.
  - by intros _.
Qed.

(** ** A deduction that [split_regions] finds *)

(** A region inside another one, the rest of which must hold mines only:
    the pair marks the rest. *)
Lemma split_pair_subset_mines (rec : Z → M split_state bool) depth
    (A B : Region) (st : state) :
  fields A ⊆ fields B →
  mines_min A = mines_max A → mines_min B = mines_max B →
  0 < mines_min A < len_set (fields A) →
  0 < mines_min B - mines_min A →
  mines_min B - mines_min A = len_set (fields B) - len_set (fields A) →
  ∃ st',
    split_pair rec depth 0 1 ([A; B], st) = Ok (Some true, ([A; B], st'))
    ∧ mines_left st' = mines_left st - (mines_min B - mines_min A)
    ∧ (∀ f, f ∈ fields B ∖ fields A → field_type st' f = Mine)
    ∧ (∀ f, f ∉ fields B ∖ fields A → field_type st' f = field_type st f).
Proof.
  intros Hsub HA HB Hundecided Hpos Hrest.
  pose proof (len_set_difference_subseteq _ _ Hsub) as Hlen.
  assert (fields B ∖ fields A ≠ ∅) as HneE.
  { intros He. apply len_set_0 in He. lia. }
  destruct (check_region_mark
              (mkRegion (mines_min B - mines_min A)
                 (mines_min B - mines_min A) (fields B ∖ fields A)) st)
    as (st' & HrunE & Hm & Hin & Hout); [done|done|simpl; lia|].
  simpl in Hm, Hin, Hout.
  exists st'. split; [|split; [lia|done]].
  unfold split_pair.
  rewrite (bind_step _ _ _ A ([A; B], st)) by done.
  rewrite (bind_step _ _ _ B ([A; B], st)) by done.
  rewrite split_bounds_subset by (done || lia). cbv beta iota. cbn [fields].
  rewrite (bool_decide_eq_false_2 (len_set (fields A) = 0)) by lia.
  rewrite (bool_decide_eq_false_2 (len_set (fields B ∖ fields A) = 0)) by lia.
  rewrite andb_false_r.
  rewrite (bind_step _ _ _ false ([A; B], st)).
  2:{ apply on_board_Ok. exists st. split; [|done].
      apply check_region_noop. right. right. simpl. lia. }
  rewrite (bind_step _ _ _ false ([A; B], st)).
  2:{ apply on_board_Ok. exists st. split; [|done].
      apply check_region_noop. by left. }
  rewrite (bind_step _ _ _ true ([A; B], st')).
  2:{ apply on_board_Ok. by exists st'. }
  done.
Qed.

(** ** What follows a reveal *)

(** [check_region] raises from its reveal loop only, what [sweep_field]
    raises on a field of the region. *)
Lemma check_region_raises region st e :
  check_region region st = Raise e →
  mines_min region = 0 ∧ mines_max region = 0
  ∧ ∃ f, f ∈ fields region ∧ ∀ s, sweep_field f s = Raise e.
Proof.
  rewrite check_region_eq. repeat case_decide; try done.
  - intros [Hloop|(? & ? & _ & [=])]%bind_Raise.
    apply for_each_Raise in Hloop as (f & s1 & Hf & Hsweep).
    split; [done|]. split.
    { destruct (decide (mines_min region = mines_max region));
        [lia|naive_solver]. }
    exists f. split; [by apply elem_of_elements|].
    by apply (sweep_field_Raise_any f s1).
  - intros [Hloop|(? & ? & _ & [=])]%bind_Raise.
    destruct (for_each_mark (elements (fields region)) st) as (st' & Hrun & _).
    congruence.
Qed.

(** The guess of an iteration without deduction, when the reveal
    returns: the iteration goes on, whatever was answered. *)
Lemma guess_returns randint st regions st1 s2 flow st' :
  find_regions st = Ok ((false, regions), st1) →
  split_regions 0 (regions, st1) = Ok (false, s2) →
  mines_left st ≠ 0 → find_remaining st ≠ [] →
  main_iteration randint st = Ok (flow, st') →
  flow = Continue
  ∧ ∃ field, field ∈ find_remaining st ∧ sweep_field field st = Ok (tt, st').
Proof.
  intros Hfind Hsplit Hleft Hrem.
  destruct (main_iteration_stable randint st regions st1 s2 Hfind Hsplit)
    as [_ ->].
  rewrite (bind_step _ _ _ (find_remaining st) st) by done.
  rewrite (bind_step _ _ _ (mines_left st) st) by done.
  rewrite (bool_decide_eq_false_2 _ Hleft).
  rewrite (bind_step _ _ _ (find_remaining st) st) by done.
  rewrite bool_decide_eq_false_2 by (by destruct (find_remaining st)).
  destruct (list_index (find_remaining st) _) as [field|] eqn:Hidx; [|done].
  intros ([] & s1 & Hsweep & [= <- <-])%bind_Ok.
  split; [done|]. exists field. split; [|done].
  by apply list_index_elem_of in Hidx.
Qed.

(** The guess of an iteration without deduction, when the reveal
    raises: the exception leaves the loop. *)
Lemma guess_raises draws i rounds st regions st1 s2 field e :
  find_regions st = Ok ((false, regions), st1) →
  split_regions 0 (regions, st1) = Ok (false, s2) →
  mines_left st ≠ 0 →
  list_index (find_remaining st)
    (draws i 0 (Z.of_nat (length (find_remaining st)) - 1)) = Some field →
  sweep_field field st = Raise e →
  main_loop draws i (S rounds) st = Raise e.
Proof.
  intros Hfind Hsplit Hleft Hidx Hraise.
  destruct (main_iteration_stable (draws i) st regions st1 s2 Hfind Hsplit)
    as [_ Hiter].
  simpl. unfold bind at 1. rewrite Hiter.
  rewrite (bind_step _ _ _ (find_remaining st) st) by done.
  rewrite (bind_step _ _ _ (mines_left st) st) by done.
  rewrite (bool_decide_eq_false_2 _ Hleft).
  rewrite (bind_step _ _ _ (find_remaining st) st) by done.
  assert (find_remaining st ≠ []) as Hne.
  { intros Hnil. rewrite Hnil in Hidx. unfold list_index in Hidx.
    by repeat case_bool_decide. }
  rewrite bool_decide_eq_false_2 by (by destruct (find_remaining st)).
  rewrite Hidx. unfold bind at 1. by rewrite Hraise.
Qed.

(** ** The claims *)

(** C1 (amended): on a board that agrees with a mine configuration, with
    a truthful mine field, every region returned by [find_regions]
    satisfies [0 ≤ mines_min = mines_max ≤ |fields|] and its bounds hold
    for the configuration; and for two regions A
    and B whose bounds hold for a common mine configuration, each of the
    derived regions C, D and E of [split_regions] has bounds that hold for
    that configuration, with [0 ≤ mines_min ≤ mines_max] and
    [mines_min ≤ |fields|].  That [mines_max ≤ |fields|] is not promised for
    a derived region. *)
Theorem region_bounds (mines : gset Field) :
  (∀ st modified regions st',
     truthful mines → consistent mines st →
     find_regions st = Ok ((modified, regions), st') →
     ∀ r, r ∈ regions →
       bounds_ok r ∧ mines_min r = mines_max r ∧ within_bounds mines r)
  ∧ (∀ A B r,
       within_bounds mines A → within_bounds mines B →
       r = (split_bounds A B).1.1 ∨ r = (split_bounds A B).1.2
       ∨ r = (split_bounds A B).2 →
       within_bounds mines r
       ∧ 0 <= mines_min r ∧ mines_min r <= mines_max r
       ∧ mines_min r <= len_set (fields r)).
Proof.
  split.
  - intros st modified regions st' Htruth Hcons Hrun r Hr.
    rewrite find_regions_scan in Hrun.
    destruct (find_regions_upto_sound mines scan_order st modified regions st')
      as [_ Hall]; try done.
    { intros c. apply elem_of_scan_order. }
    by apply Hall.
  - intros A B r HA HB Hr.
    destruct (split_bounds_within mines A B HA HB) as (HC & HD & HE).
    destruct (split_bounds_min_nonneg A B) as (HC0 & HD0 & HE0).
    assert (within_bounds mines r ∧ 0 <= mines_min r) as [Hw H0].
    { by destruct Hr as [->|[->| ->]]. }
    split; [done|]. by apply (within_bounds_ordered mines).
Qed.

(** C2: split soundness.  Every mine configuration that respects the
    bounds of A and of B respects the bounds that [split_regions] computes
    for C = A ∩ B, D = A − B and E = B − A. *)
Theorem split_soundness (mines : gset Field) (A B : Region) :
  within_bounds mines A → within_bounds mines B →
  within_bounds mines (split_bounds A B).1.1
  ∧ within_bounds mines (split_bounds A B).1.2
  ∧ within_bounds mines (split_bounds A B).2
  ∧ fields (split_bounds A B).1.1 = fields A ∩ fields B
  ∧ fields (split_bounds A B).1.2 = fields A ∖ fields B
  ∧ fields (split_bounds A B).2 = fields B ∖ fields A.
Proof.
  intros HA HB.
  destruct (split_bounds_within mines A B HA HB) as (HC & HD & HE).
  done.
Qed.

(** C3 (amended): [find_regions] visits the cells row by row and stores a
    region exactly for every cell that, when the scan reaches it, shows a
    number (0 included), has at least one unknown neighbour, and whose set
    of unknown neighbours U is not the field set of a region stored
    before; the region has [mines_min = mines_max = count − |M|] and
    [fields = U], with U and M the unknown and the marked neighbours on the
    board as the scan found it. *)
Theorem find_regions_extracts (st : state) (modified : bool)
    (regions : list Region) (st' : state) :
  find_regions st = Ok ((modified, regions), st') →
  (∀ r, r ∈ regions ↔
     ∃ before x y after modified1 regions1 st1,
       scan_order = before ++ (x, y) :: after
       ∧ find_regions_upto before st = Ok ((modified1, regions1), st1)
       ∧ extractable st1 x y regions1
       ∧ r = region_of st1 x y)
  ∧ (∀ s x y,
       mines_min (region_of s x y) = mines_max (region_of s x y)
       ∧ mines_min (region_of s x y)
         = FieldType_int (field_type s (x, y))
           - len_set (find_adjacent_type x y Mine s)
       ∧ fields (region_of s x y) = find_adjacent_type x y Unknown s)
  ∧ (∀ s x y t f,
       f ∈ find_adjacent_type x y t s ↔ adjacent x y f ∧ field_type s f = t).
Proof.
  intros Hrun. rewrite find_regions_scan in Hrun. split; [|split].
  - by apply find_regions_upto_extracts with modified st'.
  - done.
  - intros s x y t f. apply elem_of_find_adjacent_type.
Qed.

(** C4 (amended): [sweep_field] hands no result to its caller and the
    main loop tests nothing after a reveal.  A reveal that returns has
    stored [FieldType(answer)] in the field, whatever the mine field
    answered; after a guess that returns, the loop goes on with the next
    iteration.  A run ends otherwise than by [break] only by an
    exception, and nothing catches it: when the reveal of the guessed cell
    raises, the same exception leaves the loop; [check_region] raises from
    its reveal loop only, never when it marks; and an exception that
    leaves the main loop is the one [sweep_field] raises on a cell of the
    board that was unknown, unless it is the [IndexError] of a draw outside
    its bounds. *)
Theorem loss_is_an_exception :
  (∀ f st u st',
     sweep_field f st = Ok (u, st') →
     ∃ n t, sweep_cell minefield f.1 f.2 = Count n
            ∧ FieldType_of_int n = Some t ∧ st' = set_type f t st)
  ∧ (∀ randint st regions st1 s2 flow st',
       find_regions st = Ok ((false, regions), st1) →
       split_regions 0 (regions, st1) = Ok (false, s2) →
       mines_left st ≠ 0 → find_remaining st ≠ [] →
       main_iteration randint st = Ok (flow, st') →
       flow = Continue
       ∧ ∃ field, field ∈ find_remaining st
                  ∧ sweep_field field st = Ok (tt, st'))
  ∧ (∀ draws i rounds st regions st1 s2 field e,
       find_regions st = Ok ((false, regions), st1) →
       split_regions 0 (regions, st1) = Ok (false, s2) →
       mines_left st ≠ 0 →
       list_index (find_remaining st)
         (draws i 0 (Z.of_nat (length (find_remaining st)) - 1)) = Some field →
       sweep_field field st = Raise e →
       main_loop draws i (S rounds) st = Raise e)
  ∧ (∀ region st e,
       check_region region st = Raise e →
       mines_min region = 0 ∧ mines_max region = 0
       ∧ ∃ f, f ∈ fields region ∧ ∀ s, sweep_field f s = Raise e)
  ∧ (∀ draws i rounds st e,
       main_loop draws i rounds st = Raise e →
       (e = IndexError ∧ ∃ j, ¬ draw_in_range (draws j))
       ∨ ∃ f, in_grid f ∧ field_type st f = Unknown
              ∧ ∀ s, sweep_field f s = Raise e).
Proof.
  split; [|split; [|split; [|split]]].
  - intros f st u st' (t & Ht & ->)%sweep_field_Ok. unfold reveal_type in Ht.
    destruct (sweep_cell minefield f.1 f.2) as [n|]; [|done].
    by exists n, t.
  - intros randint st regions st1 s2 flow st'. apply guess_returns.
  - intros draws i rounds st regions st1 s2 field e. apply guess_raises.
  - apply check_region_raises.
  - intros draws i rounds st e Hrun.
    by destruct (outcome_Raise _ _ _ _
                   (main_loop_progress draws i rounds st) Hrun) as [_ H].
Qed.

(** C5: applier precision.  [check_region] leaves the board as it is and
    returns [False] for a region without fields, with
    [mines_min ≠ mines_max], or whose collapsed bound is neither 0 nor the
    number of fields; whenever it does anything else, the region has
    fields, [mines_min = mines_max], and that value is 0 or the number of
    fields; and it never writes to a field outside the region. *)
Theorem check_region_precision (region : Region) (st : state) :
  (fields region = ∅ ∨ mines_min region ≠ mines_max region
   ∨ (mines_min region ≠ 0 ∧ mines_min region ≠ len_set (fields region)) →
   check_region region st = Ok (false, st))
  ∧ (check_region region st ≠ Ok (false, st) →
     fields region ≠ ∅ ∧ mines_min region = mines_max region
     ∧ (mines_min region = 0 ∨ mines_min region = len_set (fields region)))
  ∧ (∀ b st' f,
       check_region region st = Ok (b, st') → f ∉ fields region →
       field_type st' f = field_type st f).
Proof.
  split; [apply check_region_noop|]. split.
  - by apply check_region_acts.
  - intros b st' f. apply check_region_frame.
Qed.

(** C6: depth bound.  [MAX_RECURSION_DEPTH] is 4; called with a depth at
    or beyond it, [split_regions] returns [False] at once, list and board
    untouched, whatever the recursive call would do; and the body of
    [split_regions] makes its recursive call at depths up to the bound
    only: replacing the function beyond the bound changes no result. *)
Theorem split_regions_depth_bound :
  MAX_RECURSION_DEPTH = 4
  ∧ (∀ depth s, split_regions depth s
                = split_regions_body split_regions depth s)
  ∧ (∀ rec depth s,
       MAX_RECURSION_DEPTH <= depth →
       split_regions depth s = Ok (false, s)
       ∧ split_regions_body rec depth s = Ok (false, s))
  ∧ (∀ rec1 rec2 depth s,
       (∀ d s', d <= MAX_RECURSION_DEPTH → rec1 d s' = rec2 d s') →
       split_regions_body rec1 depth s = split_regions_body rec2 depth s).
Proof.
  split; [done|]. split; [apply split_regions_unfold|]. split.
  - intros rec depth s Hd. split; [|by apply split_regions_at_bound].
    rewrite split_regions_unfold. by apply split_regions_at_bound.
  - intros rec1 rec2 depth s Hrec.
    destruct (decide (MAX_RECURSION_DEPTH <= depth)) as [Hd|Hd].
    + by rewrite !split_regions_at_bound.
    + apply split_regions_body_ext. intros t. apply Hrec. lia.
Qed.

(** C7: restoration.  When a call of [split_regions] returns, the working
    list is the list it was called with: same length, same elements at the
    same indices; and so it is after every single pair the call has
    examined, whether the pair led to a modification of the board or not. *)
Theorem split_regions_restores (depth : Z) (regions : list Region)
    (st : state) :
  (∀ b regions' st',
     split_regions depth (regions, st) = Ok (b, (regions', st')) →
     regions' = regions)
  ∧ (∀ regionA_index regionB_index r regions' st',
       split_pair split_regions depth regionA_index regionB_index
         (regions, st) = Ok (r, (regions', st')) →
       regions' = regions).
Proof.
  split.
  - intros b regions' st' Hrun.
    by destruct (split_regions_calls_untouched _ _ _ _ _ Hrun) as [? _].
  - intros ia ib r regions' st' Hrun.
    apply split_pair_untouched in Hrun.
    + destruct r as [b|]; [by destruct Hrun as [? _]|congruence].
    + intros s b s'. apply split_regions_calls_untouched.
Qed.

(** C8: for a region with fields and [mines_min = mines_max = 0],
    [check_region], when it returns, has revealed every field (each carries
    the type of the count the mine field answered), touched no other field,
    left [mines_left] unchanged and returned [True]; it does return when
    the mine field reports every field safe, and then every field shows a
    number.  For a region with fields and
    [mines_min = mines_max = |fields|] it marks every field [Mine],
    touches no other field, decrements [mines_left] by exactly [|fields|]
    and returns [True]. *)
Theorem check_region_reveal_or_mark (region : Region) (st : state) :
  fields region ≠ ∅ → mines_min region = mines_max region →
  (mines_min region = 0 →
   (∀ b st',
      check_region region st = Ok (b, st') →
      b = true ∧ mines_left st' = mines_left st
      ∧ (∀ f, f ∈ fields region → reveal_type f = Some (field_type st' f))
      ∧ (∀ f, f ∉ fields region → field_type st' f = field_type st f))
   ∧ ((∀ f, f ∈ fields region → safe_cell f = true) →
      ∃ st', check_region region st = Ok (true, st')
        ∧ ∀ f, f ∈ fields region →
            numbered (field_type st' f) = true
            ∧ sweep_cell minefield f.1 f.2
              = Count (FieldType_int (field_type st' f))))
  ∧ (mines_min region = len_set (fields region) →
     ∃ st', check_region region st = Ok (true, st')
       ∧ mines_left st' = mines_left st - len_set (fields region)
       ∧ (∀ f, f ∈ fields region → field_type st' f = Mine)
       ∧ (∀ f, f ∉ fields region → field_type st' f = field_type st f)).
Proof.
  intros He Hc. split.
  - intros H0. split.
    + intros b st' Hrun.
      destruct (check_region_sweep region st b st' He Hc H0 Hrun)
        as (Hb & Hm & Hin).
      split; [done|]. split; [done|]. split; [done|].
      intros f Hf. by apply (check_region_frame region st b st' f).
    + intros Hsafe.
      destruct (check_region_sweep_total region st He Hc H0) as [st' Hrun].
      { intros f Hf. destruct (safe_cell_reveal f (Hsafe f Hf)) as (t & -> & _).
        by eexists. }
      exists st'. split; [done|].
      destruct (check_region_sweep region st true st' He Hc H0 Hrun)
        as (_ & _ & Hin).
      intros f Hf.
      destruct (safe_cell_reveal f (Hsafe f Hf)) as (t & Ht & Hnum & Hcount).
      rewrite (Hin f Hf) in Ht. by injection Ht as ->.
  - by apply check_region_mark.
Qed.


(** C10: when [split_regions] returns [False], the board is exactly as it
    was at the call: the type of every field and [mines_left]. *)
Theorem split_regions_false_untouched (depth : Z) (regions regions' : list Region)
    (st st' : state) :
  split_regions depth (regions, st) = Ok (false, (regions', st')) →
  st' = st.
Proof.
  intros Hrun.
  destruct (split_regions_calls_untouched _ _ _ _ _ Hrun) as [_ Hboard].
  by apply Hboard.
Qed.

(** ** Further properties of the program *)

(** X1: the members of [FieldType] and their values correspond one to
    one: [FieldType(int(t))] is [t], [int(FieldType(n))] is [n], and
    [FieldType(n)] raises exactly for the integers outside 0..10. *)
Theorem FieldType_round_trip :
  (∀ t, FieldType_of_int (FieldType_int t) = Some t)
  ∧ (∀ n t, FieldType_of_int n = Some t → FieldType_int t = n)
  ∧ (∀ n, FieldType_of_int n = None ↔ ¬ 0 <= n <= 10).
Proof.
  split; [apply FieldType_of_int_int|].
  split; [apply FieldType_int_of_int|apply FieldType_of_int_None].
Qed.

(** X2: [playarea[x][y]] is the field built with the coordinates
    [(x, y)] for every cell of the board, and an index at or beyond
    [width] or [height] is out of range; the indices that
    [find_adjacent_type] computes around any [(x, y)], and those of the
    scans over [range(0, width)] and [range(0, height)], are in range. *)
Theorem playarea_indexing :
  (∀ x y, 0 <= x → 0 <= y →
     playarea_at x y
     = if decide (x < width) then if decide (y < height) then Some (x, y)
                                  else None
       else None)
  ∧ (∀ x y scan_x scan_y,
       scan_x ∈ range (Z.max (x - 1) 0) (Z.min (x + 2) width) →
       scan_y ∈ range (Z.max (y - 1) 0) (Z.min (y + 2) height) →
       playarea_at scan_x scan_y = Some (scan_x, scan_y))
  ∧ (∀ x y, x ∈ range 0 width → y ∈ range 0 height →
       playarea_at x y = Some (x, y)).
Proof.
  split; [apply playarea_at_nonneg|]. split.
  - intros x y sx sy Hx%elem_of_range Hy%elem_of_range.
    rewrite playarea_at_nonneg by lia. by rewrite !decide_True by lia.
  - intros x y Hx%elem_of_range Hy%elem_of_range.
    rewrite playarea_at_nonneg by lia. by rewrite !decide_True by lia.
Qed.

(** X3: [sweep_field] writes the member of [FieldType] whose value is the
    count the mine field answers into the field, and touches neither
    another field nor [mines_left] (also when the count is 9 and the field
    reads [Mine] afterwards); it raises [ValueError] exactly for a count
    outside 0..10, and otherwise only when the cell was a mine. *)
Theorem sweep_field_outcomes :
  (∀ f st st',
     sweep_field f st = Ok (tt, st') →
     sweep_cell minefield f.1 f.2 = Count (FieldType_int (field_type st' f))
     ∧ mines_left st' = mines_left st
     ∧ ∀ g, g ≠ f → field_type st' g = field_type st g)
  ∧ (∀ f st e,
       sweep_field f st = Raise e →
       (e = HitMine ∧ sweep_cell minefield f.1 f.2 = WasMine)
       ∨ (e = ValueError
          ∧ ∃ n, sweep_cell minefield f.1 f.2 = Count n ∧ ¬ 0 <= n <= 10))
  ∧ (∀ f st n,
       sweep_cell minefield f.1 f.2 = Count n → 0 <= n <= 10 →
       ∃ st', sweep_field f st = Ok (tt, st')).
Proof.
  split; [|split; [apply sweep_field_Raise|]].
  - intros f st st' (t & Ht & ->)%sweep_field_Ok. unfold reveal_type in Ht.
    destruct (sweep_cell minefield f.1 f.2) as [n|]; [|done].
    apply FieldType_int_of_int in Ht as <-.
    rewrite field_type_set_type, decide_True by done.
    split; [done|]. split; [done|]. intros g Hg.
    by rewrite field_type_set_type, decide_False.
  - intros f st n Hn Hrange. rewrite sweep_field_eq, Hn.
    destruct (FieldType_of_int n) as [t|] eqn:Ht; [by eexists|].
    by apply FieldType_of_int_None in Ht.
Qed.

(** X4: around any cell [find_adjacent_type] finds at most eight fields
    in all: the unknown and the marked neighbours are disjoint sets with
    at most eight members together, and the cell itself is never among
    them. *)
Theorem find_adjacent_type_at_most_8 (x y : Z) (st : state) :
  len_set (find_adjacent_type x y Unknown st)
  + len_set (find_adjacent_type x y Mine st) <= 8
  ∧ find_adjacent_type x y Unknown st ∩ find_adjacent_type x y Mine st = ∅
  ∧ ∀ t, (x, y) ∉ find_adjacent_type x y t st.
Proof.
  split; [by apply find_adjacent_type_size|]. split.
  - apply set_eq. intros f. rewrite elem_of_intersection.
    rewrite !elem_of_find_adjacent_type. split; [|by intros ?%elem_of_empty].
    intros [[_ H1] [_ H2]]. congruence.
  - intros t [(_ & _ & _ & Hne) _]%elem_of_find_adjacent_type. done.
Qed.

(** X5: the list [find_regions] returns holds no two regions with the
    same set of fields; every region in it has at least one and at most
    eight fields, all of them cells of the board, and
    [mines_min = mines_max]; and there are at most [width * height]
    regions. *)
Theorem find_regions_shape (st : state) (modified : bool)
    (regions : list Region) (st' : state) :
  find_regions st = Ok ((modified, regions), st') →
  NoDup (fields <$> regions)
  ∧ Forall extracted_shape regions
  ∧ (length regions <= Z.to_nat height * Z.to_nat width)%nat.
Proof.
  rewrite find_regions_scan. intros Hrun.
  apply find_regions_upto_shape in Hrun as (Hnd & Hall & Hlen).
  by rewrite length_scan_order in Hlen.
Qed.

(** X6: [find_regions] writes to unknown cells of the board only and
    never raises [mines_left]; when it reports no modification the board
    is untouched, every region of the list holds unknown cells only and
    [check_region] returns [False] on each; when it reports a
    modification and the mine field answers valid counts, a cell that was
    unknown no longer is. *)
Theorem find_regions_flag (st : state) (modified : bool)
    (regions : list Region) (st' : state) :
  find_regions st = Ok ((modified, regions), st') →
  evolves st st'
  ∧ (modified = false →
     st' = st ∧ Forall (unknown_region st) regions
     ∧ Forall (λ r, check_region r st = Ok (false, st)) regions)
  ∧ (counts_valid → modified = true → advanced st st').
Proof.
  rewrite find_regions_scan. intros Hrun.
  pose proof (outcome_Ok _ _ _ _ _
                (find_regions_upto_progress scan_order st) Hrun)
    as [[He Hc] Hfalse].
  simpl in He, Hc, Hfalse. split; [done|]. split.
  - intros ->. destruct (Hfalse eq_refl) as [-> Hall].
    split; [done|]. split; [done|].
    by apply (find_regions_upto_undecided scan_order st regions st).
  - intros Hv. by destruct (Hc Hv).
Qed.

(** X7: called on regions of unknown cells of the board, [split_regions]
    writes to unknown cells of the board only, never raises [mines_left]
    and leaves the list as it was; when it returns [True] and the mine
    field answers valid counts, a cell that was unknown no longer is. *)
Theorem split_regions_flag (depth : Z) (regions : list Region) (st : state)
    (b : bool) (s' : split_state) :
  Forall (unknown_region st) regions →
  split_regions depth (regions, st) = Ok (b, s') →
  s'.1 = regions
  ∧ evolves st s'.2
  ∧ (counts_valid → b = true → advanced st s'.2).
Proof.
  intros Hregions Hrun.
  pose proof (outcome_Ok _ _ _ _ _
                (split_regions_calls_progress _ depth regions st Hregions)
                Hrun) as (Hl & [He Hc] & _).
  split; [done|]. split; [done|]. intros Hv. by destruct (Hc Hv).
Qed.

(** X8: [split_regions] never raises [IndexError], whatever list, board
    and depth it is called with: every index it uses is in range, also
    after the recursive call; an exception that leaves it, or
    [find_regions], is one of [sweep_field]. *)
Theorem no_exception_of_its_own (depth : Z) (s : split_state) (st : state) :
  (∀ e, split_regions depth s = Raise e → e = HitMine ∨ e = ValueError)
  ∧ (∀ e, find_regions st = Raise e → e = HitMine ∨ e = ValueError).
Proof.
  split; intros e Hrun.
  - exact (outcome_Raise _ _ _ _
             (split_regions_calls_from_sweep _ depth s) Hrun).
  - exact (outcome_Raise _ _ _ _ (find_regions_from_sweep st) Hrun).
Qed.

(** X9: on a list in which the field sets of any two regions are
    disjoint or the same (the empty list and a list of one region among
    them), [split_regions] returns [False] with list and board untouched
    and makes no recursive call. *)
Theorem split_regions_nothing_to_split (depth : Z) (regions : list Region)
    (st : state) :
  nothing_to_split regions →
  split_regions depth (regions, st) = Ok (false, (regions, st))
  ∧ ∀ rec, split_regions_body rec depth (regions, st)
           = Ok (false, (regions, st)).
Proof.
  intros Hskip. split.
  - rewrite split_regions_unfold. by apply split_regions_body_skips.
  - intros rec. by apply split_regions_body_skips.
Qed.

(** X10: the regions that [split_regions] derives from a pair do not
    depend on the order of the pair: from B and A it derives the same C,
    with D and E exchanged. *)
Theorem split_bounds_symmetric (A B : Region) :
  split_bounds B A
  = ((split_bounds A B).1.1, (split_bounds A B).2, (split_bounds A B).1.2).
Proof. apply split_bounds_swap. Qed.

(** X11: when the fields of A lie within those of B, A holds exactly [a]
    and B exactly [b] mines, with [0 ≤ a ≤ b] and [b − a] no more than the
    number of fields of B outside A, then [split_regions] derives for the
    rest E = B − A exactly [b − a] mines, for C = A exactly [a], and for
    the empty D none. *)
Theorem split_bounds_subset_rule (A B : Region) :
  fields A ⊆ fields B →
  mines_min A = mines_max A → mines_min B = mines_max B →
  0 <= mines_min A <= mines_min B →
  mines_min B - mines_min A <= len_set (fields B) - len_set (fields A) →
  split_bounds A B
  = (mkRegion (mines_min A) (mines_min A) (fields A),
     mkRegion 0 0 ∅,
     mkRegion (mines_min B - mines_min A) (mines_min B - mines_min A)
       (fields B ∖ fields A)).
Proof. apply split_bounds_subset. Qed.

(** X12: [find_remaining] returns the unknown cells of the board in the
    order of the scan, row by row, each of them once. *)
Theorem find_remaining_scan (st : state) :
  find_remaining st = filter (λ f, field_type st f = Unknown) scan_order
  ∧ NoDup (find_remaining st)
  ∧ (∀ f, f ∈ find_remaining st ↔ in_grid f ∧ field_type st f = Unknown)
  ∧ (length (find_remaining st) <= Z.to_nat height * Z.to_nat width)%nat.
Proof.
  split; [apply find_remaining_filter|]. split; [|split].
  - rewrite find_remaining_filter. apply NoDup_filter, NoDup_scan_order.
  - apply elem_of_find_remaining.
  - rewrite find_remaining_filter, <- length_scan_order.
    apply length_filter.
Qed.

(** X13: [visualize] prints [height] lines of [width] characters and
    then an empty line; the character at column [x] of line [y] stands for
    the field [(x, y)]: [?] for an unknown field, [x] for a marked one and
    the digit of its number otherwise. *)
Theorem visualize_cell_at (st : state) (x y : Z) :
  in_grid (x, y) →
  length (visualize st) = S (Z.to_nat height)
  ∧ last (visualize st) = Some EmptyString
  ∧ ∃ line, visualize st !! Z.to_nat y = Some line
            ∧ String.length line = Z.to_nat width
            ∧ String.get (Z.to_nat x) line
              = Some (cell_char (field_type st (x, y))).
Proof.
  intros Hg. destruct (visualize_length st) as [Hlen Hlast].
  split; [done|]. split; [done|]. by apply visualize_cell.
Qed.

(** X14: the output of [visualize] determines the board: two boards are
    printed alike exactly when every cell of the board has the same type
    on both. *)
Theorem visualize_lossless (st1 st2 : state) :
  visualize st1 = visualize st2
  ↔ ∀ f, in_grid f → field_type st1 f = field_type st2 f.
Proof. apply visualize_eq. Qed.

(** X15: whatever the mine field answers and whatever is drawn, the main
    loop only ever writes to unknown cells of the board: a field that was
    revealed or marked keeps its type for the rest of the run, no field
    outside the board is written, and [mines_left] never grows. *)
Theorem main_loop_only_writes_unknown (draws : nat → Z → Z → Z)
    (i rounds : nat) (st : state) (r : option unit) (st' : state) :
  main_loop draws i rounds st = Ok (r, st') →
  (∀ f, field_type st f ≠ Unknown → field_type st' f = field_type st f)
  ∧ (∀ f, field_type st' f ≠ field_type st f → in_grid f)
  ∧ mines_left st' <= mines_left st.
Proof.
  intros Hrun.
  by destruct (outcome_Ok _ _ _ _ _ (main_loop_progress draws i rounds st)
                 Hrun) as [[He _] _].
Qed.

(** X16: when the mine field answers valid counts, [mines_left] plus the
    number of cells marked [Mine] stays what it was all through the main
    loop: every decrement of [mines_left] goes with one newly marked
    cell. *)
Theorem main_loop_mines_total (draws : nat → Z → Z → Z) (i rounds : nat)
    (st : state) (r : option unit) (st' : state) :
  counts_valid →
  main_loop draws i rounds st = Ok (r, st') →
  mines_left st' + len_set (marked st')
  = mines_left st + len_set (marked st).
Proof.
  intros Hv Hrun.
  destruct (outcome_Ok _ _ _ _ _ (main_loop_progress draws i rounds st)
              Hrun) as [[_ Hc] _].
  by destruct (Hc Hv).
Qed.

(** X17: when the mine field answers valid counts and [randint] draws
    within its bounds, the main loop ends within as many iterations as
    there are unknown cells, plus one: either by [break], and then no
    unknown cell is left on the board, or by the exception of a swept
    mine; it raises nothing else. *)
Theorem main_loop_ends (draws : nat → Z → Z → Z) (i rounds : nat)
    (st : state) :
  counts_valid → (∀ j, draw_in_range (draws j)) →
  (length (find_remaining st) < rounds)%nat →
  (∃ st', main_loop draws i rounds st = Ok (Some tt, st')
          ∧ find_remaining st' = [])
  ∨ main_loop draws i rounds st = Raise HitMine.
Proof.
  intros Hv Hdraws Hrounds.
  pose proof (main_loop_progress draws i rounds st) as Hout.
  destruct (main_loop draws i rounds st) as [[[[]|] st']|e]; simpl in Hout.
  - left. exists st'. split; [done|]. by apply Hout.
  - destruct Hout as [_ Hlen]. specialize (Hlen Hv). lia.
  - right. by rewrite (proj1 Hout Hv Hdraws).
Qed.

(** X18: started on the fresh board with [mines_left] the number of
    mines of a truthful mine field, the main loop, when it ends by
    [break], has found the mine configuration: [mines_left] is 0, every
    cell with a mine is marked [Mine], and every other cell shows the
    number of mines around it. *)
Theorem solver_wins (mines : gset Field) (draws : nat → Z → Z → Z)
    (rounds : nat) (st' : state) :
  truthful mines → (∀ f, f ∈ mines → in_grid f) →
  main_loop draws 0 rounds (mkState ∅ (len_set mines)) = Ok (Some tt, st') →
  mines_left st' = 0
  ∧ ∀ f, in_grid f →
      (f ∈ mines → field_type st' f = Mine)
      ∧ (f ∉ mines →
         numbered (field_type st' f) = true
         ∧ FieldType_int (field_type st' f)
           = mines_among mines (neighbours f.1 f.2)).
Proof.
  intros Htruth Hmines Hrun.
  pose proof (main_loop_sound mines draws 0 rounds
                (mkState ∅ (len_set mines)) Htruth Hmines
                (initial_invariant mines)) as Hsound.
  rewrite Hrun in Hsound. destruct Hsound as [Hinv Hnone].
  apply solved_board; [done|done|]. by apply Hnone.
Qed.

(** X19: an iteration of the main loop in which [find_regions] and
    [split_regions] report no modification breaks at once when no unknown
    cell is left, whatever [mines_left] is; and with mines left and
    unknown cells remaining it reveals exactly the cell [remaining[guess]]
    for the [guess] drawn from [0 .. len(remaining) - 1], and goes on. *)
Theorem main_iteration_no_deduction (randint : Z → Z → Z) (st : state)
    (regions : list Region) (st1 : state) (s2 : split_state) :
  find_regions st = Ok ((false, regions), st1) →
  split_regions 0 (regions, st1) = Ok (false, s2) →
  (find_remaining st = [] → main_iteration randint st = Ok (Break, st))
  ∧ (mines_left st ≠ 0 → find_remaining st ≠ [] → draw_in_range randint →
     ∃ field,
       find_remaining st
         !! Z.to_nat (randint 0 (Z.of_nat (length (find_remaining st)) - 1))
       = Some field
       ∧ field_type st field = Unknown
       ∧ main_iteration randint st
         = bind (sweep_field field) (λ _, ret Continue) st).
Proof.
  intros Hfind Hsplit.
  destruct (main_iteration_stable randint st regions st1 s2 Hfind Hsplit)
    as [_ Hiter].
  split.
  - intros Hnil. rewrite Hiter.
    rewrite (bind_step _ _ _ (find_remaining st) st) by done.
    rewrite (bind_step _ _ _ (mines_left st) st) by done.
    rewrite Hnil. by case_bool_decide.
  - intros Hleft Hrem Hdraw. rewrite Hiter.
    rewrite (bind_step _ _ _ (find_remaining st) st) by done.
    rewrite (bind_step _ _ _ (mines_left st) st) by done.
    rewrite (bool_decide_eq_false_2 _ Hleft).
    rewrite (bind_step _ _ _ (find_remaining st) st) by done.
    rewrite bool_decide_eq_false_2 by (by destruct (find_remaining st)).
    assert (0 < Z.of_nat (length (find_remaining st))) as Hpos.
    { destruct (find_remaining st); [done|]. simpl. lia. }
    specialize (Hdraw 0 (Z.of_nat (length (find_remaining st)) - 1)
                  ltac:(lia)).
    destruct (list_index_in_range (find_remaining st)
                (randint 0 (Z.of_nat (length (find_remaining st)) - 1)))
      as [field Hidx]; [lia|].
    exists field. rewrite Hidx. split; [|split; [|done]].
    + unfold list_index in Hidx.
      by rewrite bool_decide_eq_true_2 in Hidx by lia.
    + by apply list_index_elem_of, elem_of_find_remaining in Hidx as [_ ?].
Qed.

(** X20: on a board that agrees with the mine configuration of a
    truthful mine field, with [mines_left] counting the mines not marked
    yet, no deduction reveals a mine: [find_regions] and [split_regions]
    return without an exception and every mark and number they write is
    right; an iteration of the main loop can raise only in its last step,
    when it guesses while mines are left, [HitMine] when the guessed cell
    holds a mine (or [IndexError] when the draw is no index of the list);
    and the board an iteration leaves agrees with the configuration
    again. *)
Theorem deductions_are_safe (mines : gset Field) (randint : Z → Z → Z)
    (st : state) :
  truthful mines → (∀ f, f ∈ mines → in_grid f) →
  solver_invariant mines st →
  (∃ modified regions st1,
     find_regions st = Ok ((modified, regions), st1)
     ∧ solver_invariant mines st1
     ∧ (modified = false →
        ∃ b st2, split_regions 0 (regions, st1) = Ok (b, (regions, st2))
                 ∧ solver_invariant mines st2))
  ∧ (∀ e, main_iteration randint st = Raise e →
       mines_left st ≠ 0
       ∧ match list_index (find_remaining st)
                 (randint 0 (Z.of_nat (length (find_remaining st)) - 1)) with
         | Some field => e = HitMine ∧ field ∈ mines
         | None => e = IndexError
         end)
  ∧ (∀ flow st', main_iteration randint st = Ok (flow, st') →
       solver_invariant mines st').
Proof.
  intros Htruth Hmines Hinv. split; [|split].
  - destruct (find_regions_sound mines st Htruth Hinv)
      as (modified & regions & st1 & Hfind & Hinv1 & Hstable).
    exists modified, regions, st1. split; [done|]. split; [done|].
    intros ->. destruct Hstable as [-> Hregions]; [done|].
    destruct (split_regions_sound mines 0 regions st Htruth Hinv)
      as (b & st2 & Hsplit & Hinv2 & _).
    { by apply Forall_forall. }
    by exists b, st2.
  - intros e Hraise.
    destruct (main_iteration_sound mines randint st Htruth Hmines Hinv)
      as [(flow & st' & Hrun & _)|(e' & regions & Hrun & _ & _ & Hleft & Hidx)];
      [congruence|].
    rewrite Hraise in Hrun. injection Hrun as <-. done.
  - intros flow st' Hrun.
    destruct (main_iteration_sound mines randint st Htruth Hmines Hinv)
      as [(flow' & st2 & Hrun2 & Hinv2 & _)|(e' & regions & Hrun2 & _)];
      [|congruence].
    rewrite Hrun in Hrun2. by injection Hrun2 as _ <-.
Qed.

(** X21: [split_regions] finds the mines of a subset deduction.  On the
    list of an undecided region A ([0 < a < |A|] mines) and a region B
    that contains it, with exactly [b] mines, where the [b − a] mines that
    are not in A are as many as the fields of B outside A, it marks
    exactly those fields [Mine], lowers [mines_left] by [b − a], leaves the
    list as it is and returns [True], at any depth below the bound and
    without a recursive call. *)
Theorem split_regions_subset_mines (depth : Z) (A B : Region) (st : state) :
  depth < MAX_RECURSION_DEPTH →
  fields A ⊆ fields B →
  mines_min A = mines_max A → mines_min B = mines_max B →
  0 < mines_min A < len_set (fields A) →
  0 < mines_min B - mines_min A →
  mines_min B - mines_min A = len_set (fields B) - len_set (fields A) →
  ∃ st',
    split_regions depth ([A; B], st) = Ok (true, ([A; B], st'))
    ∧ mines_left st' = mines_left st - (mines_min B - mines_min A)
    ∧ (∀ f, f ∈ fields B ∖ fields A → field_type st' f = Mine)
    ∧ (∀ f, f ∉ fields B ∖ fields A → field_type st' f = field_type st f).
Proof.
  intros Hdepth Hsub HA HB Hundecided Hpos Hrest.
  destruct (split_pair_subset_mines split_regions depth A B st)
    as (st' & Hpair & Hfacts); try done.
  exists st'. split; [|done].
  rewrite split_regions_unfold. unfold split_regions_body.
  rewrite bool_decide_eq_false_2 by lia.
  rewrite (bind_step _ _ _ 2%nat ([A; B], st)) by done.
  cbn [seq for_return].
  rewrite (bind_step _ _ _ (Some true) ([A; B], st')); [done|].
  rewrite (bind_step _ _ _ (Some true) ([A; B], st')); [done|].
  rewrite (bind_step _ _ _ 2%nat ([A; B], st)) by done.
  cbn [Nat.add Nat.sub seq for_return].
  by rewrite (bind_step _ _ _ (Some true) ([A; B], st') Hpair).
Qed.

End Program.

(** ** The claims on the example boards *)

(** The 3 x 3 board of the source header agrees with its mine
    configuration, and so does the mine field. *)
Lemma truthful_3x3 :
  truthful 3 3 (mine_field mines_3x3) (list_to_set mines_3x3).
Proof.
  intros [x y] [Hx Hy]; simpl in Hx, Hy.
  assert (x = 0 ∨ x = 1 ∨ x = 2) as Hxs by lia.
  assert (y = 0 ∨ y = 1 ∨ y = 2) as Hys by lia.
  destruct Hxs as [->|[->| ->]]; destruct Hys as [->|[->| ->]];
    vm_compute; repeat split; congruence.
Qed.

Lemma consistent_3x3 :
  consistent 3 3 (list_to_set mines_3x3) board_3x3.
Proof.
  intros [x y] [Hx Hy]; simpl in Hx, Hy.
  assert (x = 0 ∨ x = 1 ∨ x = 2) as Hxs by lia.
  assert (y = 0 ∨ y = 1 ∨ y = 2) as Hys by lia.
  destruct Hxs as [->|[->| ->]]; destruct Hys as [->|[->| ->]];
    vm_compute; repeat split; congruence.
Qed.

Lemma region_bounds_witness :
  (bounds_ok region_4 ∧ mines_min region_4 = mines_max region_4
   ∧ within_bounds (list_to_set mines_3x3) region_4)
  ∧ (within_bounds (list_to_set mines_3x3) (split_bounds region_1 region_2).2
     ∧ 0 <= mines_min (split_bounds region_1 region_2).2
     ∧ mines_min (split_bounds region_1 region_2).2
       <= mines_max (split_bounds region_1 region_2).2
     ∧ mines_min (split_bounds region_1 region_2).2
       <= len_set (fields (split_bounds region_1 region_2).2)).
Proof.
  destruct (region_bounds 3 3 (mine_field mines_3x3) (list_to_set mines_3x3))
    as [Hfound Hsplit].
  split.
  - apply (Hfound board_3x3 false [region_1; region_2; region_4] board_3x3).
    + exact truthful_3x3.
    + exact consistent_3x3.
    + vm_compute. reflexivity.
    + apply list_elem_of_In. simpl. auto.
  - apply (Hsplit region_1 region_2).
    + vm_compute. split; congruence.
    + vm_compute. split; congruence.
    + right. by right.
Defined.

(** On the 5 x 2 board [find_regions] returns three regions; the two of
    the lower row satisfy the bound invariant and share one field, and the
    region C that [split_regions] builds from them has [mines_max = 2] on
    that single field: it is in the list handed to the recursive call. *)
Lemma bounds_counterexample :
  find_regions 5 2 (mine_field mines_5x2) board_5x2
  = Ok ((false, [region_top; region_left; region_right]), board_5x2)
  ∧ bounds_ok region_left ∧ bounds_ok region_right
  ∧ within_bounds (list_to_set mines_5x2) region_left
  ∧ within_bounds (list_to_set mines_5x2) region_right
  ∧ mines_max (split_bounds region_left region_right).1.1 = 2
  ∧ len_set (fields (split_bounds region_left region_right).1.1) = 1
  ∧ split_pair (mine_field mines_5x2) sees_two_on_one 0 1 2
      ([region_top; region_left; region_right], board_5x2)
    = Ok (Some true, ([region_top; region_left; region_right], board_5x2))
  ∧ ¬ bounds_ok (split_bounds region_left region_right).1.1.
Proof.
  split; [vm_compute; reflexivity|].
  split; [vm_compute; repeat split; congruence|].
  split; [vm_compute; repeat split; congruence|].
  split; [vm_compute; repeat split; congruence|].
  split; [vm_compute; repeat split; congruence|].
  split; [vm_compute; reflexivity|].
  split; [vm_compute; reflexivity|].
  split; [vm_compute; reflexivity|].
  intros (_ & _ & H). vm_compute in H. by apply H.
Qed.

Lemma split_soundness_witness :
  within_bounds (list_to_set mines_3x3) (split_bounds region_1 region_2).1.1
  ∧ within_bounds (list_to_set mines_3x3) (split_bounds region_1 region_2).1.2
  ∧ within_bounds (list_to_set mines_3x3) (split_bounds region_1 region_2).2
  ∧ fields (split_bounds region_1 region_2).1.1
    = fields region_1 ∩ fields region_2
  ∧ fields (split_bounds region_1 region_2).1.2
    = fields region_1 ∖ fields region_2
  ∧ fields (split_bounds region_1 region_2).2
    = fields region_2 ∖ fields region_1.
Proof.
  apply (split_soundness (list_to_set mines_3x3) region_1 region_2).
  - vm_compute. split; congruence.
  - vm_compute. split; congruence.
Defined.

Lemma find_regions_extracts_witness :
  ∃ before x y after modified1 regions1 st1,
    scan_order 3 3 = before ++ (x, y) :: after
    ∧ find_regions_upto 3 3 (mine_field mines_3x3) before board_3x3
      = Ok ((modified1, regions1), st1)
    ∧ extractable 3 3 st1 x y regions1
    ∧ region_2 = region_of 3 3 st1 x y.
Proof.
  apply (proj1 (find_regions_extracts 3 3 (mine_field mines_3x3) board_3x3
                  false [region_1; region_2; region_4] board_3x3
                  ltac:(vm_compute; reflexivity)) region_2).
  apply list_elem_of_In. simpl. auto.
Defined.

(** On the board [0 ?] no cell shows a count above 0, yet [find_regions]
    returns a region, the one of the cell that shows 0, and opens its
    neighbour. *)
Lemma extract_counterexample :
  find_regions 2 1 (mine_field []) board_2x1
  = Ok ((true, [mkRegion 0 0 {[ (1, 0) ]}]), board_2x1_swept)
  ∧ field_type board_2x1 (0, 0) = Numbered0
  ∧ ¬ ∃ f, numbered (field_type board_2x1 f) = true
           ∧ 0 < FieldType_int (field_type board_2x1 f).
Proof.
  split; [vm_compute; reflexivity|]. split; [reflexivity|].
  intros (f & Hnum & Hpos).
  destruct (decide (f = (0, 0))) as [->|Hne]; [vm_compute in Hpos; congruence|].
  unfold field_type, board_2x1, board in Hnum. simpl in Hnum.
  rewrite lookup_insert_ne in Hnum by congruence.
  rewrite lookup_empty in Hnum. done.
Qed.

Lemma check_region_precision_witness :
  check_region (mine_field mines_3x3) (mkRegion 1 2 {[ (1, 0); (1, 1) ]})
    board_3x3
  = Ok (false, board_3x3).
Proof.
  apply (proj1 (check_region_precision (mine_field mines_3x3)
                  (mkRegion 1 2 {[ (1, 0); (1, 1) ]}) board_3x3)).
  right. left. simpl. lia.
Defined.

Lemma split_regions_depth_bound_witness :
  split_regions (mine_field mines_3x3) 4
    ([region_1; region_2; region_4], board_3x3)
  = Ok (false, ([region_1; region_2; region_4], board_3x3)).
Proof.
  destruct (split_regions_depth_bound (mine_field mines_3x3))
    as (_ & _ & Hbound & _).
  apply (Hbound (λ _ s, Ok (false, s)) 4). unfold MAX_RECURSION_DEPTH. lia.
Defined.

(** On the 5 x 2 board no pair leads to a modification: every pair is
    followed into the recursion, down to the depth bound, and the list is
    the same after the call and after the pair of the two lower regions;
    that pair does reach its recursive call, with C appended and D and E
    in place of A and B. *)
Lemma split_regions_restores_witness :
  (∃ b regions' st',
     split_regions (mine_field mines_5x2) 0
       ([region_top; region_left; region_right], board_5x2)
     = Ok (b, (regions', st'))
     ∧ regions' = [region_top; region_left; region_right])
  ∧ (∃ r regions' st',
       split_pair (mine_field mines_5x2) (split_regions (mine_field mines_5x2))
         0 1 2 ([region_top; region_left; region_right], board_5x2)
       = Ok (r, (regions', st'))
       ∧ r = None
       ∧ regions' = [region_top; region_left; region_right])
  ∧ split_pair (mine_field mines_5x2) rec_raises 0 1 2
      ([region_top; region_left; region_right], board_5x2)
    = Raise IndexError.
Proof.
  assert (split_regions (mine_field mines_5x2) 0
            ([region_top; region_left; region_right], board_5x2)
          = Ok (false, ([region_top; region_left; region_right], board_5x2)))
    as Hrun by (vm_compute; reflexivity).
  assert (split_pair (mine_field mines_5x2)
            (split_regions (mine_field mines_5x2)) 0 1 2
            ([region_top; region_left; region_right], board_5x2)
          = Ok (None, ([region_top; region_left; region_right], board_5x2)))
    as Hpair by (vm_compute; reflexivity).
  destruct (split_regions_restores (mine_field mines_5x2) 0
              [region_top; region_left; region_right] board_5x2)
    as [Hcall Hpairs].
  split; [|split].
  - exists false, [region_top; region_left; region_right], board_5x2.
    split; [exact Hrun|]. exact (Hcall _ _ _ Hrun).
  - exists None, [region_top; region_left; region_right], board_5x2.
    split; [exact Hpair|]. split; [reflexivity|].
    exact (Hpairs _ _ _ _ _ Hpair).
  - vm_compute. reflexivity.
Defined.

(** A region of three fields without a mine is revealed, a region of two
    fields with two mines is marked. *)
Lemma check_region_reveal_or_mark_witness :
  (check_region (mine_field []) region_three board_2x2
   = Ok (true, board_2x2_swept)
   ∧ ∃ st', check_region (mine_field []) region_three board_2x2
            = Ok (true, st')
       ∧ ∀ f, f ∈ fields region_three →
           numbered (field_type st' f) = true
           ∧ sweep_cell (mine_field []) f.1 f.2
             = Count (FieldType_int (field_type st' f)))
  ∧ (check_region (mine_field mines_ends) region_pair board_ends
     = Ok (true, board_ends_marked)
     ∧ ∃ st', check_region (mine_field mines_ends) region_pair board_ends
              = Ok (true, st')
         ∧ mines_left st' = mines_left board_ends - len_set (fields region_pair)
         ∧ (∀ f, f ∈ fields region_pair → field_type st' f = Mine)
         ∧ (∀ f, f ∉ fields region_pair →
              field_type st' f = field_type board_ends f)).
Proof.
  split.
  - split; [vm_compute; reflexivity|].
    destruct (check_region_reveal_or_mark (mine_field []) region_three
                board_2x2) as [Hzero _]; [done|done|].
    destruct Hzero as [_ Hsafe]; [done|]. apply Hsafe.
    intros f Hf. simpl in Hf. set_unfold in Hf.
    destruct_or!; simplify_eq; reflexivity.
  - split; [vm_compute; reflexivity|].
    destruct (check_region_reveal_or_mark (mine_field mines_ends) region_pair
                board_ends) as [_ Hfull]; [done|done|].
    apply Hfull. vm_compute. reflexivity.
Defined.

Lemma split_regions_false_untouched_witness :
  ∃ regions' st',
    split_regions (mine_field mines_5x2) 0
      ([region_top; region_left; region_right], board_5x2)
    = Ok (false, (regions', st'))
    ∧ st' = board_5x2.
Proof.
  assert (split_regions (mine_field mines_5x2) 0
            ([region_top; region_left; region_right], board_5x2)
          = Ok (false, ([region_top; region_left; region_right], board_5x2)))
    as Hrun by (vm_compute; reflexivity).
  exists [region_top; region_left; region_right], board_5x2.
  split; [exact Hrun|].
  exact (split_regions_false_untouched (mine_field mines_5x2) 0 _ _ _ _ Hrun).
Defined.

(** A mine field that returns -1 for a mine: the first guess falls on
    the mine, [FieldType(-1)] raises, and the exception leaves the loop. *)
Lemma loss_is_an_exception_witness :
  main_loop 2 1 (mine_field_returning (-1) mines_left_cell) draw_first 0 1
    board_fresh
  = Raise ValueError.
Proof.
  destruct (loss_is_an_exception 2 1
              (mine_field_returning (-1) mines_left_cell))
    as (_ & _ & Hguess & _).
  apply (Hguess draw_first 0%nat 0%nat board_fresh [] board_fresh
           ([], board_fresh) (0, 0) ValueError).
  - vm_compute. reflexivity.
  - vm_compute. reflexivity.
  - vm_compute. congruence.
  - vm_compute. reflexivity.
  - vm_compute. reflexivity.
Defined.

(** No result of a reveal is tested, however the mine field reports the
    mine in the left cell of the 2 x 1 board on which the first guess
    falls.  When it returns 9, the reveal returns like any other, the
    cell reads [Mine] with [mines_left] unchanged, and the loop goes on to
    its [break]; when it returns -1, [sweep_field] and then the loop end
    with the [ValueError] of [FieldType(-1)]; when its call does not return
    a value, they end with its exception. *)
Lemma loss_counterexample :
  sweep_field (mine_field_returning 9 mines_left_cell) (0, 0) board_fresh
  = Ok (tt, board_mine_stored)
  ∧ main_iteration 2 1 (mine_field_returning 9 mines_left_cell)
      (draw_first 0%nat) board_fresh
    = Ok (Continue, board_mine_stored)
  ∧ main_loop 2 1 (mine_field_returning 9 mines_left_cell) draw_first 0 3
      board_fresh
    = Ok (Some tt, board_mine_passed)
  ∧ sweep_field (mine_field_returning (-1) mines_left_cell) (0, 0) board_fresh
    = Raise ValueError
  ∧ main_loop 2 1 (mine_field_returning (-1) mines_left_cell) draw_first 0 3
      board_fresh
    = Raise ValueError
  ∧ sweep_field (mine_field mines_left_cell) (0, 0) board_fresh
    = Raise HitMine
  ∧ main_loop 2 1 (mine_field mines_left_cell) draw_first 0 3 board_fresh
    = Raise HitMine.
Proof. repeat split; vm_compute; reflexivity. Qed.


(** ** The further properties on the example boards *)

Lemma truthful_3x1 :
  truthful 3 1 (mine_field mines_3x1) (list_to_set mines_3x1).
Proof.
  intros [x y] [Hx Hy]; simpl in Hx, Hy.
  assert (x = 0 ∨ x = 1 ∨ x = 2) as Hxs by lia.
  assert (y = 0) as -> by lia.
  destruct Hxs as [->|[->| ->]]; vm_compute; repeat split; congruence.
Qed.

Lemma unknown_regions_3x3 :
  Forall (unknown_region 3 3 board_3x3) [region_1; region_2; region_4].
Proof.
  repeat apply Forall_cons_2; [| | |apply Forall_nil_2];
    intros f Hf; simpl in Hf; set_unfold in Hf; destruct_or!; simplify_eq;
    (split; [unfold in_grid; simpl; lia|reflexivity]).
Qed.

Lemma find_regions_shape_witness :
  NoDup (fields <$> [region_1; region_2; region_4])
  ∧ Forall (extracted_shape 3 3) [region_1; region_2; region_4]
  ∧ (length [region_1; region_2; region_4] <= Z.to_nat 3 * Z.to_nat 3)%nat.
Proof.
  apply (find_regions_shape 3 3 (mine_field mines_3x3) board_3x3 false
           [region_1; region_2; region_4] board_3x3).
  vm_compute. reflexivity.
Defined.

Lemma find_regions_flag_witness :
  evolves 3 1 board_1 board_3x1 ∧ advanced 3 1 board_1 board_3x1.
Proof.
  assert (find_regions 3 1 (mine_field mines_3x1) board_1
          = Ok ((true, [region_mid]), board_3x1)) as Hrun
    by (vm_compute; reflexivity).
  destruct (find_regions_flag 3 1 (mine_field mines_3x1) board_1 true
              [region_mid] board_3x1 Hrun) as (He & _ & Ha).
  split; [exact He|]. apply Ha; [|reflexivity].
  exact (truthful_counts_valid 3 1 _ _ truthful_3x1).
Defined.

Lemma split_regions_flag_witness :
  [region_1; region_2; region_4] = [region_1; region_2; region_4]
  ∧ evolves 3 3 board_3x3 board_3x3_split
  ∧ advanced 3 3 board_3x3 board_3x3_split.
Proof.
  assert (split_regions (mine_field mines_3x3) 0
            ([region_1; region_2; region_4], board_3x3)
          = Ok (true, ([region_1; region_2; region_4], board_3x3_split)))
    as Hrun by (vm_compute; reflexivity).
  destruct (split_regions_flag 3 3 (mine_field mines_3x3) 0
              [region_1; region_2; region_4] board_3x3 true
              ([region_1; region_2; region_4], board_3x3_split)
              unknown_regions_3x3 Hrun)
    as (Hl & He & Ha).
  split; [exact Hl|]. split; [exact He|]. apply Ha; [|reflexivity].
  exact (truthful_counts_valid 3 3 _ _ truthful_3x3).
Defined.

Lemma nothing_to_split_two_apart : nothing_to_split two_apart.
Proof.
  intros i j A B Hij HA HB.
  destruct i as [|[|i]], j as [|[|j]]; simpl in HA, HB; try lia; try done.
  injection HA as <-. injection HB as <-. left. vm_compute. reflexivity.
Qed.

Lemma split_regions_nothing_to_split_witness :
  split_regions (mine_field mines_3x1) 0 (two_apart, board_3x1_fresh)
  = Ok (false, (two_apart, board_3x1_fresh))
  ∧ ∀ rec, split_regions_body (mine_field mines_3x1) rec 0
             (two_apart, board_3x1_fresh)
           = Ok (false, (two_apart, board_3x1_fresh)).
Proof.
  exact (split_regions_nothing_to_split (mine_field mines_3x1) 0 two_apart
           board_3x1_fresh nothing_to_split_two_apart).
Defined.

Lemma split_bounds_subset_rule_witness :
  split_bounds region_inner region_2
  = (mkRegion 1 1 (fields region_inner),
     mkRegion 0 0 ∅,
     mkRegion (2 - 1) (2 - 1) (fields region_2 ∖ fields region_inner)).
Proof.
  apply (split_bounds_subset_rule region_inner region_2).
  - simpl. set_solver.
  - reflexivity.
  - reflexivity.
  - simpl. lia.
  - vm_compute. congruence.
Defined.

Lemma visualize_cell_at_witness :
  length (visualize 3 3 board_3x3) = S (Z.to_nat 3)
  ∧ last (visualize 3 3 board_3x3) = Some EmptyString
  ∧ ∃ line, visualize 3 3 board_3x3 !! Z.to_nat 2 = Some line
            ∧ String.length line = Z.to_nat 3
            ∧ String.get (Z.to_nat 1) line
              = Some (cell_char (field_type board_3x3 (1, 2))).
Proof.
  apply (visualize_cell_at 3 3 board_3x3 1 2).
  unfold in_grid. simpl. lia.
Defined.

Lemma main_loop_only_writes_unknown_witness :
  (∀ f, field_type board_3x1_fresh f ≠ Unknown →
        field_type board_3x1_solved f = field_type board_3x1_fresh f)
  ∧ (∀ f, field_type board_3x1_solved f ≠ field_type board_3x1_fresh f →
          in_grid 3 1 f)
  ∧ mines_left board_3x1_solved <= mines_left board_3x1_fresh.
Proof.
  apply (main_loop_only_writes_unknown 3 1 (mine_field mines_3x1) draw_first
           0 4 board_3x1_fresh (Some tt) board_3x1_solved).
  vm_compute. reflexivity.
Defined.

Lemma main_loop_mines_total_witness :
  mines_left board_3x1_solved + len_set (marked 3 1 board_3x1_solved)
  = mines_left board_3x1_fresh + len_set (marked 3 1 board_3x1_fresh).
Proof.
  apply (main_loop_mines_total 3 1 (mine_field mines_3x1) draw_first
           0 4 board_3x1_fresh (Some tt) board_3x1_solved).
  - exact (truthful_counts_valid 3 1 _ _ truthful_3x1).
  - vm_compute. reflexivity.
Defined.

Lemma main_loop_ends_witness :
  (∃ st', main_loop 3 1 (mine_field mines_3x1) draw_first 0 4 board_3x1_fresh
          = Ok (Some tt, st')
          ∧ find_remaining 3 1 st' = [])
  ∨ main_loop 3 1 (mine_field mines_3x1) draw_first 0 4 board_3x1_fresh
    = Raise HitMine.
Proof.
  apply (main_loop_ends 3 1 (mine_field mines_3x1) draw_first 0 4
           board_3x1_fresh).
  - exact (truthful_counts_valid 3 1 _ _ truthful_3x1).
  - intros j a b Hab. unfold draw_first. lia.
  - vm_compute. lia.
Defined.

Lemma solver_wins_witness :
  mines_left board_3x1_solved = 0
  ∧ ∀ f, in_grid 3 1 f →
      (f ∈ (list_to_set mines_3x1 : gset Field) →
       field_type board_3x1_solved f = Mine)
      ∧ (f ∉ (list_to_set mines_3x1 : gset Field) →
         numbered (field_type board_3x1_solved f) = true
         ∧ FieldType_int (field_type board_3x1_solved f)
           = mines_among (list_to_set mines_3x1) (neighbours 3 1 f.1 f.2)).
Proof.
  apply (solver_wins 3 1 (mine_field mines_3x1) (list_to_set mines_3x1)
           draw_first 4 board_3x1_solved).
  - exact truthful_3x1.
  - intros f Hf. simpl in Hf. set_unfold in Hf.
    destruct Hf as [->|[]]. unfold in_grid. simpl. lia.
  - vm_compute. reflexivity.
Defined.

Lemma main_iteration_no_deduction_witness :
  ∃ field,
    find_remaining 3 1 board_3x1_fresh
      !! Z.to_nat (draw_first 0%nat 0
                     (Z.of_nat (length (find_remaining 3 1 board_3x1_fresh))
                      - 1))
    = Some field
    ∧ field_type board_3x1_fresh field = Unknown
    ∧ main_iteration 3 1 (mine_field mines_3x1) (draw_first 0%nat)
        board_3x1_fresh
      = bind (sweep_field (mine_field mines_3x1) field) (λ _, ret Continue)
          board_3x1_fresh.
Proof.
  destruct (main_iteration_no_deduction 3 1 (mine_field mines_3x1)
              (draw_first 0%nat) board_3x1_fresh [] board_3x1_fresh
              ([], board_3x1_fresh)) as [_ Hguess].
  - vm_compute. reflexivity.
  - vm_compute. reflexivity.
  - apply Hguess.
    + vm_compute. congruence.
    + vm_compute. congruence.
    + intros a b Hab. unfold draw_first. lia.
Defined.

Lemma solver_invariant_3x3 :
  solver_invariant 3 3 (list_to_set mines_3x3) board_3x3.
Proof. split; [exact consistent_3x3|]. vm_compute. reflexivity. Qed.

Lemma deductions_are_safe_witness :
  ∃ b st2,
    split_regions (mine_field mines_3x3) 0
      ([region_1; region_2; region_4], board_3x3)
    = Ok (b, ([region_1; region_2; region_4], st2))
    ∧ solver_invariant 3 3 (list_to_set mines_3x3) st2.
Proof.
  destruct (deductions_are_safe 3 3 (mine_field mines_3x3)
              (list_to_set mines_3x3) (draw_first 0%nat) board_3x3)
    as [(modified & regions & st1 & Hfind & _ & Hsplit) _].
  - exact truthful_3x3.
  - intros f Hf. simpl in Hf. set_unfold in Hf. destruct_or!; simplify_eq;
      unfold in_grid; simpl; lia.
  - exact solver_invariant_3x3.
  - assert (find_regions 3 3 (mine_field mines_3x3) board_3x3
            = Ok ((false, [region_1; region_2; region_4]), board_3x3))
      as Hrun by (vm_compute; reflexivity).
    rewrite Hrun in Hfind. injection Hfind as <- <- <-.
    by apply Hsplit.
Defined.

Lemma split_regions_subset_mines_witness :
  ∃ st',
    split_regions (mine_field mines_3x3) 0
      ([region_inner; region_2], board_3x3)
    = Ok (true, ([region_inner; region_2], st'))
    ∧ mines_left st'
      = mines_left board_3x3 - (mines_min region_2 - mines_min region_inner)
    ∧ (∀ f, f ∈ fields region_2 ∖ fields region_inner →
            field_type st' f = Mine)
    ∧ (∀ f, f ∉ fields region_2 ∖ fields region_inner →
            field_type st' f = field_type board_3x3 f).
Proof.
  apply (split_regions_subset_mines (mine_field mines_3x3) 0 region_inner
           region_2 board_3x3).
  - unfold MAX_RECURSION_DEPTH. lia.
  - simpl. set_solver.
  - reflexivity.
  - reflexivity.
  - vm_compute. split; reflexivity.
  - simpl. lia.
  - vm_compute. reflexivity.
Defined.
